(** * Phobos: flow.py

    A shallow embedding of [FlowManager], [NameSet] and [FilterParseError]
    from [flow.py], and the properties of the name resolver, of the filter
    parser and of the fetch/write loop.

    Conventions of the embedding:
    - a Python [str] is a [string]; a character stands for a code point
      below 256, and strings compare by code points ([String.le]);
    - a Python [dict] is an association list in insertion order with
      pairwise distinct keys (module [PyDict]); a Python [set] of strings is
      a [gset string], only ever iterated through [sorted];
    - miners and writers are object references; they are compared (dict
      keys, [list.index]) by identity, as objects that do not override
      [__eq__] are;
    - a call that may raise returns a [result]; the loop of [run] lives in a
      small monad that threads the console output and the calls made to the
      collaborators. *)

From stdpp Require Import base tactics option list sorting strings pretty gmap.
From Stdlib Require Import Ascii.

Local Open Scope stdpp_scope.
#[local] Arguments String.append !_ _ / : simpl nomatch.

(** ** Exceptions *)

(** Where the class of a raised object sits in Python's hierarchy: this is
    all that the [except] clauses of [run] look at, in their order.
    - [KeyboardInterruptKind]: the class is [KeyboardInterrupt] or derives
      from it, also when it derives from [Exception] as well (the clause
      [except KeyboardInterrupt] comes first);
    - [ExceptionKind]: the class is [Exception] or derives from it, and
      does not derive from [KeyboardInterrupt];
    - [BaseExceptionKind]: the class derives from neither ([SystemExit],
      [GeneratorExit], [FilterParseError] below). *)
Inductive exn_kind := KeyboardInterruptKind | ExceptionKind | BaseExceptionKind.

(** A raised object: [exn_type] is [type(e).__name__], [exn_msg] is what
    [str(e)] (or [format]) shows. *)
Record exn := Exn { kind : exn_kind; exn_type : string; exn_msg : string }.

(** class FilterParseError(BaseException) *)
Definition FilterParseError (msg : string) : exn :=
  Exn BaseExceptionKind "FilterParseError" msg.

Definition KeyboardInterrupt : exn := Exn KeyboardInterruptKind "KeyboardInterrupt" "".
Definition IndexError : exn := Exn ExceptionKind "IndexError" "list index out of range".
Definition KeyError (k : string) : exn := Exn ExceptionKind "KeyError" k.
Definition ValueError (msg : string) : exn := Exn ExceptionKind "ValueError" msg.

Inductive result (A : Type) := Returned (a : A) | Raised (e : exn).
Arguments Returned {A} a.
Arguments Raised {A} e.

#[global] Instance exn_kind_eq_dec : EqDecision exn_kind.
Proof. solve_decision. Defined.
#[global] Instance exn_eq_dec : EqDecision exn.
Proof. solve_decision. Defined.

(** ** Strings *)

(** [c.isspace()] for a code point below 256: TAB, LF, VT, FF, CR, the four
    separators FS, GS, RS, US, the space, NEL and the no-break space. *)
Definition isspace (c : ascii) : bool :=
  let n := nat_of_ascii c in
  ((9 <=? n) && (n <=? 13)) || ((28 <=? n) && (n <=? 32))
  || (n =? 133) || (n =? 160).

Fixpoint lstrip (s : string) : string :=
  match s with
  | "" => ""
  | String c s' => if isspace c then lstrip s' else s
  end.

Fixpoint rstrip (s : string) : string :=
  match s with
  | "" => ""
  | String c s' =>
      match rstrip s' with
      | "" => if isspace c then "" else String c ""
      | r => String c r
      end
  end.

(** [s.strip()] *)
Definition strip (s : string) : string := rstrip (lstrip s).

(** [s[a:b]] and [s[a:]] for [0 <= a]; like Python's slices, they clamp. *)
Definition slice (s : string) (a b : nat) : string :=
  String.substring a (b - a) s.
Definition slice_from (s : string) (a : nat) : string :=
  String.substring a (String.length s - a) s.

(** ['{}'.format(n)] for a non-negative integer. *)
Definition format_nat (n : nat) : string := pretty n.

(** [c in s] for a character [c]. *)
Fixpoint contains_char (c : ascii) (s : string) : bool :=
  match s with
  | "" => false
  | String c' s' => bool_decide (c' = c) || contains_char c s'
  end.

(** ** NameSet *)

Module NameSet.

(** class NameSet(set): a set of strings. *)
Definition t := gset string.

(** NameSet.add *)
Definition add (self : gset string) (name : string) : gset string :=
  let name := strip name in
  if decide (name = "") then self else {[ name ]} ∪ self.

End NameSet.

(** ** The filter parser *)

(** The three characters of the pattern ['[(),]']. *)
Definition is_special (c : ascii) : bool :=
  bool_decide (c = "("%char) || bool_decide (c = ")"%char)
  || bool_decide (c = ","%char).

(** [re.finditer('[(),]', s)]: one match per occurrence of one of the three
    characters, left to right; a match is [(match.start(), match.group())],
    and [match.end()] is [match.start() + 1]. [pos] is the position of the
    first character of [s] in the whole string. *)
Fixpoint finditer_from (pos : nat) (s : string) : list (nat * ascii) :=
  match s with
  | "" => []
  | String c s' =>
      if is_special c then (pos, c) :: finditer_from (S pos) s'
      else finditer_from (S pos) s'
  end.

Definition finditer (s : string) : list (nat * ascii) := finditer_from 0 s.

(** 'unexpected character "{}" at position {}'.format(symbol, pos_start) *)
Definition unexpected_msg (symbol : ascii) (pos_start : nat) : string :=
  "unexpected character " +:+ String "034" (String symbol (String "034" ""))
  +:+ " at position " +:+ format_nat pos_start.

Definition not_closed_msg : string := "parenthesis is not closed".

(** The state of the loop of [_parse_filter]. *)
Record parse_state := ParseState {
  inarg : bool;
  pos_current : nat;
  name_set : gset string
}.

(** One iteration of [for match in re.finditer(...)]. *)
Definition parse_step (name_filter : string) (st : parse_state)
    (m : nat * ascii) : result parse_state :=
  let pos_start := m.1 in
  let pos_end := S m.1 in
  let symbol := m.2 in
  if bool_decide (symbol = ","%char) && negb (inarg st) then
    Returned (ParseState (inarg st) pos_end
                (NameSet.add (name_set st) (slice name_filter (pos_current st) pos_start)))
  else if bool_decide (symbol = ","%char) && inarg st then
    Returned st
  else if bool_decide (symbol = "("%char) && negb (inarg st) then
    Returned (ParseState true (pos_current st) (name_set st))
  else if bool_decide (symbol = ")"%char) && inarg st then
    Returned (ParseState false (pos_current st) (name_set st))
  else
    Raised (FilterParseError (unexpected_msg symbol pos_start)).

Fixpoint parse_loop (name_filter : string) (ms : list (nat * ascii))
    (st : parse_state) : result parse_state :=
  match ms with
  | [] => Returned st
  | m :: ms' =>
      match parse_step name_filter st m with
      | Returned st' => parse_loop name_filter ms' st'
      | Raised e => Raised e
      end
  end.

(** FlowManager._parse_filter *)
Definition _parse_filter (name_filter : string) : result (gset string) :=
  match parse_loop name_filter (finditer name_filter) (ParseState false 0 ∅) with
  | Raised e => Raised e
  | Returned st =>
      if inarg st then Raised (FilterParseError not_closed_msg)
      else Returned (NameSet.add (name_set st) (slice_from name_filter (pos_current st)))
  end.

(** *** What the filter grammar says, without the loop *)

(** The change of nesting depth across one character. *)
Definition delta (c : ascii) : Z :=
  if decide (c = "("%char) then 1 else if decide (c = ")"%char) then -1 else 0.

(** Opened minus closed parentheses. *)
Fixpoint depth (s : string) : Z :=
  match s with
  | "" => 0
  | String c s' => delta c + depth s'
  end.

(** No prefix closes a parenthesis that is not open, or opens one inside
    another. *)
Definition well_nested (s : string) : Prop :=
  ∀ pre post, s = pre +:+ post → (0 ≤ depth pre ≤ 1)%Z.

Definition well_formed (s : string) : Prop := well_nested s ∧ depth s = 0%Z.

(** [seg] put in front of the first entry. *)
Definition prepend (seg : string) (es : list string) : list string :=
  match es with
  | e :: es' => (seg +:+ e) :: es'
  | [] => [seg]
  end.

(** The entries of a filter string: it is cut at the commas that are at
    depth 0, and nowhere else. [d] is the depth at the start of [s]. *)
Fixpoint split_entries (d : Z) (s : string) : list string :=
  match s with
  | "" => [""]
  | String c s' =>
      if decide (c = ","%char ∧ d = 0%Z) then "" :: split_entries d s'
      else prepend (String c "") (split_entries (d + delta c) s')
  end.

(** The depth that the flag [inarg] stands for. *)
Definition flag (b : bool) : Z := if b then 1 else 0.

(** The commas of [s] that are at depth 0. *)
Fixpoint outside_commas (d : Z) (s : string) : nat :=
  match s with
  | "" => 0
  | String c s' =>
      (if decide (c = ","%char ∧ d = 0%Z) then 1 else 0)
      + outside_commas (d + delta c) s'
  end.

(** The first character, with its position, that takes the depth out of
    [0..1]; [pos] is the position of the first character of [s]. *)
Fixpoint first_error (d : Z) (pos : nat) (s : string) : option (nat * ascii) :=
  match s with
  | "" => None
  | String c s' =>
      if decide (0 ≤ d + delta c ≤ 1)%Z then first_error (d + delta c) (S pos) s'
      else Some (pos, c)
  end.

Fixpoint all_space (s : string) : bool :=
  match s with
  | "" => true
  | String c s' => isspace c && all_space s'
  end.

(** Neither the first nor the last character is white space. *)
Definition trimmed (s : string) : Prop :=
  (∀ c t, s = String c t → isspace c = false) ∧
  (∀ t c, s = t +:+ String c "" → isspace c = false).

(** *** What the message of an unexpected character says *)

(** The value of a decimal digit. *)
Definition digit_value (c : ascii) : option N :=
  let n := N_of_ascii c in
  if ((48 <=? n) && (n <=? 57))%N then Some (n - 48)%N else None.

(** The number that a string of decimal digits stands for, after the digits
    that gave [acc]. *)
Fixpoint digits_value (acc : N) (s : string) : option N :=
  match s with
  | "" => Some acc
  | String c s' => d ← digit_value c; digits_value (10 * acc + d) s'
  end.

(** The number that a decimal numeral stands for: one digit, or several of
    which the first is not [0]. *)
Definition numeral_value (s : string) : option N :=
  match s with
  | "" => None
  | String c "" => digit_value c
  | String c _ => if decide (c = "0"%char) then None else digits_value 0 s
  end.

(** ** Python containers *)

Module PyDict.
Section dict.
Context {K V : Type} `{EqDecision K}.

(** A [dict]: the items in insertion order. *)
Definition t := list (K * V).

(** [d.get(k)]; [d[k]] raises [KeyError] where this is [None]. *)
Fixpoint get (d : list (K * V)) (k : K) : option V :=
  match d with
  | [] => None
  | (k', v) :: d' => if decide (k' = k) then Some v else get d' k
  end.

(** [d[k] = v]: an existing key keeps its place, a new one goes last. *)
Fixpoint setitem (d : list (K * V)) (k : K) (v : V) : list (K * V) :=
  match d with
  | [] => [(k, v)]
  | (k', v') :: d' =>
      if decide (k' = k) then (k', v) :: d' else (k', v') :: setitem d' k v
  end.

(** [d.setdefault(k, default)]: the value bound to [k] afterwards, and the
    dict afterwards. *)
Definition setdefault (d : list (K * V)) (k : K) (default : V)
    : V * list (K * V) :=
  match get d k with
  | Some v => (v, d)
  | None => (default, d ++ [(k, default)])
  end.

(** [list(d)]: the keys, in order. *)
Definition keys (d : list (K * V)) : list K := d.*1.
End dict.
End PyDict.

(** [sorted(l, key=key)] for keys compared by [R]: a stable sort. *)
Section sorted.
Context {A K : Type} (R : relation K) `{!RelDecision R} (key : A → K).

Fixpoint sorted_insert (x : A) (l : list A) : list A :=
  match l with
  | [] => [x]
  | y :: l' =>
      if decide (R (key x) (key y)) then x :: y :: l'
      else y :: sorted_insert x l'
  end.

Definition sorted_by (l : list A) : list A := foldr sorted_insert [] l.
End sorted.

(** [sorted(s)] for a set of strings. *)
Definition sorted_names (s : gset string) : list string :=
  sorted_by String.le id (elements s).

#[global] Instance result_ret : MRet result := λ A a, Returned a.
#[global] Instance result_fmap : FMap result := λ A B f r,
  match r with Returned a => Returned (f a) | Raised e => Raised e end.
#[global] Instance result_bind : MBind result := λ A B f r,
  match r with Returned a => f a | Raised e => Raised e end.

(** [l.index(x)] *)
Fixpoint index {A} `{EqDecision A} (l : list A) (x : A) : result nat :=
  match l with
  | [] => Raised (ValueError "x is not in list")
  | y :: l' => if decide (y = x) then Returned 0 else S <$> index l' x
  end.

Fixpoint result_mapM {A B} (f : A → result B) (l : list A) : result (list B) :=
  match l with
  | [] => Returned []
  | x :: l' => y ← f x; ys ← result_mapM f l'; mret (y :: ys)
  end.

(** ** Miners, writers and what [run] does to them *)

(** References to the miner and writer objects. *)
Inductive miner := Miner (oid : nat).
Inductive writer := Writer (oid : nat).

#[global] Instance miner_eq_dec : EqDecision miner.
Proof. solve_decision. Defined.
#[global] Instance writer_eq_dec : EqDecision writer.
Proof. solve_decision. Defined.

(** What [run] prints and what it calls, in order. A call is recorded with
    its outcome. *)
Inductive event (Data : Type) :=
  | CallContnameIter (m : miner) (names : list string)
      (* for source_name in miner.contname_iter() *)
  | PrintMiner (type_name : string)
      (* print(u'Miner {}:'.format(type(miner).__name__)) *)
  | PrintProcessing (modified_name : string)
      (* print(u'  processing {}'.format(modified_name)) *)
  | CallGetData (m : miner) (source_name : string) (r : result Data)
      (* miner.get_data(source_name) *)
  | PrintFetchFailed (etype emsg : string)
      (* print(u'    failed to fetch data - {}: {}'.format(...)) *)
  | CallWrite (w : writer) (modified_name : string) (d : Data) (r : result unit)
      (* writer.write(modified_name, container_data) *)
  | PrintWriteFailed (wtype etype emsg : string)
      (* print(u'    failed to write data with {} - {}: {}'.format(...)) *)
  | PrintMissingHeader
      (* print('Containers which were requested, but are not available:') *)
  | PrintMissing (modified_name : string).
      (* print(u'  {}'.format(modified_name)) *)
Arguments CallContnameIter {Data}.
Arguments PrintMiner {Data}.
Arguments PrintProcessing {Data}.
Arguments CallGetData {Data}.
Arguments PrintFetchFailed {Data}.
Arguments CallWrite {Data}.
Arguments PrintWriteFailed {Data}.
Arguments PrintMissingHeader {Data}.
Arguments PrintMissing {Data}.

(** The miner and writer objects behind the references. What a call answers
    may depend on everything that happened before it (the second argument of
    [contname_iter], the last one of [get_data] and [write]): the objects are
    stateful and so is what they read. [contname_iter] answers with the
    finite sequence of names that its generator yields. *)
Class Collaborators (Data : Type) := {
  miner_type_name : miner → string;     (* type(miner).__name__ *)
  writer_type_name : writer → string;   (* type(writer).__name__ *)
  contname_iter : miner → list (event Data) → list string;
  get_data : miner → string → list (event Data) → result Data;
  write : writer → string → Data → list (event Data) → result unit
}.

(** ** FlowManager *)

(** {miner: {modified name: source name}} *)
Abbreviation namespace := (list (miner * list (string * string))).

(** The object: its three attributes. *)
Record FlowManager := {
  _miners : list miner;
  _writers : list writer;
  __name_source_map : option namespace
}.

(** FlowManager.__init__ *)
Definition __init__ (miners : list miner) (writers : list writer) : FlowManager :=
  {| _miners := miners; _writers := writers; __name_source_map := None |}.

(** A method body: from the object and the events so far to the events it
    adds, the object afterwards and its result. The object afterwards is
    there also when the body raises: an assignment to an attribute stays. *)
Definition io (Data A : Type) : Type :=
  FlowManager → list (event Data) → list (event Data) * FlowManager * result A.

#[global] Instance io_ret {Data} : MRet (io Data) :=
  λ A a self _, ([], self, Returned a).
#[global] Instance io_bind {Data} : MBind (io Data) := λ A B f m self h,
  match m self h with
  | (t1, self1, Raised e) => (t1, self1, Raised e)
  | (t1, self1, Returned a) =>
      match f a self1 (h ++ t1) with (t2, self2, r) => (t1 ++ t2, self2, r) end
  end.

Definition emit {Data} (ev : event Data) : io Data unit :=
  λ self _, ([ev], self, Returned ()).
Definition raise {Data A} (e : exn) : io Data A := λ self _, ([], self, Raised e).
Definition lift {Data A} (r : result A) : io Data A := λ self _, ([], self, r).
(** [self.attr] *)
Definition read {Data A} (attr : FlowManager → A) : io Data A :=
  λ self _, ([], self, Returned (attr self)).
(** [self.__name_source_map = nsm] *)
Definition set_name_source_map {Data} (nsm : namespace) : io Data unit :=
  λ self _, ([], {| _miners := _miners self; _writers := _writers self;
                    __name_source_map := Some nsm |}, Returned ()).

Section flow.
Context {Data : Type} `{!Collaborators Data}.

(** *** _name_source_map *)

(** name_miner_map.setdefault(source_name, []).append(miner): the list
    that [setdefault] hands out is the one stored in the dict, so the
    [append] shows there. *)
Definition add_producer (name_miner_map : list (string * list miner))
    (source_name : string) (m : miner) : list (string * list miner) :=
  let '(miners, name_miner_map) :=
    PyDict.setdefault name_miner_map source_name [] in
  PyDict.setitem name_miner_map source_name (miners ++ [m]).

(** The first loop: {container name: [miners]}, from the miners paired
    with the names their [contname_iter] yielded. *)
Definition name_miner_map (enumerated : list (miner * list string))
    : list (string * list miner) :=
  foldl (λ d '(m, names), foldl (λ d source_name, add_producer d source_name m) d names)
    [] enumerated.

(** u'{}_{}'.format(source_name, type(miner).__name__) *)
Definition modified (source_name : string) (m : miner) : string :=
  source_name +:+ "_" +:+ miner_type_name m.

(** miner_containers = nsm.setdefault(miner, {});
    miner_containers[modified_name] = source_name *)
Definition register (nsm : namespace) (m : miner)
    (modified_name source_name : string) : namespace :=
  let '(miner_containers, nsm) := PyDict.setdefault nsm m [] in
  PyDict.setitem nsm m (PyDict.setitem miner_containers modified_name source_name).

(** The body of [for source_name, miners in name_miner_map.items()]. *)
Definition resolve_item (nsm : namespace) (item : string * list miner)
    : result namespace :=
  let '(source_name, miners) := item in
  if decide (1 < length miners) then
    Returned (foldl (λ nsm m, register nsm m (modified source_name m) source_name)
                nsm miners)
  else
    match miners with
    | [] => Raised IndexError      (* miners[0] *)
    | m :: _ => Returned (register nsm m source_name source_name)
    end.

Fixpoint resolve_loop (items : list (string * list miner)) (nsm : namespace)
    : result namespace :=
  match items with
  | [] => Returned nsm
  | item :: items' => nsm' ← resolve_item nsm item; resolve_loop items' nsm'
  end.

(** What the property computes when nothing is cached. *)
Definition resolve (enumerated : list (miner * list string)) : result namespace :=
  resolve_loop (name_miner_map enumerated) [].

(** *** What the resolver is about, without the loops *)

(** The (miner, name) pairs in the order in which the first loop meets
    them. *)
Definition yields (enumerated : list (miner * list string)) : list (miner * string) :=
  mjoin ((λ '(m, names), pair m <$> names) <$> enumerated).

(** The producers of a native name: one entry each time a miner yields it. *)
Definition producers (enumerated : list (miner * list string)) (x : string)
    : list miner :=
  (filter (λ y, y.2 = x) (yields enumerated)).*1.

(** The native name that the namespace gives for a public name of a miner:
    [nsm[m][p]], where both lookups succeed. *)
Definition lookup2 (nsm : namespace) (m : miner) (p : string) : option string :=
  b ← PyDict.get nsm m; PyDict.get b p.

(** [p] is a public name in the bucket of [m]. *)
Definition public_name (nsm : namespace) (m : miner) (p : string) : Prop :=
  is_Some (lookup2 nsm m p).

(** The assignments [nsm[m][modified_name] = source_name] that the body of
    the second loop makes for one item, as (miner, modified name, source
    name), in order. *)
Definition registrations_of (item : string * list miner)
    : list (miner * string * string) :=
  let '(source_name, miners) := item in
  if decide (1 < length miners) then
    (λ m, (m, modified source_name m, source_name)) <$> miners
  else
    match miners with
    | [] => []
    | m :: _ => [(m, source_name, source_name)]
    end.

(** One assignment, and the last native name that a list of assignments
    gives to the public name [p] of [m], if any, else [acc]. *)
Definition assign (nsm : namespace) (r : miner * string * string) : namespace :=
  register nsm r.1.1 r.1.2 r.2.

Definition last_assigned (m : miner) (p : string)
    (log : list (miner * string * string)) (acc : option string) : option string :=
  foldl (λ acc r, if decide (r.1.1 = m ∧ r.1.2 = p) then Some r.2 else acc) acc log.

(** Every miner has one bucket, and a bucket binds a public name once. *)
Definition wf_namespace (nsm : namespace) : Prop :=
  NoDup (PyDict.keys nsm) ∧
  ∀ m b, PyDict.get nsm m = Some b → NoDup (PyDict.keys b).

(** An assignment of the second loop, read off the producers: the identity
    for the one producer of a name, the modified name for each producer of
    a name with several. *)
Definition registered (enumerated : list (miner * list string))
    (m : miner) (p n : string) : Prop :=
  (producers enumerated n = [m] ∧ p = n) ∨
  (1 < length (producers enumerated n) ∧ m ∈ producers enumerated n ∧
   p = modified n m).

(** No modified name is itself a name that some miner yields. *)
Definition no_recollision (enumerated : list (miner * list string)) : Prop :=
  ∀ x m, 1 < length (producers enumerated x) → m ∈ producers enumerated x →
         producers enumerated (modified x m) = [].

Definition no_recollisionb (enumerated : list (miner * list string)) : bool :=
  forallb (λ y, negb (bool_decide (1 < length (producers enumerated y.2)))
                || bool_decide (producers enumerated (modified y.2 y.1) = []))
    (yields enumerated).

(** [miner.contname_iter()], consumed to the end, for each miner in turn. *)
Fixpoint enumerate (miners : list miner) : io Data (list (miner * list string)) :=
  match miners with
  | [] => mret []
  | m :: miners' =>
      names ← (λ self h, let names := contname_iter m h in
                         ([CallContnameIter m names], self, Returned names));
      rest ← enumerate miners';
      mret ((m, names) :: rest)
  end.

(** The property FlowManager._name_source_map. The dict is built before it
    is stored: nothing in between can raise. *)
Definition _name_source_map : io Data namespace :=
  cached ← read __name_source_map;
  match cached with
  | None =>
      miners ← read _miners;
      enumerated ← enumerate miners;
      nsm ← lift (resolve enumerated);
      set_name_source_map nsm;;
      mret nsm
  | Some nsm => mret nsm
  end.

(** *** run *)

(** The two [except] clauses, tried in order, and no clause for the rest
    of [BaseException]; [report] is the [print] of the second clause. *)
Definition except (e : exn) (report : event Data) : io Data unit :=
  match kind e with
  | KeyboardInterruptKind => raise e        (* except KeyboardInterrupt: raise *)
  | ExceptionKind => emit report            (* except Exception as e: print(...) *)
  | BaseExceptionKind => raise e            (* no clause matches *)
  end.

(** for writer in self._writers *)
Fixpoint writers_loop (writers : list writer) (modified_name : string)
    (container_data : Data) : io Data unit :=
  match writers with
  | [] => mret ()
  | w :: writers' =>
      r ← (λ self h, let r := write w modified_name container_data h in
                     ([CallWrite w modified_name container_data r], self, Returned r));
      match r with
      | Returned _ => mret ()
      | Raised e =>
          except e (PrintWriteFailed (writer_type_name w) (exn_type e) (exn_msg e))
      end;;
      writers_loop writers' modified_name container_data
  end.

(** for modified_name in sorted(miner_containers) *)
Fixpoint names_loop (m : miner) (miner_names_map : list (string * string))
    (names : list string) (processed_set : gset string) : io Data (gset string) :=
  match names with
  | [] => mret processed_set
  | modified_name :: names' =>
      emit (PrintProcessing modified_name);;
      let processed_set := {[ modified_name ]} ∪ processed_set in
      source_name ← lift (match PyDict.get miner_names_map modified_name with
                          | Some n => Returned n
                          | None => Raised (KeyError modified_name)
                          end);
      r ← (λ self h, let r := get_data m source_name h in
                     ([CallGetData m source_name r], self, Returned r));
      match r with
      | Raised e => except e (PrintFetchFailed (exn_type e) (exn_msg e))
      | Returned container_data =>
          writers ← read _writers;
          writers_loop writers modified_name container_data
      end;;
      names_loop m miner_names_map names' processed_set
  end.

(** miner_containers = set(miner_names_map), and
    miner_containers.intersection_update(filter_set) if filter_set. *)
Definition containers (miner_names_map : list (string * string))
    (filter_set : gset string) : gset string :=
  let miner_containers : gset string := list_to_set (PyDict.keys miner_names_map) in
  if decide (filter_set = ∅) then miner_containers
  else miner_containers ∩ filter_set.

(** for miner in sorted(self._name_source_map, key=self._miners.index),
    from the sorted list on. *)
Fixpoint miners_loop (order : list miner) (filter_set processed_set : gset string)
    : io Data (gset string) :=
  match order with
  | [] => mret processed_set
  | m :: order' =>
      nsm ← _name_source_map;
      miner_names_map ← lift (match PyDict.get nsm m with
                              | Some b => Returned b
                              | None => Raised (KeyError "miner")
                              end);
      let miner_containers := containers miner_names_map filter_set in
      if decide (miner_containers = ∅) then
        miners_loop order' filter_set processed_set         (* continue *)
      else
        emit (PrintMiner (miner_type_name m));;
        processed_set ← names_loop m miner_names_map
                          (sorted_names miner_containers) processed_set;
        miners_loop order' filter_set processed_set
  end.

(** sorted(self._name_source_map, key=self._miners.index): every key is
    looked up in the list first. *)
Definition sorted_miners (miners : list miner) (nsm : namespace)
    : result (list miner) :=
  decorated ← result_mapM (λ m, i ← index miners m; mret (i, m)) (PyDict.keys nsm);
  mret ((sorted_by le fst decorated).*2).

(** The report after the loop. *)
Definition report_missing (filter_set processed_set : gset string) : io Data unit :=
  if decide (filter_set = ∅) then mret ()
  else
    let missing_set := filter_set ∖ processed_set in
    if decide (missing_set = ∅) then mret ()
    else
      emit PrintMissingHeader;;
      foldr (λ modified_name k, emit (PrintMissing modified_name);; k) (mret ())
        (sorted_names missing_set).

(** FlowManager.run *)
Definition run (filter_string : string) : io Data unit :=
  let processed_set : gset string := ∅ in
  parsed ← lift (_parse_filter filter_string);
  let filter_set : gset string := ∅ ∪ parsed in
  nsm ← _name_source_map;
  miners ← read _miners;
  order ← lift (sorted_miners miners nsm);
  processed_set ← miners_loop order filter_set processed_set;
  report_missing filter_set processed_set.

(** *** What a run looks like, without the loops *)

(** The exception that an event shows a collaborator raising. *)
Definition raised_by (ev : event Data) : option exn :=
  match ev with
  | CallGetData _ _ (Raised e) => Some e
  | CallWrite _ _ _ (Raised e) => Some e
  | _ => None
  end.

(** How a body ends: it returns [a], or the exception [e] leaves it. *)
Definition finish {A} (ab : option exn) (a : A) : result A :=
  match ab with
  | None => Returned a
  | Some e => Raised e
  end.

(** A sequence of blocks, one for each element of a list in turn; an
    exception that leaves a block ends the sequence there. *)
Inductive blocks {A} (B : A → list (event Data) → option exn → Prop)
    : list A → list (event Data) → option exn → Prop :=
  | blocks_nil : blocks B [] [] None
  | blocks_cons x xs t1 t2 ab :
      B x t1 None → blocks B xs t2 ab → blocks B (x :: xs) (t1 ++ t2) ab
  | blocks_abort x xs t1 e :
      B x t1 (Some e) → blocks B (x :: xs) t1 (Some e).

(** One writer is handed [(p, d)]: it accepts, or fails and the failure is
    printed, or raises something that is not an [Exception]. *)
Inductive write_block (p : string) (d : Data) (w : writer)
    : list (event Data) → option exn → Prop :=
  | write_ok :
      write_block p d w [CallWrite w p d (Returned ())] None
  | write_failed e :
      kind e = ExceptionKind →
      write_block p d w
        [CallWrite w p d (Raised e);
         PrintWriteFailed (writer_type_name w) (exn_type e) (exn_msg e)] None
  | write_abort e :
      kind e ≠ ExceptionKind →
      write_block p d w [CallWrite w p d (Raised e)] (Some e).

(** One public name [p] of the miner [m]: the fetch of its native name
    fails and the failure is printed, or raises something that is not an
    [Exception], or returns data that every writer is handed in turn. *)
Inductive name_block (writers : list writer) (m : miner)
    (bucket : list (string * string)) (p : string)
    : list (event Data) → option exn → Prop :=
  | fetch_failed src e :
      PyDict.get bucket p = Some src → kind e = ExceptionKind →
      name_block writers m bucket p
        [PrintProcessing p; CallGetData m src (Raised e);
         PrintFetchFailed (exn_type e) (exn_msg e)] None
  | fetch_abort src e :
      PyDict.get bucket p = Some src → kind e ≠ ExceptionKind →
      name_block writers m bucket p
        [PrintProcessing p; CallGetData m src (Raised e)] (Some e)
  | fetch_ok src d t ab :
      PyDict.get bucket p = Some src →
      blocks (write_block p d) writers t ab →
      name_block writers m bucket p
        (PrintProcessing p :: CallGetData m src (Returned d) :: t) ab.

(** One miner: nothing at all when no name of its bucket is selected, else
    its header and its selected names in sorted order. *)
Inductive miner_block (writers : list writer) (nsm : namespace)
    (filter_set : gset string) (m : miner)
    : list (event Data) → option exn → Prop :=
  | miner_skipped bucket :
      PyDict.get nsm m = Some bucket →
      containers bucket filter_set = ∅ →
      miner_block writers nsm filter_set m [] None
  | miner_visited bucket t ab :
      PyDict.get nsm m = Some bucket →
      containers bucket filter_set ≠ ∅ →
      blocks (name_block writers m bucket)
             (sorted_names (containers bucket filter_set)) t ab →
      miner_block writers nsm filter_set m (PrintMiner (miner_type_name m) :: t) ab.

(** The names that the loop over [order] selects. *)
Definition selected (nsm : namespace) (filter_set : gset string)
    (order : list miner) : gset string :=
  ⋃ ((λ m, containers (default [] (PyDict.get nsm m)) filter_set) <$> order).

(** What [report_missing] prints. *)
Definition report (filter_set processed_set : gset string) : list (event Data) :=
  if decide (filter_set = ∅) then []
  else if decide (filter_set ∖ processed_set = ∅) then []
       else PrintMissingHeader
            :: (PrintMissing <$> sorted_names (filter_set ∖ processed_set)).

(** The header and progress lines of a trace. *)
Definition progress_of (ev : event Data) : list (event Data) :=
  match ev with
  | PrintMiner _ | PrintProcessing _ => [ev]
  | _ => []
  end.

Definition progress (t : list (event Data)) : list (event Data) :=
  t ≫= progress_of.

(** The public names of the progress lines of a trace, in order. *)
Definition processed_names (t : list (event Data)) : list string :=
  t ≫= λ ev, match ev with PrintProcessing p => [p] | _ => [] end.

(** The header and progress lines of a run over [order] in which no
    exception leaves the loop. *)
Definition plan (nsm : namespace) (filter_set : gset string) (order : list miner)
    : list (event Data) :=
  order ≫= λ m,
    let names := sorted_names (containers (default [] (PyDict.get nsm m)) filter_set) in
    match names with
    | [] => []
    | _ => PrintMiner (miner_type_name m) :: (PrintProcessing <$> names)
    end.

(** The fetches of a trace: which miner was asked for which native name. *)
Definition fetch_of (ev : event Data) : list (miner * string) :=
  match ev with CallGetData m src _ => [(m, src)] | _ => [] end.

Definition fetches (t : list (event Data)) : list (miner * string) :=
  t ≫= fetch_of.

(** The fetches of a run over [order] in which no exception leaves the
    loop. *)
Definition planned_fetches (nsm : namespace) (filter_set : gset string)
    (order : list miner) : list (miner * string) :=
  order ≫= λ m,
    let bucket := default [] (PyDict.get nsm m) in
    (λ p, (m, default "" (PyDict.get bucket p)))
      <$> sorted_names (containers bucket filter_set).

(** What the writers were handed, in order. *)
Definition delivery_of (ev : event Data) : list (writer * string * Data) :=
  match ev with CallWrite w p d _ => [(w, p, d)] | _ => [] end.

Definition deliveries (t : list (event Data)) : list (writer * string * Data) :=
  t ≫= delivery_of.

(** The data that the fetches of a trace returned, each with the public
    name that was being processed; [cur] is the name being processed when
    the trace starts. *)
Fixpoint fetched_from (cur : string) (t : list (event Data)) : list (string * Data) :=
  match t with
  | [] => []
  | PrintProcessing p :: t' => fetched_from p t'
  | CallGetData _ _ (Returned d) :: t' => (cur, d) :: fetched_from cur t'
  | _ :: t' => fetched_from cur t'
  end.

Definition fetched (t : list (event Data)) : list (string * Data) :=
  fetched_from "" t.

(** The name being processed at the end of [t]. *)
Definition current_name (cur : string) (t : list (event Data)) : string :=
  foldl (λ cur ev, match ev with PrintProcessing p => p | _ => cur end) cur t.

(** Each pair of a public name and the data fetched for it is handed to
    every writer in turn. *)
Definition delivered_all (ws : list writer) (t : list (event Data)) : Prop :=
  ∀ cur, deliveries t
         = fetched_from cur t ≫= λ pd, (λ w, (w, pd.1, pd.2)) <$> ws.

(** The line that reports the failure of a call. *)
Definition failure_report (ev : event Data) : option (event Data) :=
  match ev with
  | CallGetData _ _ (Raised e) => Some (PrintFetchFailed (exn_type e) (exn_msg e))
  | CallWrite w _ _ (Raised e) =>
      Some (PrintWriteFailed (writer_type_name w) (exn_type e) (exn_msg e))
  | _ => None
  end.

(** Every exception that the trace shows is an [Exception]. *)
Definition clean (t : list (event Data)) : Prop :=
  ∀ ev e, ev ∈ t → raised_by ev = Some e → kind e = ExceptionKind.

(** How a trace ends for the body that made it: with nothing but
    [Exception]s in it when the body returns, and else with the call that
    raised what leaves the body, and nothing but [Exception]s before. *)
Definition ends (t : list (event Data)) (ab : option exn) : Prop :=
  match ab with
  | None => clean t
  | Some e =>
      ∃ t' ev, t = t' ++ [ev] ∧ clean t' ∧ raised_by ev = Some e ∧
               kind e ≠ ExceptionKind
  end.

(** Every [Exception] that the trace shows is followed by the line that
    reports it. *)
Definition reported (t : list (event Data)) : Prop :=
  ∀ t1 ev t2 e, t = t1 ++ ev :: t2 → raised_by ev = Some e →
    kind e = ExceptionKind →
    ∃ rep t3, failure_report ev = Some rep ∧ t2 = rep :: t3.

(** Events that are neither calls of [get_data] or [write] nor header or
    progress lines, and the events of the loop, which are. *)
Definition quiet_event (ev : event Data) : Prop :=
  match ev with
  | CallContnameIter _ _ | PrintMissingHeader | PrintMissing _ => True
  | _ => False
  end.

Definition loop_event (ev : event Data) : Prop :=
  match ev with
  | CallContnameIter _ _ | PrintMissingHeader | PrintMissing _ => False
  | _ => True
  end.

Definition enumeration_event (ev : event Data) : Prop :=
  match ev with
  | CallContnameIter _ _ => True
  | _ => False
  end.

(** The miners whose [contname_iter] the trace shows being called. *)
Definition enumerations (t : list (event Data)) : list miner :=
  t ≫= λ ev, match ev with CallContnameIter m _ => [m] | _ => [] end.



(** The cache, when there is one, has one bucket for each of some of the
    registered miners. *)
Definition cache_ok (self : FlowManager) : Prop :=
  ∀ nsm, __name_source_map self = Some nsm →
         NoDup (PyDict.keys nsm) ∧ PyDict.keys nsm ⊆ _miners self.

(** The key that [sorted] sees for a registered miner. *)
Definition position (miners : list miner) (m : miner) : nat :=
  match index miners m with Returned i => i | Raised _ => 0 end.

(** [a] is registered no later than [b]. *)
Definition registered_before (miners : list miner) (a b : miner) : Prop :=
  ∃ i j, index miners a = Returned i ∧ index miners b = Returned j ∧ i ≤ j.

End flow.

(** ** Sample collaborators *)

(** Miners with the given class names and container names, whose data is
    the container name; writers that accept everything. *)
Definition sample (type_name : miner → string) (names : miner → list string)
    : Collaborators string :=
  {| miner_type_name := type_name;
     writer_type_name := λ _, "Writer";
     contname_iter := λ m _, names m;
     get_data := λ _ source_name _, Returned source_name;
     write := λ _ _ _ _, Returned () |}.

(** Two miners: [MinerA] with [items] and [blueprints], [MinerB] with
    [items] and [types]. *)
Definition items_miners : list (miner * list string) :=
  [(Miner 0, ["items"; "blueprints"]); (Miner 1, ["items"; "types"])].

Definition items_sample : Collaborators string :=
  sample (λ m, match m with Miner 0 => "MinerA" | _ => "MinerB" end)
         (λ m, match m with Miner 0 => ["items"; "blueprints"] | _ => ["items"; "types"] end).

(** The miners of [items_sample], with a fetch of [types] that fails and a
    first writer that always fails. *)
Definition faulty_sample : Collaborators string :=
  {| miner_type_name := λ m, match m with Miner 0 => "MinerA" | _ => "MinerB" end;
     writer_type_name := λ _, "Writer";
     contname_iter := λ m _, match m with
                             | Miner 0 => ["items"; "blueprints"]
                             | _ => ["items"; "types"]
                             end;
     get_data := λ _ source_name _,
       if decide (source_name = "types")
       then Raised (Exn ExceptionKind "IOError" "boom")
       else Returned source_name;
     write := λ w _ _ _,
       match w with
       | Writer 0 => Raised (Exn ExceptionKind "OSError" "disk")
       | _ => Returned ()
       end |}.

(** The miners of [items_sample], with a writer that is interrupted when it
    is handed [items_MinerA]. *)
Definition interrupted_sample : Collaborators string :=
  {| miner_type_name := λ m, match m with Miner 0 => "MinerA" | _ => "MinerB" end;
     writer_type_name := λ _, "Writer";
     contname_iter := λ m _, match m with
                             | Miner 0 => ["items"; "blueprints"]
                             | _ => ["items"; "types"]
                             end;
     get_data := λ _ source_name _, Returned source_name;
     write := λ _ modified_name _ _,
       if decide (modified_name = "items_MinerA") then Raised KeyboardInterrupt
       else Returned () |}.

(** The miners of [items_sample], with a fetch of [blueprints] that raises
    an object of a class that derives from [BaseException] alone. *)
Definition escaping_sample : Collaborators string :=
  {| miner_type_name := λ m, match m with Miner 0 => "MinerA" | _ => "MinerB" end;
     writer_type_name := λ _, "Writer";
     contname_iter := λ m _, match m with
                             | Miner 0 => ["items"; "blueprints"]
                             | _ => ["items"; "types"]
                             end;
     get_data := λ _ source_name _,
       if decide (source_name = "blueprints")
       then Raised (FilterParseError "boom")
       else Returned source_name;
     write := λ _ _ _ _, Returned () |}.

(** * Properties *)

(** ** Strings *)

Section strings.
Implicit Types s t : string.

Lemma sapp_nil_r s : s +:+ "" = s.
Proof. induction s as [|c s IH]; simpl; [done | by rewrite IH]. Qed.

Lemma sapp_assoc s t u : (s +:+ t) +:+ u = s +:+ (t +:+ u).
Proof. induction s as [|c s IH]; simpl; [done | by rewrite IH]. Qed.

Lemma sapp_cons c s t : String c s +:+ t = String c (s +:+ t).
Proof. done. Qed.

Lemma sapp_snoc s c t : (s +:+ String c "") +:+ t = s +:+ String c t.
Proof. by rewrite sapp_assoc. Qed.

Lemma slength_app s t : String.length (s +:+ t) = String.length s + String.length t.
Proof. induction s as [|c s IH]; simpl; [done | by rewrite IH]. Qed.

Lemma sapp_nil_inv s t : s +:+ t = "" → s = "" ∧ t = "".
Proof. by destruct s. Qed.

Lemma sapp_inj_r s1 s2 t : s1 +:+ t = s2 +:+ t → s1 = s2.
Proof.
  revert s2. induction s1 as [|c s1 IH]; intros [|c2 s2] H; simpl in *.
  - done.
  - exfalso. apply (f_equal String.length) in H. simpl in H.
    rewrite slength_app in H. lia.
  - exfalso. apply (f_equal String.length) in H. simpl in H.
    rewrite slength_app in H. lia.
  - injection H as -> H. by rewrite (IH _ H).
Qed.

(** Two ways to cut one string: one cut is a prefix of the other. *)
Lemma sapp_eq_app s1 t1 s2 t2 :
  s1 +:+ t1 = s2 +:+ t2 →
  (∃ u, s2 = s1 +:+ u ∧ t1 = u +:+ t2) ∨ (∃ u, s1 = s2 +:+ u ∧ t2 = u +:+ t1).
Proof.
  revert s2. induction s1 as [|c s1 IH]; intros s2 H; simpl in *.
  - left. by exists s2.
  - destruct s2 as [|c2 s2]; simpl in *.
    + right. by exists (String c s1).
    + injection H as -> H. destruct (IH _ H) as [(u & -> & ->)|(u & -> & ->)].
      * left. by exists u.
      * right. by exists u.
Qed.

Lemma substring_skip s t n :
  String.substring (String.length s) n (s +:+ t) = String.substring 0 n t.
Proof. induction s as [|c s IH]; simpl; [done | apply IH]. Qed.

Lemma substring_take s t :
  String.substring 0 (String.length s) (s +:+ t) = s.
Proof. induction s as [|c s IH]; simpl; [by destruct t | by rewrite IH]. Qed.

(** [(a + seg + rest)[len(a):len(a)+len(seg)]] is [seg]. *)
Lemma slice_mid a seg rest :
  slice (a +:+ seg +:+ rest) (String.length a)
        (String.length a + String.length seg) = seg.
Proof.
  unfold slice. rewrite substring_skip.
  replace (String.length a + String.length seg - String.length a)
    with (String.length seg) by lia.
  apply substring_take.
Qed.

(** [(a + seg)[len(a):]] is [seg]. *)
Lemma slice_from_app a seg : slice_from (a +:+ seg) (String.length a) = seg.
Proof.
  unfold slice_from. rewrite substring_skip, slength_app.
  replace (String.length a + String.length seg - String.length a)
    with (String.length seg) by lia.
  rewrite <-(sapp_nil_r seg) at 2. apply substring_take.
Qed.

(** *** strip *)

Lemma lstrip_spec s :
  ∃ l, s = l +:+ lstrip s ∧ all_space l = true ∧
       ∀ c t, lstrip s = String c t → isspace c = false.
Proof.
  induction s as [|c s (l & Hs & Hl & Hc)]; simpl.
  - by exists "".
  - destruct (isspace c) eqn:Ec.
    + exists (String c l). simpl. rewrite Ec, Hl. split_and!; [by f_equal | done | done].
    + exists "". split_and!; [done..|]. by intros ?? [= -> _].
Qed.

Lemma rstrip_spec s :
  ∃ r, s = rstrip s +:+ r ∧ all_space r = true ∧
       ∀ t c, rstrip s = t +:+ String c "" → isspace c = false.
Proof.
  induction s as [|c s (r & Hs & Hr & Hc)]; simpl.
  - exists "". split_and!; [done..|]. intros [|??] ?; done.
  - destruct (rstrip s) as [|c' s'] eqn:Es.
    + destruct (isspace c) eqn:Ec.
      * exists (String c r). simpl in *. rewrite Ec, Hr. by subst.
      * exists r. split_and!; [by rewrite Hs | done |].
        intros [|? [|??]] ? [=]; by subst.
    + exists r. split_and!; [by rewrite Hs | done |].
      intros [|c1 t] c2; simpl; intros [=]; subst. by eapply Hc.
Qed.

Lemma rstrip_head s c t :
  (∀ c' t', s = String c' t' → isspace c' = false) →
  rstrip s = String c t → isspace c = false.
Proof.
  destruct s as [|c0 s]; simpl; [done|]. intros H.
  destruct (rstrip s); [destruct (isspace c0) eqn:E|]; intros [=]; subst; eauto.
Qed.

(** [strip] removes white space at both ends and nothing else: what is
    removed is white space, and what is left neither starts nor ends with
    white space. *)
Lemma strip_spec s :
  ∃ l r, s = l +:+ strip s +:+ r ∧ all_space l = true ∧ all_space r = true ∧
         trimmed (strip s).
Proof.
  destruct (lstrip_spec s) as (l & Hs & Hl & Hc).
  destruct (rstrip_spec (lstrip s)) as (r & Hs' & Hr & Hc').
  exists l, r. unfold strip. split_and!; [by rewrite <-Hs' | done | done |].
  split; [|done]. intros c t. by apply rstrip_head.
Qed.

Lemma strip_empty : strip "" = "".
Proof. done. Qed.

End strings.

(** ** Decimal numerals *)

Section numerals.
Implicit Types s t d : string.

Lemma digit_value_char x : (x < 10)%N → digit_value (pretty_N_char x) = Some x.
Proof.
  intros H. destruct x as [|p]; [done|].
  do 4 (destruct p as [p|p|]; try done; try lia).
Qed.

Lemma digit_value_Some c x :
  digit_value c = Some x → (x < 10)%N ∧ pretty_N_char x = c.
Proof.
  destruct c as [[] [] [] [] [] [] [] []]; vm_compute; intros [= <-]; done.
Qed.

Lemma digits_value_snoc s : ∀ acc c,
  digits_value acc (s +:+ String c "")
  = x ← digits_value acc s; d ← digit_value c; Some (10 * x + d)%N.
Proof.
  induction s as [|c' s IH]; intros acc c; simpl.
  - by destruct (digit_value c).
  - destruct (digit_value c'); simpl; [apply IH | done].
Qed.

Lemma pretty_N_go_app x : ∀ t, pretty_N_go x t = pretty_N_go x "" +:+ t.
Proof.
  induction (N.lt_wf_0 x) as [x _ IH]. intros t.
  assert (x = 0 ∨ 0 < x)%N as [->|Hx] by lia; [by rewrite !pretty_N_go_0|].
  assert (Hlt : (x `div` 10 < x)%N) by (by apply N.div_lt).
  rewrite !(pretty_N_go_step x) by done.
  rewrite (IH _ Hlt (String _ t)), (IH _ Hlt (String _ "")).
  by rewrite sapp_snoc.
Qed.

Lemma pretty_N_go_snoc x :
  (0 < x)%N →
  pretty_N_go x ""
  = pretty_N_go (x `div` 10) "" +:+ String (pretty_N_char (x `mod` 10)) "".
Proof. intros Hx. by rewrite pretty_N_go_step, pretty_N_go_app. Qed.

(** The digits that [pretty] writes for a positive number stand for it,
    and the first is not [0]. *)
Lemma digits_value_pretty x :
  (0 < x)%N →
  digits_value 0 (pretty_N_go x "") = Some x ∧
  ∃ c t, pretty_N_go x "" = String c t ∧ c ≠ "0"%char.
Proof.
  induction (N.lt_wf_0 x) as [x _ IH]. intros Hx.
  rewrite pretty_N_go_snoc by done.
  assert (Hm : (x `mod` 10 < 10)%N) by (by apply N.mod_lt).
  destruct (N.eq_0_gt_0_cases (x `div` 10)) as [E|Hd].
  - rewrite E, pretty_N_go_0. simpl.
    apply N.div_small_iff in E; [|done]. rewrite N.mod_small by done.
    rewrite digit_value_char by done. simpl. split; [f_equal; lia|].
    eexists _, _. split; [done|]. intros Hc.
    assert (Hv : digit_value (pretty_N_char x) = Some 0%N) by (by rewrite Hc).
    rewrite digit_value_char in Hv by done. injection Hv as ->. lia.
  - destruct (IH (x `div` 10)%N) as (Hv & c & t & Ht & Hc); [by apply N.div_lt|done|].
    rewrite digits_value_snoc, Hv, digit_value_char by done. simpl. split.
    + f_equal. rewrite (N.div_mod x 10) at 3 by done. lia.
    + rewrite Ht. simpl. by eexists _, _.
Qed.

(** A string of digits that does not start with [0] is what [pretty]
    writes for the number it stands for. *)
Lemma digits_value_inv d : ∀ c t v,
  d = String c t → c ≠ "0"%char → digits_value 0 d = Some v →
  (0 < v)%N ∧ pretty_N_go v "" = d.
Proof.
  remember (String.length d) as k eqn:Hk. revert d Hk.
  induction k as [k IH] using lt_wf_ind. intros d Hk c t v Hd Hc Hv.
  assert (∃ s c', d = s +:+ String c' "") as (s & c' & Hs).
  { clear -Hd. subst d. revert c. induction t as [|c2 t IHt]; intros c.
    - by exists "", c.
    - destruct (IHt c2) as (s & c' & ->). by exists (String c s), c'. }
  rewrite Hs, digits_value_snoc in Hv.
  destruct (digits_value 0 s) as [x|] eqn:Hx; [|done]. simpl in Hv.
  destruct (digit_value c') as [dv|] eqn:Hdv; [|done]. injection Hv as <-.
  apply digit_value_Some in Hdv as [Hlt Hch].
  destruct s as [|c0 s0].
  - simpl in Hx, Hs. injection Hx as <-. rewrite Hd in Hs. injection Hs as -> ->.
    assert (dv ≠ 0)%N.
    { intros ->. by apply Hc. }
    split; [lia|]. rewrite pretty_N_go_snoc by lia.
    replace ((10 * 0 + dv) `div` 10)%N with 0%N
      by (symmetry; apply N.div_small; lia).
    rewrite pretty_N_go_0. simpl. rewrite N.mod_small by lia.
    replace (10 * 0 + dv)%N with dv by lia. by rewrite Hch, Hd.
  - assert (c0 = c) as ->.
    { rewrite Hd in Hs. simpl in Hs. by injection Hs as -> _. }
    destruct (IH (String.length (String c s0))) with (String c s0) c s0 x
      as [Hpos Hp]; [|done..|].
    { rewrite Hk, Hs, slength_app. simpl. lia. }
    split; [lia|]. rewrite pretty_N_go_snoc by lia.
    replace ((10 * x + dv) `div` 10)%N with x
      by (apply N.div_unique with dv; lia).
    replace ((10 * x + dv) `mod` 10)%N with dv
      by (apply N.mod_unique with x; lia).
    by rewrite Hp, Hch, Hs.
Qed.

(** The decimal numeral of a number is what [format] writes for it, and
    nothing else. *)
Lemma numeral_value_format d n :
  numeral_value d = Some (N.of_nat n) ↔ d = format_nat n.
Proof.
  unfold format_nat, pretty, pretty_nat, pretty, pretty_N.
  generalize (N.of_nat n). clear n. intros v. split.
  - destruct d as [|c [|c' t]]; simpl; [done| |].
    + intros Hc. pose proof Hc as [Hlt Hch]%digit_value_Some.
      case_decide as E; [by subst|].
      rewrite pretty_N_go_snoc by lia.
      rewrite N.div_small, N.mod_small, pretty_N_go_0 by done. simpl. by rewrite Hch.
    + case_decide as E; [done|]. intros Hv.
      destruct (digits_value_inv _ c (String c' t) v eq_refl E Hv) as [Hpos <-].
      by rewrite decide_False by lia.
  - intros ->. case_decide as E.
    + by subst.
    + destruct (digits_value_pretty v) as (Hv & c & t & Ht & Hc); [lia|].
      rewrite Ht in *. unfold numeral_value. destruct t as [|c' t].
      * simpl in Hv. by destruct (digit_value c).
      * by rewrite decide_False.
Qed.

End numerals.

(** ** The filter parser *)

Section parser.
Implicit Types s t : string.

Lemma split_entries_nonempty d s : split_entries d s ≠ [].
Proof.
  destruct s as [|c s]; simpl; [done|].
  case_decide; [done|]. by destruct (split_entries _ s).
Qed.

Lemma prepend_nil es : prepend "" es = es ∨ es = [].
Proof. destruct es; simpl; auto. Qed.

Lemma prepend_prepend a b es :
  es ≠ [] → prepend a (prepend b es) = prepend (a +:+ b) es.
Proof. destruct es; [done|]. intros _. simpl. by rewrite sapp_assoc. Qed.

Lemma depth_app s t : depth (s +:+ t) = (depth s + depth t)%Z.
Proof. induction s as [|c s IH]; simpl; [done | rewrite IH; lia]. Qed.

Lemma delta_other c :
  c ≠ "("%char → c ≠ ")"%char → delta c = 0%Z.
Proof. intros. unfold delta. by repeat case_decide. Qed.

Lemma is_special_true c :
  is_special c = true ↔ c = "("%char ∨ c = ")"%char ∨ c = ","%char.
Proof.
  unfold is_special. rewrite !orb_true_iff, !bool_decide_eq_true. tauto.
Qed.

(** The loop, started anywhere: [a] is the part of the string before
    [pos_current], [seg] the part of the current entry seen so far, [rest]
    what the loop has not looked at. *)
Lemma parse_loop_from rest : ∀ s a seg st,
  s = a +:+ seg +:+ rest →
  pos_current st = String.length a →
  match first_error (flag (inarg st)) (String.length a + String.length seg) rest with
  | Some (i, c) =>
      parse_loop s (finditer_from (String.length a + String.length seg) rest) st
      = Raised (FilterParseError (unexpected_msg c i))
  | None =>
      ∃ st',
        parse_loop s (finditer_from (String.length a + String.length seg) rest) st
        = Returned st' ∧
        flag (inarg st') = (flag (inarg st) + depth rest)%Z ∧
        NameSet.add (name_set st') (slice_from s (pos_current st'))
        = foldl NameSet.add (name_set st)
            (prepend seg (split_entries (flag (inarg st)) rest))
  end.
Proof.
  induction rest as [|c rest IH]; intros s a seg st Hs Hcur.
  - simpl. exists st. split_and!; [done | lia |].
    by rewrite Hs, Hcur, slice_from_app.
  - assert (Hs' : s = a +:+ (seg +:+ String c "") +:+ rest).
    { by rewrite Hs, sapp_snoc. }
    assert (Hlen : String.length a + String.length (seg +:+ String c "")
                   = S (String.length a + String.length seg)).
    { rewrite slength_app. simpl. lia. }
    pose proof (IH s a (seg +:+ String c "") st Hs' Hcur) as IHsame.
    rewrite Hlen in IHsame.
    destruct st as [b cur ns]. simpl in Hcur. subst cur.
    simpl first_error. simpl finditer_from. simpl split_entries. simpl depth.
    destruct (decide (c = ","%char)) as [->|Hcomma].
    + (* a comma *)
      change (delta ",") with 0%Z. rewrite Z.add_0_r.
      change (is_special ",") with true. simpl parse_loop.
      destruct b; simpl flag in *.
      * (* inside a parenthesis: nothing happens *)
        rewrite ?decide_True by lia.
        rewrite ?decide_False by (intros [_ ?]; lia).
        unfold parse_step; simpl.
        destruct (first_error 1 _ rest) as [[i c']|]; [done|].
        destruct IHsame as (st' & Hl & Hf & Hr). exists st'.
        split_and!; [done | lia |]. rewrite Hr.
        by rewrite prepend_prepend by apply split_entries_nonempty.
      * (* outside: the entry is complete *)
        rewrite decide_True by lia. rewrite decide_True by done.
        unfold parse_step. simpl.
        assert (Hs2 : s = (a +:+ seg +:+ ",") +:+ "" +:+ rest).
        { rewrite Hs. simpl. by rewrite !sapp_assoc. }
        pose proof (IH s (a +:+ seg +:+ ",") ""
          (ParseState false (S (String.length a + String.length seg))
             (NameSet.add ns (slice s (String.length a)
                                (String.length a + String.length seg)))) Hs2) as IH2.
        simpl in IH2. rewrite !slength_app in IH2. simpl in IH2.
        replace (String.length a + (String.length seg + 1) + 0)
          with (S (String.length a + String.length seg)) in IH2 by lia.
        specialize (IH2 ltac:(lia)).
        destruct (first_error 0 _ rest) as [[i c']|]; [done|].
        destruct IH2 as (st' & Hl & Hf & Hr). exists st'.
        split_and!; [done | simpl in *; lia |]. rewrite Hr. simpl.
        rewrite sapp_nil_r. rewrite Hs at 1. rewrite slice_mid.
        destruct (prepend_nil (split_entries 0 rest)) as [->|E]; [done|].
        by apply split_entries_nonempty in E.
    + rewrite (decide_False (P := c = ","%char ∧ _)) by (by intros [? _]).
      destruct (decide (c = "("%char)) as [->|Hopen].
      * (* an open parenthesis *)
        change (delta "(") with 1%Z. change (is_special "(") with true.
        simpl parse_loop. destruct b; simpl flag in *.
        -- by rewrite decide_False by lia.
        -- rewrite decide_True by lia. unfold parse_step. simpl.
           change (0 + 1)%Z with 1%Z.
           pose proof (IH s a (seg +:+ "(") (ParseState true (String.length a) ns)
                         Hs' eq_refl) as IH2.
           rewrite Hlen in IH2. simpl in IH2.
           destruct (first_error 1 _ rest) as [[i c']|]; [done|].
           destruct IH2 as (st' & Hl & Hf & Hr). exists st'.
           split_and!; [done | lia |]. rewrite Hr.
           by rewrite prepend_prepend by apply split_entries_nonempty.
      * destruct (decide (c = ")"%char)) as [->|Hclose].
        -- (* a close parenthesis *)
           change (delta ")") with (-1)%Z. change (is_special ")") with true.
           simpl parse_loop. destruct b; simpl flag in *.
           ++ rewrite decide_True by lia. unfold parse_step. simpl.
              change (1 + -1)%Z with 0%Z.
              pose proof (IH s a (seg +:+ ")") (ParseState false (String.length a) ns)
                            Hs' eq_refl) as IH2.
              rewrite Hlen in IH2. simpl in IH2.
              destruct (first_error 0 _ rest) as [[i c']|]; [done|].
              destruct IH2 as (st' & Hl & Hf & Hr). exists st'.
              split_and!; [done | lia |]. rewrite Hr.
              by rewrite prepend_prepend by apply split_entries_nonempty.
           ++ by rewrite decide_False by lia.
        -- (* any other character *)
           rewrite (delta_other c) by done. rewrite Z.add_0_r.
           assert (is_special c = false) as ->.
           { apply not_true_is_false. rewrite is_special_true. tauto. }
           rewrite decide_True by (destruct b; simpl; lia).
           simpl in IHsame.
           destruct (first_error (flag b) _ rest) as [[i c']|]; [done|].
           destruct IHsame as (st' & Hl & Hf & Hr). exists st'. simpl.
           split_and!; [done | lia |]. rewrite Hr.
           by rewrite prepend_prepend by apply split_entries_nonempty.
Qed.


Lemma foldl_add_prepend_nil ns d s :
  foldl NameSet.add ns (prepend "" (split_entries d s))
  = foldl NameSet.add ns (split_entries d s).
Proof.
  destruct (prepend_nil (split_entries d s)) as [->|E]; [done|].
  by apply split_entries_nonempty in E.
Qed.

(** What [_parse_filter] answers, read off the string. *)
Lemma parse_filter_cases s :
  match first_error 0 0 s with
  | Some (i, c) =>
      _parse_filter s = Raised (FilterParseError (unexpected_msg c i))
  | None =>
      (depth s = 1%Z ∧ _parse_filter s = Raised (FilterParseError not_closed_msg))
      ∨ (depth s = 0%Z ∧
         _parse_filter s = Returned (foldl NameSet.add ∅ (split_entries 0 s)))
  end.
Proof.
  pose proof (parse_loop_from s s "" "" (ParseState false 0 ∅) eq_refl eq_refl) as H.
  simpl in H. unfold _parse_filter, finditer.
  destruct (first_error 0 0 s) as [[i c]|]; [by rewrite H|].
  destruct H as (st' & -> & Hf & Hr).
  destruct (inarg st'); simpl in Hf.
  - left. split; [lia | done].
  - right. split; [lia|]. by rewrite Hr, foldl_add_prepend_nil.
Qed.

Lemma first_error_None s : ∀ d p,
  (0 ≤ d ≤ 1)%Z →
  first_error d p s = None ↔
  ∀ pre post, s = pre +:+ post → (0 ≤ d + depth pre ≤ 1)%Z.
Proof.
  induction s as [|c s IH]; intros d p Hd; simpl.
  - split; [|done]. intros _ pre post H. symmetry in H.
    apply sapp_nil_inv in H as [-> _]. simpl. lia.
  - case_decide as Hc.
    + rewrite IH by done. split.
      * intros H [|c' pre] post; simpl; [lia|]. intros [= <- E].
        specialize (H _ _ E). lia.
      * intros H pre post E. specialize (H (String c pre) post). simpl in H.
        rewrite E in H. specialize (H eq_refl). lia.
    + split; [done|]. intros H. destruct Hc.
      specialize (H (String c "") s eq_refl). simpl in H. lia.
Qed.

Lemma first_error_Some s : ∀ d p i c,
  (0 ≤ d ≤ 1)%Z →
  first_error d p s = Some (i, c) ↔
  ∃ pre post, s = pre +:+ String c post ∧ i = p + String.length pre ∧
    (∀ pre' post', pre = pre' +:+ post' → (0 ≤ d + depth pre' ≤ 1)%Z) ∧
    ¬ (0 ≤ d + depth pre + delta c ≤ 1)%Z.
Proof.
  induction s as [|c0 s IH]; intros d p i c Hd; simpl.
  - split; [done|]. intros ([|??] & post & ? & _); done.
  - case_decide as Hc.
    + rewrite IH by done. split.
      * intros (pre & post & -> & -> & Hpre & Hbad).
        exists (String c0 pre), post. simpl. split_and!; [done | lia | | lia].
        intros [|c' pre'] post'; simpl; [lia|]. intros [= <- E].
        specialize (Hpre _ _ E). lia.
      * intros ([|c' pre] & post & E & -> & Hpre & Hbad); simpl in *.
        { injection E as -> ->. lia. }
        injection E as <- ->. exists pre, post. split_and!; [done | lia | | lia].
        intros pre' post' E. specialize (Hpre (String c0 pre') post').
        simpl in Hpre. rewrite E in Hpre. specialize (Hpre eq_refl). lia.
    + split.
      * intros [= <- <-]. exists "", s. simpl. split_and!; [done | lia | | lia].
        intros pre' post' E. symmetry in E. apply sapp_nil_inv in E as [-> _].
        simpl. lia.
      * intros ([|c' pre] & post & E & -> & Hpre & Hbad); simpl in *.
        { injection E as -> ->. f_equal. f_equal. lia. }
        injection E as <- ->. destruct Hc.
        specialize (Hpre (String c0 "") pre eq_refl). simpl in Hpre. lia.
Qed.

Lemma well_nested_first_error s : well_nested s ↔ first_error 0 0 s = None.
Proof.
  rewrite first_error_None by lia. unfold well_nested.
  split; intros H pre post E; specialize (H pre post E); lia.
Qed.

Lemma well_nested_self s : well_nested s → (0 ≤ depth s ≤ 1)%Z.
Proof. intros H. apply (H s ""). by rewrite sapp_nil_r. Qed.

(** The first offending character, in the words of the grammar. *)
Lemma first_error_unexpected s i c :
  first_error 0 0 s = Some (i, c) ↔
  ∃ pre post, s = pre +:+ String c post ∧ i = String.length pre ∧
    well_nested pre ∧
    ((c = "("%char ∧ depth pre = 1%Z) ∨ (c = ")"%char ∧ depth pre = 0%Z)).
Proof.
  rewrite first_error_Some by lia. split.
  - intros (pre & post & -> & -> & Hpre & Hbad). exists pre, post.
    assert (Hwn : well_nested pre).
    { intros pre' post' E. specialize (Hpre _ _ E). lia. }
    split_and!; [done..|]. apply well_nested_self in Hwn.
    unfold delta in Hbad. repeat case_decide; subst; [left|right|]; try (split; [done|lia]).
    lia.
  - intros (pre & post & -> & -> & Hwn & Hc). exists pre, post.
    split_and!; [done..| |].
    + intros pre' post' E. specialize (Hwn _ _ E). lia.
    + destruct Hc as [[-> ->]|[-> ->]]; compute; intros [??]; done.
Qed.

(** *** NameSet.add *)

Lemma elem_of_NameSet_add (self : gset string) name x :
  x ∈ NameSet.add self name ↔ x ∈ self ∨ (x = strip name ∧ x ≠ "").
Proof.
  unfold NameSet.add. case_decide as E.
  - split; [auto|]. intros [?|[-> ?]]; done.
  - rewrite elem_of_union, elem_of_singleton. split.
    + intros [->|?]; auto.
    + intros [?|[-> _]]; auto.
Qed.

Lemma elem_of_foldl_add (l : list string) : ∀ (ns : gset string) x,
  x ∈ foldl NameSet.add ns l ↔
  x ∈ ns ∨ (x ≠ "" ∧ ∃ e, e ∈ l ∧ x = strip e).
Proof.
  induction l as [|e l IH]; intros ns x; simpl.
  - split; [auto|]. intros [?|[_ (e & He & _)]]; [done|]. by apply elem_of_nil in He.
  - rewrite IH, elem_of_NameSet_add. split.
    + intros [[?|[-> ?]]|[? (e' & He' & ->)]]; auto.
      * right. split; [done|]. exists e. split; [left|done].
      * right. split; [done|]. exists e'. split; [by right|done].
    + intros [?|[? (e' & He' & ->)]]; auto.
      apply elem_of_cons in He' as [->|?]; auto.
      right. split; [done|]. by exists e'.
Qed.

(** *** The entries *)

Lemma concat_split_entries s : ∀ d, String.concat "," (split_entries d s) = s.
Proof.
  induction s as [|c s IH]; intros d; simpl; [done|].
  case_decide as Hc.
  - destruct Hc as [-> _]. specialize (IH d).
    destruct (split_entries d s) eqn:E; [by apply split_entries_nonempty in E|].
    simpl in *. by rewrite IH.
  - specialize (IH (d + delta c)%Z).
    destruct (split_entries (d + delta c) s) as [|e [|e' es]] eqn:E;
      [by apply split_entries_nonempty in E|..]; simpl in *; by rewrite IH.
Qed.

Lemma length_split_entries s : ∀ d,
  length (split_entries d s) = S (outside_commas d s).
Proof.
  induction s as [|c s IH]; intros d; simpl; [done|].
  case_decide as Hc.
  - destruct Hc as [-> ->]. simpl. by rewrite IH.
  - specialize (IH (d + delta c)%Z).
    destruct (split_entries (d + delta c) s); simpl in *; lia.
Qed.

Lemma split_entries_no_comma s : ∀ d,
  ∃ e es, split_entries d s = e :: es ∧ outside_commas d e = 0 ∧
          Forall (λ e', outside_commas 0 e' = 0) es.
Proof.
  induction s as [|c s IH]; intros d; simpl.
  - by exists "", [].
  - case_decide as Hc.
    + destruct Hc as [-> ->]. destruct (IH 0%Z) as (e & es & -> & He & Hes).
      exists "", (e :: es). split_and!; [done..|]. by constructor.
    + destruct (IH (d + delta c)%Z) as (e & es & -> & He & Hes).
      exists (String c e), es. simpl. rewrite decide_False by done.
      split_and!; [done | lia | done].
Qed.

(** Cutting at a comma at depth 0 cuts the entries there. *)
Lemma split_entries_comma a t : ∀ d,
  (d + depth a)%Z = 0%Z → (∀ pre post, a = pre +:+ post → 0 ≤ d + depth pre)%Z →
  split_entries d (a +:+ String "," t) = split_entries d a ++ split_entries 0 t.
Proof.
  induction a as [|c a IH]; intros d Hd Hpre; simpl in *.
  - assert (d = 0%Z) as -> by lia. by rewrite decide_True.
  - case_decide as Hc.
    + destruct Hc as [-> ->]. change (delta ",") with 0%Z in Hd.
      rewrite IH; [done | lia |]. intros pre post E.
      specialize (Hpre (String "," pre) post). simpl in Hpre. rewrite E in Hpre.
      specialize (Hpre eq_refl). change (delta ",") with 0%Z in Hpre. lia.
    + rewrite IH; [| lia |].
      * pose proof (split_entries_nonempty (d + delta c) a).
        by destruct (split_entries (d + delta c) a).
      * intros pre post E.
        specialize (Hpre (String c pre) post). simpl in Hpre. rewrite E in Hpre.
        specialize (Hpre eq_refl). lia.
Qed.

Lemma no_special_split s :
  (∀ pre c post, s = pre +:+ String c post → is_special c = false) →
  ∀ d, split_entries d s = [s] ∧ depth s = 0%Z.
Proof.
  induction s as [|c s IH]; intros H d; simpl; [done|].
  assert (Hc : is_special c = false) by apply (H "" c s eq_refl).
  assert (Hs : ∀ pre c' post, s = pre +:+ String c' post → is_special c' = false).
  { intros pre c' post ->. by apply (H (String c pre) c' post). }
  apply not_true_iff_false in Hc. rewrite is_special_true in Hc.
  rewrite decide_False by (intros [-> _]; tauto).
  destruct (IH Hs (d + delta c)%Z) as [-> Hd]. simpl.
  split; [done|]. rewrite delta_other by tauto. lia.
Qed.

Lemma no_special_well_formed s :
  (∀ pre c post, s = pre +:+ String c post → is_special c = false) →
  well_formed s.
Proof.
  intros H. split; [|by apply (no_special_split s H 0%Z)].
  intros pre post ->.
  assert (Hpre : ∀ p c q, pre = p +:+ String c q → is_special c = false).
  { intros p c q ->. apply (H p c (q +:+ post)). by rewrite sapp_assoc. }
  destruct (no_special_split pre Hpre 0%Z) as [_ ->]. lia.
Qed.

Lemma well_formed_parse s :
  well_formed s →
  _parse_filter s = Returned (foldl NameSet.add ∅ (split_entries 0 s)).
Proof.
  intros [Hwn Hd]. pose proof (parse_filter_cases s) as H.
  apply well_nested_first_error in Hwn. rewrite Hwn in H.
  destruct H as [[? _]|[_ ?]]; [lia | done].
Qed.

Lemma well_formed_app a t :
  well_formed a → well_formed (a +:+ t) ↔ well_formed t.
Proof.
  intros [Ha Hd]. unfold well_formed. rewrite depth_app, Hd, Z.add_0_l.
  apply and_iff_compat_r. split.
  - intros H pre post ->. specialize (H (a +:+ pre) post).
    rewrite depth_app, Hd, sapp_assoc in H. by apply H.
  - intros H pre post E. apply sapp_eq_app in E as [(u & -> & ->)|(u & -> & ->)].
    + rewrite depth_app, Hd. by apply (H u post).
    + by apply (Ha pre u).
Qed.

Lemma well_formed_comma : well_formed ",".
Proof. split; [by apply well_nested_first_error | done]. Qed.

Lemma NameSet_add_empty (ns : gset string) : NameSet.add ns "" = ns.
Proof. done. Qed.

(** ** C9 *)

(** C9. [NameSet.add] trims the argument: what [strip] removes at either
    end is white space, and what it leaves neither starts nor ends with
    white space. A non-empty trimmed string is inserted into the set; an
    empty one leaves the set as it was. *)
Theorem NameSet_add_spec (self : gset string) (name : string) :
  (∃ l r, name = l +:+ strip name +:+ r ∧
          all_space l = true ∧ all_space r = true ∧ trimmed (strip name)) ∧
  (strip name ≠ "" → NameSet.add self name = {[ strip name ]} ∪ self) ∧
  (strip name = "" → NameSet.add self name = self) ∧
  (∀ x, x ∈ NameSet.add self name ↔ x ∈ self ∨ (x = strip name ∧ x ≠ "")).
Proof.
  split_and!.
  - apply strip_spec.
  - intros H. unfold NameSet.add. by rewrite decide_False.
  - intros H. unfold NameSet.add. by rewrite decide_True.
  - apply elem_of_NameSet_add.
Qed.

(** ** C3 *)

(** C3. [_parse_filter] raises [FilterParseError] in exactly three
    situations: at an open parenthesis inside a parenthesis group and at a
    close parenthesis outside one, with the message
    'unexpected character "c" at position n', where [c] is that character
    and [n] the decimal numeral of its 0-based position, that is of the
    length of what precedes it; and at the end of a string that is still
    inside a group, with the message 'parenthesis is not closed'. On every
    other input, and on those only, it returns a set. *)
Theorem parse_filter_raises_exactly (s : string) :
  (∀ e, _parse_filter s = Raised e ↔
     (∃ pre post d,
        s = pre +:+ String "(" post ∧ well_nested pre ∧ depth pre = 1%Z ∧
        numeral_value d = Some (N.of_nat (String.length pre)) ∧
        e = Exn BaseExceptionKind "FilterParseError"
              ("unexpected character "
               +:+ String "034" (String "(" (String "034" (" at position " +:+ d)))))
     ∨ (∃ pre post d,
          s = pre +:+ String ")" post ∧ well_nested pre ∧ depth pre = 0%Z ∧
          numeral_value d = Some (N.of_nat (String.length pre)) ∧
          e = Exn BaseExceptionKind "FilterParseError"
                ("unexpected character "
                 +:+ String "034" (String ")" (String "034" (" at position " +:+ d)))))
     ∨ (well_nested s ∧ depth s = 1%Z ∧
        e = Exn BaseExceptionKind "FilterParseError" "parenthesis is not closed"))
  ∧ ((∃ ns, _parse_filter s = Returned ns) ↔ well_nested s ∧ depth s = 0%Z).
Proof.
  pose proof (parse_filter_cases s) as H. split.
  - intros e. split.
    + intros He. destruct (first_error 0 0 s) as [[i c]|] eqn:E.
      * apply first_error_unexpected in E as (pre & post & -> & -> & Hwn & Hc).
        rewrite He in H. injection H as ->.
        destruct Hc as [[-> ?]|[-> ?]]; [left | right; left];
          exists pre, post, (format_nat (String.length pre));
          (split_and!; [done..| by apply numeral_value_format | reflexivity]).
      * apply well_nested_first_error in E.
        destruct H as [[? H]|[_ H]]; rewrite He in H; [|done].
        injection H as ->. by right; right.
    + intros [(pre & post & d & -> & Hwn & Hd & ->%numeral_value_format & ->)
             |[(pre & post & d & -> & Hwn & Hd & ->%numeral_value_format & ->)
             |(Hwn & Hd & ->)]].
      * assert (E : first_error 0 0 (pre +:+ String "(" post)
                    = Some (String.length pre, "("%char)).
        { apply first_error_unexpected. exists pre, post.
          split_and!; [done..|]. by left. }
        rewrite E in H. exact H.
      * assert (E : first_error 0 0 (pre +:+ String ")" post)
                    = Some (String.length pre, ")"%char)).
        { apply first_error_unexpected. exists pre, post.
          split_and!; [done..|]. by right. }
        rewrite E in H. exact H.
      * apply well_nested_first_error in Hwn. rewrite Hwn in H.
        destruct H as [[_ H]|[? _]]; [exact H | lia].
  - split.
    + intros [ns Hns]. destruct (first_error 0 0 s) as [[i c]|] eqn:E.
      * by rewrite Hns in H.
      * apply well_nested_first_error in E. split; [done|].
        destruct H as [[_ H]|[? _]]; [by rewrite Hns in H | done].
    + intros Hwf. rewrite (well_formed_parse s Hwf). eauto.
Qed.

(** ** C4 *)

(** C4. On a well-formed filter string, the entries are the pieces between
    the commas at depth 0: joined by commas they give the string back, there
    is one more entry than there are commas at depth 0, and no entry has a
    comma at depth 0. [_parse_filter] returns the set obtained by adding the
    entries one by one with [NameSet.add], that is the non-empty trimmed
    entries. The empty string gives the empty set, one of two consecutive
    commas can be dropped without changing the result, and a string without
    any of the three special characters is added as one entry. *)
Theorem parse_filter_splits (s : string) :
  well_formed s →
  String.concat "," (split_entries 0 s) = s ∧
  length (split_entries 0 s) = S (outside_commas 0 s) ∧
  Forall (λ e, outside_commas 0 e = 0) (split_entries 0 s) ∧
  _parse_filter s = Returned (foldl NameSet.add ∅ (split_entries 0 s)) ∧
  (∀ ns, _parse_filter s = Returned ns →
     ∀ x, x ∈ ns ↔ x ≠ "" ∧ ∃ e, e ∈ split_entries 0 s ∧ x = strip e) ∧
  (s = "" → _parse_filter s = Returned ∅) ∧
  (∀ a b, s = a +:+ ",," +:+ b → well_formed a →
     _parse_filter s = _parse_filter (a +:+ "," +:+ b)) ∧
  ((∀ pre c post, s = pre +:+ String c post → is_special c = false) →
     _parse_filter s = Returned (NameSet.add ∅ s)).
Proof.
  intros Hwf. pose proof (well_formed_parse s Hwf) as Hparse. split_and!.
  - apply concat_split_entries.
  - apply length_split_entries.
  - destruct (split_entries_no_comma s 0%Z) as (e & es & -> & He & Hes).
    by constructor.
  - done.
  - intros ns Hns x. rewrite Hparse in Hns. injection Hns as <-.
    rewrite elem_of_foldl_add. split; [|auto]. intros [?|?]; [|done].
    by apply not_elem_of_empty in H.
  - by intros ->.
  - intros a b -> Ha.
    assert (Hb : well_formed b).
    { apply (proj1 (well_formed_app a _ Ha)) in Hwf.
      change (",," +:+ b) with ("," +:+ ("," +:+ b)) in Hwf.
      apply (proj1 (well_formed_app "," _ well_formed_comma)) in Hwf.
      by apply (proj1 (well_formed_app "," _ well_formed_comma)) in Hwf. }
    assert (Hab : well_formed (a +:+ "," +:+ b)).
    { apply well_formed_app; [done|]. apply well_formed_app; [apply well_formed_comma|done]. }
    rewrite Hparse, (well_formed_parse _ Hab). f_equal.
    destruct Ha as [Hwn Hd].
    assert (Hpre : ∀ pre post, a = pre +:+ post → (0 ≤ 0 + depth pre)%Z).
    { intros pre post E. specialize (Hwn _ _ E). lia. }
    change (a +:+ ",," +:+ b) with (a +:+ String "," (String "," b)).
    change (a +:+ "," +:+ b) with (a +:+ String "," b).
    rewrite !split_entries_comma by (done || lia). simpl.
    by rewrite !foldl_app.
  - intros Hns. rewrite Hparse.
    by destruct (no_special_split s Hns 0%Z) as [-> _].
Qed.

(** [foo,bar(a,b,c),baz] is well formed: three entries. *)
Lemma parse_filter_splits_witness :
  well_formed "foo,bar(a,b,c),baz" ∧
  _parse_filter "foo,bar(a,b,c),baz"
  = Returned (foldl NameSet.add ∅ ["foo"; "bar(a,b,c)"; "baz"]).
Proof.
  assert (Hwf : well_formed "foo,bar(a,b,c),baz").
  { split; [by apply well_nested_first_error | done]. }
  split; [done|].
  exact (proj1 (proj2 (proj2 (proj2 (parse_filter_splits _ Hwf))))).
Defined.

End parser.

(** *** The parser on the filter strings of the documentation *)

Example parse_abc : _parse_filter "a,b,c" = Returned {[ "a"; "b"; "c" ]}.
Proof. vm_compute. reflexivity. Qed.

Example parse_group : _parse_filter "a(x,y),b" = Returned {[ "a(x,y)"; "b" ]}.
Proof. vm_compute. reflexivity. Qed.

Example parse_nested :
  _parse_filter "a((b))" = Raised (FilterParseError (unexpected_msg "(" 2)).
Proof. reflexivity. Qed.

Example parse_unmatched :
  _parse_filter "a)b" = Raised (FilterParseError (unexpected_msg ")" 1)).
Proof. reflexivity. Qed.

Example parse_unterminated :
  _parse_filter "a(b" = Raised (FilterParseError "parenthesis is not closed").
Proof. reflexivity. Qed.

Example parse_empty : _parse_filter "" = Returned ∅.
Proof. reflexivity. Qed.

Example parse_blanks : _parse_filter " a , , b " = Returned {[ "a"; "b" ]}.
Proof. vm_compute. reflexivity. Qed.

(** The messages, letter by letter: a position of one digit, a position of
    two, and the unclosed parenthesis. *)
Lemma parse_filter_raises_exactly_witness :
  _parse_filter "a((b))"
  = Raised (Exn BaseExceptionKind "FilterParseError"
              ("unexpected character "
               +:+ String "034" ("(" +:+ String "034" " at position 2"))) ∧
  _parse_filter "abcdefghijkl)"
  = Raised (Exn BaseExceptionKind "FilterParseError"
              ("unexpected character "
               +:+ String "034" (")" +:+ String "034" " at position 12"))) ∧
  _parse_filter "a(b"
  = Raised (Exn BaseExceptionKind "FilterParseError" "parenthesis is not closed").
Proof.
  split_and!.
  - apply (proj1 (parse_filter_raises_exactly "a((b))")). left.
    exists "a(", "b))", "2". split_and!; try reflexivity.
    apply well_nested_first_error. reflexivity.
  - apply (proj1 (parse_filter_raises_exactly "abcdefghijkl)")). right. left.
    exists "abcdefghijkl", "", "12". split_and!; try reflexivity.
    apply well_nested_first_error. reflexivity.
  - apply (proj1 (parse_filter_raises_exactly "a(b")). right. right.
    split_and!; try reflexivity.
    apply well_nested_first_error. reflexivity.
Defined.

Example unexpected_msg_text :
  unexpected_msg "(" 12
  = "unexpected character " +:+ String "034" ("(" +:+ String "034" " at position 12").
Proof. reflexivity. Qed.

(** ** Python containers *)

Section dict_facts.
Context {K V : Type} `{EqDecision K}.
Implicit Types d : list (K * V).

Lemma get_setitem d k v k' :
  PyDict.get (PyDict.setitem d k v) k'
  = if decide (k = k') then Some v else PyDict.get d k'.
Proof.
  induction d as [|[k0 v0] d IH]; simpl.
  - by repeat case_decide.
  - destruct (decide (k0 = k)) as [->|Hk]; simpl.
    + by repeat case_decide.
    + rewrite IH. repeat case_decide; congruence.
Qed.

Lemma get_snoc d k v k' :
  PyDict.get d k = None →
  PyDict.get (d ++ [(k, v)]) k'
  = if decide (k = k') then Some v else PyDict.get d k'.
Proof.
  induction d as [|[k0 v0] d IH]; simpl; [done|].
  destruct (decide (k0 = k)) as [->|Hk]; [done|]. intros Hd.
  rewrite (IH Hd). repeat case_decide; congruence.
Qed.

Lemma elem_of_keys_get d k : k ∈ PyDict.keys d ↔ is_Some (PyDict.get d k).
Proof.
  unfold PyDict.keys. induction d as [|[k0 v0] d IH]; csimpl.
  - rewrite elem_of_nil. split; [done | by intros [??]].
  - rewrite elem_of_cons, IH. case_decide as Hk.
    + subst. split; eauto.
    + split; [|by right]. intros [->|?]; done.
Qed.

Lemma keys_setitem d k v :
  PyDict.keys (PyDict.setitem d k v)
  = if decide (k ∈ PyDict.keys d) then PyDict.keys d else PyDict.keys d ++ [k].
Proof.
  unfold PyDict.keys. induction d as [|[k0 v0] d IH]; csimpl.
  - done.
  - destruct (decide (k0 = k)) as [->|Hk]; csimpl.
    + rewrite decide_True; [done | left].
    + rewrite IH. case_decide as Hin.
      * rewrite decide_True; [done | by right].
      * rewrite decide_False; [done|]. rewrite elem_of_cons. by intros [?|?].
Qed.

Lemma NoDup_keys_setitem d k v :
  NoDup (PyDict.keys d) → NoDup (PyDict.keys (PyDict.setitem d k v)).
Proof.
  intros Hd. rewrite keys_setitem. case_decide; [done|].
  apply NoDup_app. split_and!; [done | | apply NoDup_singleton].
  intros x ? ->%list_elem_of_singleton. done.
Qed.

Lemma NoDup_keys_snoc d k v :
  PyDict.get d k = None → NoDup (PyDict.keys d) →
  NoDup (PyDict.keys (d ++ [(k, v)])).
Proof.
  intros Hk Hd. unfold PyDict.keys. rewrite fmap_app. simpl.
  apply NoDup_app. split_and!; [done | | apply NoDup_singleton].
  intros x Hx ->%list_elem_of_singleton.
  apply elem_of_keys_get in Hx as [? Hx]. congruence.
Qed.

Lemma get_Some_elem_of d k v :
  NoDup (PyDict.keys d) → PyDict.get d k = Some v ↔ (k, v) ∈ d.
Proof.
  unfold PyDict.keys. induction d as [|[k0 v0] d IH]; csimpl; intros Hd.
  - split; [done | by intros ?%elem_of_nil].
  - apply NoDup_cons in Hd as [Hk0 Hd]. rewrite elem_of_cons.
    case_decide as Hk; subst.
    + split; [intros [= ->]; by left|]. intros [[= ->]|Hin]; [done|].
      destruct Hk0. apply list_elem_of_fmap. by exists (k, v).
    + rewrite (IH Hd). split; [by right|]. intros [[= ??]|?]; done.
Qed.

End dict_facts.

(** ** The resolver *)

Section resolver.
Context {Data : Type} `{!Collaborators Data}.
Implicit Types E : list (miner * list string).
Implicit Types nsm : namespace.

(** *** The first loop *)

Lemma name_miner_map_yields E :
  name_miner_map E = foldl (λ d y, add_producer d y.2 y.1) [] (yields E).
Proof.
  unfold name_miner_map, yields. generalize (@nil (string * list miner)).
  induction E as [|[m names] E IH]; intros d; [done|].
  csimpl. rewrite foldl_app, IH. f_equal.
  clear IH. revert d. induction names as [|n names IH]; intros d; [done|].
  csimpl. by rewrite IH.
Qed.

Lemma get_add_producer (d : list (string * list miner)) n m x :
  PyDict.get (add_producer d n m) x
  = if decide (n = x) then Some (default [] (PyDict.get d n) ++ [m])
    else PyDict.get d x.
Proof.
  unfold add_producer, PyDict.setdefault.
  destruct (PyDict.get d n) as [l|] eqn:E; rewrite get_setitem.
  - by case_decide.
  - case_decide; [done|]. rewrite get_snoc by done. by rewrite decide_False.
Qed.

Lemma NoDup_add_producer (d : list (string * list miner)) n m :
  NoDup (PyDict.keys d) → NoDup (PyDict.keys (add_producer d n m)).
Proof.
  intros Hd. unfold add_producer, PyDict.setdefault.
  destruct (PyDict.get d n) as [l|] eqn:E; apply NoDup_keys_setitem; [done|].
  by apply NoDup_keys_snoc.
Qed.

Lemma get_foldl_add_producer (ys : list (miner * string)) :
  ∀ (d : list (string * list miner)) x,
  PyDict.get (foldl (λ d y, add_producer d y.2 y.1) d ys) x
  = if decide ((filter (λ y, y.2 = x) ys).*1 = []) then PyDict.get d x
    else Some (default [] (PyDict.get d x) ++ (filter (λ y, y.2 = x) ys).*1).
Proof.
  induction ys as [|[m n] ys IH]; intros d x; [done|].
  simpl foldl. rewrite IH, get_add_producer. simpl.
  rewrite filter_cons. simpl. destruct (decide (n = x)) as [->|Hn]; csimpl.
  - case_decide as Hys.
    + by rewrite Hys.
    + by rewrite <-app_assoc.
  - done.
Qed.

Lemma get_name_miner_map E x :
  PyDict.get (name_miner_map E) x
  = if decide (producers E x = []) then None else Some (producers E x).
Proof. rewrite name_miner_map_yields. apply get_foldl_add_producer. Qed.

Lemma NoDup_name_miner_map E : NoDup (PyDict.keys (name_miner_map E)).
Proof.
  rewrite name_miner_map_yields. generalize (yields E). intros ys.
  assert (H : NoDup (PyDict.keys (@nil (string * list miner)))) by constructor.
  revert H. generalize (@nil (string * list miner)).
  induction ys as [|y ys IH]; intros d Hd; [done|].
  simpl. apply IH. by apply NoDup_add_producer.
Qed.

(** An item of [name_miner_map]: a name that some miner yields, with its
    producers. *)
Lemma elem_of_name_miner_map E x l :
  (x, l) ∈ name_miner_map E ↔ l = producers E x ∧ l ≠ [].
Proof.
  rewrite <-get_Some_elem_of by apply NoDup_name_miner_map.
  rewrite get_name_miner_map. case_decide as Hp.
  - split; [done|]. intros [-> ?]. done.
  - split; [by intros [= <-] | by intros [-> _]].
Qed.

(** *** The second loop *)

Lemma get_register nsm m' p' n' m :
  PyDict.get (register nsm m' p' n') m
  = if decide (m' = m)
    then Some (PyDict.setitem (default [] (PyDict.get nsm m')) p' n')
    else PyDict.get nsm m.
Proof.
  unfold register, PyDict.setdefault.
  destruct (PyDict.get nsm m') as [b|] eqn:E; rewrite get_setitem.
  - done.
  - case_decide; [done|]. rewrite get_snoc by done. by rewrite decide_False.
Qed.

Lemma lookup2_register nsm m' p' n' m p :
  lookup2 (register nsm m' p' n') m p
  = if decide (m' = m ∧ p' = p) then Some n' else lookup2 nsm m p.
Proof.
  unfold lookup2. rewrite get_register.
  destruct (decide (m' = m)) as [->|Hm]; simpl.
  - rewrite get_setitem. destruct (decide (p' = p)) as [->|Hp].
    + by rewrite decide_True.
    + rewrite decide_False by (by intros [_ ?]).
      by destruct (PyDict.get nsm m).
  - by rewrite decide_False by (by intros [? _]).
Qed.

Lemma wf_register nsm m p n : wf_namespace nsm → wf_namespace (register nsm m p n).
Proof.
  intros [Hk Hb]. split.
  - unfold register, PyDict.setdefault.
    destruct (PyDict.get nsm m) as [b|] eqn:E; apply NoDup_keys_setitem; [done|].
    by apply NoDup_keys_snoc.
  - intros m0 b. rewrite get_register. case_decide as Hm.
    + intros [= <-]. apply NoDup_keys_setitem.
      destruct (PyDict.get nsm m) as [b'|] eqn:E; simpl; [by eapply Hb | constructor].
    + apply Hb.
Qed.

Lemma wf_foldl_assign log : ∀ nsm,
  wf_namespace nsm → wf_namespace (foldl assign nsm log).
Proof.
  induction log as [|r log IH]; intros nsm Hwf; [done|].
  simpl. apply IH. by apply wf_register.
Qed.

Lemma lookup2_foldl_assign log : ∀ nsm m p,
  lookup2 (foldl assign nsm log) m p = last_assigned m p log (lookup2 nsm m p).
Proof.
  unfold last_assigned. induction log as [|r log IH]; intros nsm m p; [done|].
  simpl. rewrite IH. unfold assign. by rewrite lookup2_register.
Qed.

Lemma last_assigned_sound m p log : ∀ acc n,
  last_assigned m p log acc = Some n → acc = Some n ∨ (m, p, n) ∈ log.
Proof.
  unfold last_assigned. induction log as [|[[m0 p0] n0] log IH]; intros acc n; simpl.
  - auto.
  - intros [H|H]%IH; [|right; by right].
    case_decide as Hr; [|by left]. simpl in Hr. destruct Hr as [-> ->].
    injection H as ->. right. left.
Qed.

Lemma last_assigned_Some m p log : ∀ a,
  ∃ n, last_assigned m p log (Some a) = Some n ∧ (n = a ∨ (m, p, n) ∈ log).
Proof.
  unfold last_assigned. induction log as [|[[m0 p0] n0] log IH]; intros a; simpl.
  - eauto.
  - case_decide as Hr; simpl in Hr.
    + destruct Hr as [-> ->]. destruct (IH n0) as (n & -> & [->|Hn]).
      * exists n0. split; [done|]. right. left.
      * exists n. split; [done|]. right. by right.
    + destruct (IH a) as (n & -> & [->|Hn]).
      * exists a. auto.
      * exists n. split; [done|]. right. by right.
Qed.

Lemma last_assigned_complete m p log : ∀ acc n,
  (m, p, n) ∈ log →
  ∃ n', last_assigned m p log acc = Some n' ∧ (m, p, n') ∈ log.
Proof.
  unfold last_assigned. induction log as [|[[m0 p0] n0] log IH]; intros acc n; simpl.
  - by intros ?%elem_of_nil.
  - intros [[= <- <- <-]|Hin]%elem_of_cons.
    + rewrite decide_True by done.
      destruct (last_assigned_Some m p log n) as (n' & Hn' & [->|Hin]).
      * exists n. split; [done | left].
      * exists n'. split; [done | by right].
    + destruct (IH (if decide (m0 = m ∧ p0 = p) then Some n0 else acc) n Hin)
        as (n' & -> & Hn').
      exists n'. split; [done | by right].
Qed.

Lemma resolve_item_assign nsm item :
  item.2 ≠ [] →
  resolve_item nsm item = Returned (foldl assign nsm (registrations_of item)).
Proof.
  destruct item as [x l]. simpl. intros Hl. case_decide.
  - by rewrite foldl_fmap.
  - by destruct l.
Qed.

Lemma resolve_loop_assign items : ∀ nsm,
  Forall (λ item, item.2 ≠ []) items →
  resolve_loop items nsm = Returned (foldl assign nsm (items ≫= registrations_of)).
Proof.
  induction items as [|item items IH]; intros nsm Hne; [done|].
  apply Forall_cons in Hne as [Hitem Hne]. simpl.
  rewrite resolve_item_assign by done. simpl.
  rewrite IH by done. by rewrite foldl_app.
Qed.

(** The resolver never raises: no item of [name_miner_map] has an empty
    list, so [miners[0]] is there. *)
Lemma resolve_Returned E :
  resolve E = Returned (foldl assign [] (name_miner_map E ≫= registrations_of)).
Proof.
  unfold resolve. apply resolve_loop_assign.
  apply Forall_forall. intros [x l] Hin. simpl.
  by apply elem_of_name_miner_map in Hin as [_ ?].
Qed.

Lemma elem_of_registrations E m p n :
  (m, p, n) ∈ name_miner_map E ≫= registrations_of ↔ registered E m p n.
Proof.
  rewrite list_elem_of_bind. unfold registered. split.
  - intros ([x l] & Hr & [-> Hne]%elem_of_name_miner_map).
    unfold registrations_of in Hr. case_decide as Hlen.
    + apply list_elem_of_fmap in Hr as (m0 & [= -> -> ->] & Hm0). by right.
    + destruct (producers E x) as [|m0 [|??]] eqn:Hp; [done| |simpl in Hlen; lia].
      apply list_elem_of_singleton in Hr as [= -> -> ->]. by left.
  - intros [[Hp ->]|(Hlen & Hm & ->)].
    + exists (n, [m]). split.
      * simpl. left.
      * apply elem_of_name_miner_map. by rewrite Hp.
    + exists (n, producers E n). split.
      * simpl. rewrite decide_True by done.
        apply list_elem_of_fmap. by exists m.
      * apply elem_of_name_miner_map. split; [done|].
        intros Hp. rewrite Hp in Hlen. simpl in Hlen. lia.
Qed.

(** Every entry of the namespace is an assignment of the second loop. *)
Lemma lookup2_resolve_sound E nsm m p n :
  resolve E = Returned nsm → lookup2 nsm m p = Some n → registered E m p n.
Proof.
  rewrite resolve_Returned. intros [= <-]. rewrite lookup2_foldl_assign.
  intros [?|?]%last_assigned_sound; [done|]. by apply elem_of_registrations.
Qed.

(** Every assignment of the second loop leaves an entry, its own or that of
    a later assignment to the same public name of the same miner. *)
Lemma lookup2_resolve_complete E nsm m p n :
  resolve E = Returned nsm → registered E m p n →
  ∃ n', lookup2 nsm m p = Some n' ∧ registered E m p n'.
Proof.
  rewrite resolve_Returned. intros [= <-] Hr%elem_of_registrations.
  rewrite lookup2_foldl_assign.
  destruct (last_assigned_complete m p _ (lookup2 [] m p) n Hr) as (n' & ? & ?).
  exists n'. split; [done|]. by apply elem_of_registrations.
Qed.

Lemma wf_resolve E nsm : resolve E = Returned nsm → wf_namespace nsm.
Proof.
  rewrite resolve_Returned. intros [= <-]. apply wf_foldl_assign.
  split; [constructor | done].
Qed.

(** *** Producers *)

Lemma yields_app E1 E2 : yields (E1 ++ E2) = yields E1 ++ yields E2.
Proof. unfold yields. by rewrite fmap_app, join_app. Qed.

Lemma producers_app E1 E2 x : producers (E1 ++ E2) x = producers E1 x ++ producers E2 x.
Proof. unfold producers. by rewrite yields_app, filter_app, fmap_app. Qed.

Lemma producers_cons m names E x :
  producers ((m, names) :: E) x
  = replicate (length (filter (λ n, n = x) names)) m ++ producers E x.
Proof.
  change ((m, names) :: E) with ([(m, names)] ++ E). rewrite producers_app.
  f_equal. unfold producers, yields. csimpl. rewrite app_nil_r.
  induction names as [|n names IH]; [done|]. csimpl.
  rewrite !filter_cons. simpl. case_decide; csimpl; by rewrite IH.
Qed.

Lemma filter_replicate_same (m : miner) k :
  filter (λ m', m' = m) (replicate k m) = replicate k m.
Proof. induction k as [|k IH]; [done|]. simpl. by rewrite filter_cons_True, IH. Qed.

Lemma elem_of_producers E m x :
  m ∈ producers E x ↔ ∃ names, (m, names) ∈ E ∧ x ∈ names.
Proof.
  induction E as [|[m0 names0] E IH].
  - split; [by intros ?%elem_of_nil | by intros (? & ?%elem_of_nil & _)].
  - rewrite producers_cons, elem_of_app, IH. split.
    + intros [[-> Hlen]%elem_of_replicate|(names & ? & ?)].
      * exists names0. split; [left|].
        destruct (filter (λ n, n = x) names0) as [|n ?] eqn:Hf; [done|].
        assert (Hn : n ∈ filter (λ n, n = x) names0) by (rewrite Hf; left).
        by apply list_elem_of_filter in Hn as [-> ?].
      * exists names. split; [by right | done].
    + intros (names & [[= -> ->]|?]%elem_of_cons & Hx).
      * left. apply elem_of_replicate. split; [done|].
        assert (Hn : x ∈ filter (λ n, n = x) names0) by by apply list_elem_of_filter.
        destruct (filter (λ n, n = x) names0); [|done].
        by apply elem_of_nil in Hn.
      * right. by exists names.
Qed.

Lemma producers_miner E m x : m ∈ producers E x → m ∈ E.*1.
Proof.
  intros (names & Hin & _)%elem_of_producers.
  apply list_elem_of_fmap. by exists (m, names).
Qed.

Lemma elem_of_yields E m x : (m, x) ∈ yields E ↔ m ∈ producers E x.
Proof.
  unfold producers. rewrite list_elem_of_fmap. split.
  - intros H. exists (m, x). split; [done|]. by apply list_elem_of_filter.
  - intros ([m' x'] & -> & [Hx ?]%list_elem_of_filter). simpl in *. by subst.
Qed.

Lemma no_recollisionb_correct E : no_recollisionb E = true → no_recollision E.
Proof.
  unfold no_recollisionb. rewrite forallb_forall. intros H x m Hlen Hm.
  apply elem_of_yields, list_elem_of_In in Hm. specialize (H _ Hm). simpl in H.
  apply orb_true_iff in H as [H|H].
  - apply negb_true_iff, bool_decide_eq_false in H. done.
  - by apply bool_decide_eq_true in H.
Qed.

(** *** Modified names *)

Lemma modified_ne x m : modified x m ≠ x.
Proof.
  unfold modified. intros H. apply (f_equal String.length) in H.
  rewrite slength_app in H. simpl in H. lia.
Qed.

Lemma modified_inj_name x y m : modified x m = modified y m → x = y.
Proof. apply sapp_inj_r. Qed.

Lemma contains_char_app c a b : contains_char c (a +:+ String c b) = true.
Proof.
  induction a as [|c' a IH]; simpl.
  - by rewrite bool_decide_eq_true_2.
  - rewrite IH. apply orb_true_r.
Qed.

Lemma modified_inj x y m1 m2 :
  contains_char "_" (miner_type_name m1) = false →
  contains_char "_" (miner_type_name m2) = false →
  modified x m1 = modified y m2 →
  x = y ∧ miner_type_name m1 = miner_type_name m2.
Proof.
  unfold modified. intros H1 H2 H.
  change ("_" +:+ ?t) with (String "_" t) in H.
  apply sapp_eq_app in H as [([|c u] & Hy & Hu)|([|c u] & Hx & Hu)]; simpl in *.
  - rewrite sapp_nil_r in Hy. by injection Hu as ->.
  - injection Hu as <- Hu. by rewrite Hu, contains_char_app in H1.
  - rewrite sapp_nil_r in Hx. by injection Hu as ->.
  - injection Hu as <- Hu. by rewrite Hu, contains_char_app in H2.
Qed.

(** *** Entries of the namespace *)

(** Without recollision, a public name of a miner is assigned once. *)
Lemma registered_unique E m p n n' :
  no_recollision E → registered E m p n → registered E m p n' → n = n'.
Proof.
  intros Hnr [[Hp ->]|(Hlen & Hm & ->)] [[Hp' E']|(Hlen' & Hm' & E')].
  - done.
  - subst n. rewrite (Hnr n' m Hlen' Hm') in Hp. done.
  - subst n'. rewrite (Hnr n m Hlen Hm) in Hp'. done.
  - by apply modified_inj_name in E'.
Qed.

(** ** C1 *)

(** C1, amended. Provided no modified name [n_T] is itself a name that some
    miner yields, the namespace binds a native name with exactly one
    producer entry to itself in the bucket of that producer, binds a native
    name with two or more producer entries, for each of its producers, under
    the native name followed by ['_'] and the type name of that producer,
    and binds nothing under the bare native name of a name with two or more
    producer entries; and it has no other entries. A producer entry is one
    yield: a miner that yields a name twice has two. *)
Theorem resolver_entries E :
  no_recollision E →
  ∃ nsm, resolve E = Returned nsm ∧
    (∀ x m, producers E x = [m] → lookup2 nsm m x = Some x) ∧
    (∀ x m, 1 < length (producers E x) → m ∈ producers E x →
            lookup2 nsm m (modified x m) = Some x) ∧
    (∀ x m, 1 < length (producers E x) → lookup2 nsm m x = None) ∧
    (∀ m p n, lookup2 nsm m p = Some n →
       (producers E n = [m] ∧ p = n) ∨
       (1 < length (producers E n) ∧ m ∈ producers E n ∧ p = modified n m)).
Proof.
  intros Hnr. eexists. split; [apply resolve_Returned|].
  pose proof (resolve_Returned E) as Hres.
  set (nsm := foldl assign [] (name_miner_map E ≫= registrations_of)) in *.
  split_and!.
  - intros x m Hp.
    assert (Hr : registered E m x x) by by left.
    destruct (lookup2_resolve_complete E nsm m x x Hres Hr) as (n' & -> & Hr').
    f_equal. by eapply registered_unique.
  - intros x m Hlen Hm.
    assert (Hr : registered E m (modified x m) x) by by right.
    destruct (lookup2_resolve_complete E nsm m _ x Hres Hr) as (n' & -> & Hr').
    f_equal. by eapply registered_unique.
  - intros x m Hlen. destruct (lookup2 nsm m x) as [n|] eqn:Hl; [|done].
    destruct (lookup2_resolve_sound E nsm m x n Hres Hl)
      as [[Hp ->]|(Hlen' & Hm & ->)].
    + rewrite Hp in Hlen. simpl in Hlen. lia.
    + rewrite (Hnr n m Hlen' Hm) in Hlen. simpl in Hlen. lia.
  - intros m p n Hl. by apply (lookup2_resolve_sound E nsm).
Qed.

(** ** C5 *)

(** C5, amended. Every miner has one bucket, and within a bucket a public
    name is bound once, to one native name. Provided the miners that are
    enumerated have pairwise different type names without ['_'], and no
    modified name [n_T] is itself a name that some miner yields, no public
    name is in the buckets of two miners. *)
Theorem public_names_unique E :
  ∃ nsm, resolve E = Returned nsm ∧
    NoDup (PyDict.keys nsm) ∧
    (∀ m b, PyDict.get nsm m = Some b →
       NoDup (PyDict.keys b) ∧
       ∀ p n1 n2, (p, n1) ∈ b → (p, n2) ∈ b → n1 = n2) ∧
    ((∀ m1 m2, m1 ∈ E.*1 → m2 ∈ E.*1 →
        miner_type_name m1 = miner_type_name m2 → m1 = m2) →
     (∀ m, m ∈ E.*1 → contains_char "_" (miner_type_name m) = false) →
     no_recollision E →
     ∀ m1 m2 p, public_name nsm m1 p → public_name nsm m2 p → m1 = m2).
Proof.
  eexists. split; [apply resolve_Returned|].
  pose proof (resolve_Returned E) as Hres.
  set (nsm := foldl assign [] (name_miner_map E ≫= registrations_of)) in *.
  destruct (wf_resolve E nsm Hres) as [Hk Hb]. split_and!; [done | |].
  - intros m b Hm. split; [by eapply Hb|]. intros p n1 n2 H1 H2.
    apply get_Some_elem_of in H1, H2; [|by eapply Hb..]. congruence.
  - intros Hinj Hus Hnr m1 m2 p [n1 H1] [n2 H2].
    apply (lookup2_resolve_sound E nsm _ _ _ Hres) in H1, H2.
    destruct H1 as [[Hp1 ->]|(Hlen1 & Hm1 & ->)], H2 as [[Hp2 E2]|(Hlen2 & Hm2 & E2)].
    + subst n2. rewrite Hp1 in Hp2. by injection Hp2.
    + subst n1. rewrite (Hnr n2 m2 Hlen2 Hm2) in Hp1. done.
    + subst n2. rewrite (Hnr n1 m1 Hlen1 Hm1) in Hp2. done.
    + apply producers_miner in Hm1 as Hin1. apply producers_miner in Hm2 as Hin2.
      apply modified_inj in E2 as [_ ET]; auto.
Qed.

(** ** C10 *)

(** C10, amended. When the enumeration of one miner yields a native name
    twice, that miner is at least twice among the producers of the name,
    the second loop takes the collision branch for it, and the modified name, the
    native name followed by ['_'] and the type name of the miner, is a
    public name of that miner. The native name is bound to itself in no
    bucket: where it is a public name at all, it is the modified name of
    another native name with two or more producer entries. *)
Theorem duplicate_yield_collides E m l1 l2 l3 x :
  (m, l1 ++ x :: l2 ++ x :: l3) ∈ E →
  ∃ nsm, resolve E = Returned nsm ∧
    2 ≤ length (filter (λ m', m' = m) (producers E x)) ∧
    (x, producers E x) ∈ name_miner_map E ∧
    (∀ nsm0, resolve_item nsm0 (x, producers E x)
             = Returned (foldl (λ nsm1 m', register nsm1 m' (modified x m') x)
                           nsm0 (producers E x))) ∧
    public_name nsm m (modified x m) ∧
    (∀ m', lookup2 nsm m' x ≠ Some x) ∧
    (∀ m' n, lookup2 nsm m' x = Some n →
       1 < length (producers E n) ∧ m' ∈ producers E n ∧ x = modified n m') ∧
    ((∀ n m', 1 < length (producers E n) → m' ∈ producers E n → x ≠ modified n m') →
     ∀ m', lookup2 nsm m' x = None).
Proof.
  intros Hin. eexists. split; [apply resolve_Returned|].
  pose proof (resolve_Returned E) as Hres.
  set (nsm := foldl assign [] (name_miner_map E ≫= registrations_of)) in *.
  assert (Hcount : 2 ≤ length (filter (λ m', m' = m) (producers E x))).
  { apply list_elem_of_split in Hin as (E1 & E2 & ->).
    rewrite producers_app, producers_cons, !filter_app, !length_app.
    rewrite filter_replicate_same, length_replicate.
    rewrite (filter_cons_True _ x) by done.
    rewrite filter_app, (filter_cons_True _ x) by done.
    simpl. rewrite !length_app. simpl. lia. }
  assert (Hlen : 1 < length (producers E x)).
  { pose proof (length_filter (λ m', m' = m) (producers E x)). lia. }
  assert (Hm : m ∈ producers E x).
  { apply elem_of_producers. eexists. split; [done|].
    rewrite elem_of_app. right. left. }
  assert (Hsound : ∀ m' n, lookup2 nsm m' x = Some n →
            1 < length (producers E n) ∧ m' ∈ producers E n ∧ x = modified n m').
  { intros m' n Hl.
    destruct (lookup2_resolve_sound E nsm m' x n Hres Hl) as [[Hp ->]|?]; [|done].
    rewrite Hp in Hlen. simpl in Hlen. lia. }
  split_and!; [done | | | | | done |].
  - apply elem_of_name_miner_map. split; [done|].
    intros Hp. rewrite Hp in Hlen. simpl in Hlen. lia.
  - intros nsm0. simpl. by rewrite decide_True.
  - assert (Hr : registered E m (modified x m) x) by by right.
    destruct (lookup2_resolve_complete E nsm m _ x Hres Hr) as (n' & Hn' & _).
    by exists n'.
  - intros m' (_ & _ & Hx)%Hsound. symmetry in Hx. by apply modified_ne in Hx.
  - intros Hfresh m'. destruct (lookup2 nsm m' x) as [n|] eqn:Hl; [|done].
    apply Hsound in Hl as (? & ? & ?). by edestruct Hfresh.
Qed.

End resolver.

(** *** The three claims on concrete miners *)

(** C1 as stated fails: with two miners of types [A] and [B] that both yield
    [x] and [x_A], the native name [x_A] has two producers and is a public
    name all the same, that of [x] in the bucket of the first miner. *)
Lemma resolver_entries_counterexample :
  let E := [(Miner 0, ["x"; "x_A"]); (Miner 1, ["x"; "x_A"])] in
  let C := sample (λ m, match m with Miner 0 => "A" | _ => "B" end) (λ _, ["x"; "x_A"]) in
  producers E "x_A" = [Miner 0; Miner 1] ∧
  ∃ nsm, @resolve string C E = Returned nsm ∧
         lookup2 nsm (Miner 0) "x_A" = Some "x".
Proof. split; [done|]. eexists. split; [vm_compute; reflexivity | done]. Qed.

Lemma resolver_entries_witness :
  @no_recollision string items_sample items_miners ∧
  ∃ nsm, @resolve string items_sample items_miners = Returned nsm ∧
    lookup2 nsm (Miner 0) "blueprints" = Some "blueprints" ∧
    lookup2 nsm (Miner 1) "items_MinerB" = Some "items" ∧
    lookup2 nsm (Miner 1) "items" = None.
Proof.
  assert (H : @no_recollision string items_sample items_miners).
  { by apply no_recollisionb_correct. }
  split; [exact H|].
  destruct (@resolver_entries string items_sample items_miners H)
    as (nsm & Hres & Hid & Hmod & Hbare & _).
  exists nsm. split_and!; [done | | |].
  - by apply Hid.
  - apply (Hmod "items" (Miner 1)); [simpl; lia|]. right. left.
  - apply Hbare. simpl. lia.
Defined.

(** C5 as stated fails: two miners of one type [M] that both yield [x] both
    have the public name [x_M]. *)
Lemma public_names_unique_counterexample :
  let E := [(Miner 0, ["x"]); (Miner 1, ["x"])] in
  let C := sample (λ _, "M") (λ _, ["x"]) in
  ∃ nsm, @resolve string C E = Returned nsm ∧
         public_name nsm (Miner 0) "x_M" ∧ public_name nsm (Miner 1) "x_M" ∧
         Miner 0 ≠ Miner 1.
Proof.
  eexists. split; [vm_compute; reflexivity|]. split_and!; [by eexists.. | done].
Qed.

Lemma public_names_unique_witness :
  ∃ nsm, @resolve string items_sample items_miners = Returned nsm ∧
    ∀ m1 m2 p, public_name nsm m1 p → public_name nsm m2 p → m1 = m2.
Proof.
  destruct (@public_names_unique string items_sample items_miners)
    as (nsm & Hres & _ & _ & Huniq).
  exists nsm. split; [done|]. apply Huniq.
  - intros m1 m2 H1 H2.
    apply elem_of_cons in H1 as [->|H1]; [|apply list_elem_of_singleton in H1 as ->];
    (apply elem_of_cons in H2 as [->|H2]; [|apply list_elem_of_singleton in H2 as ->]);
    done.
  - intros m Hm.
    apply elem_of_cons in Hm as [->|Hm]; [|apply list_elem_of_singleton in Hm as ->];
    done.
  - by apply no_recollisionb_correct.
Defined.

(** C10 as stated fails: a miner of type [T] yields [a_T] twice and [a]
    twice; the bare native name [a_T] is a public name, that of [a]. *)
Lemma duplicate_yield_counterexample :
  let E := [(Miner 0, ["a_T"; "a_T"; "a"; "a"])] in
  let C := sample (λ _, "T") (λ _, ["a_T"; "a_T"; "a"; "a"]) in
  producers E "a_T" = [Miner 0; Miner 0] ∧
  ∃ nsm, @resolve string C E = Returned nsm ∧
         lookup2 nsm (Miner 0) "a_T" = Some "a".
Proof. split; [done|]. eexists. split; [vm_compute; reflexivity | done]. Qed.

Lemma duplicate_yield_collides_witness :
  (Miner 0, [] ++ "x" :: [] ++ "x" :: []) ∈ [(Miner 0, ["x"; "x"])] ∧
  ∃ nsm, @resolve string (sample (λ _, "T") (λ _, ["x"; "x"]))
           [(Miner 0, ["x"; "x"])] = Returned nsm ∧
         public_name nsm (Miner 0) "x_T" ∧
         ∀ m', lookup2 nsm m' "x" ≠ Some "x".
Proof.
  assert (H : (Miner 0, [] ++ "x" :: [] ++ "x" :: []) ∈ [(Miner 0, ["x"; "x"])]).
  { left. }
  split; [exact H|].
  destruct (@duplicate_yield_collides string (sample (λ _, "T") (λ _, ["x"; "x"]))
              _ _ _ _ _ _ H) as (nsm & Hres & _ & _ & _ & Hpub & Hbare & _).
  by exists nsm.
Defined.

(** ** sorted *)

Section sorted_facts.
Context {A K : Type} (R : relation K) `{!RelDecision R} (key : A → K).

Lemma sorted_insert_Permutation x l : sorted_insert R key x l ≡ₚ x :: l.
Proof.
  induction l as [|y l IH]; simpl; [done|].
  case_decide; [done|]. rewrite IH. apply Permutation_swap.
Qed.

Lemma sorted_by_Permutation l : sorted_by R key l ≡ₚ l.
Proof.
  induction l as [|x l IH]; simpl; [done|].
  by rewrite sorted_insert_Permutation, IH.
Qed.

Lemma sorted_insert_StronglySorted `{!Total R, !Transitive R} x l :
  StronglySorted (λ a b, R (key a) (key b)) l →
  StronglySorted (λ a b, R (key a) (key b)) (sorted_insert R key x l).
Proof.
  induction 1 as [|y l Hl IH Hy]; simpl.
  - repeat constructor.
  - case_decide as Hxy.
    + constructor; [by constructor|]. constructor; [done|].
      eapply Forall_impl; [done|]. simpl. intros z Hz. by etrans.
    + constructor; [done|]. rewrite sorted_insert_Permutation.
      constructor; [|done]. by destruct (total R (key x) (key y)).
Qed.

Lemma sorted_by_StronglySorted `{!Total R, !Transitive R} l :
  StronglySorted (λ a b, R (key a) (key b)) (sorted_by R key l).
Proof.
  induction l as [|x l IH]; simpl; [constructor|].
  by apply sorted_insert_StronglySorted.
Qed.

End sorted_facts.

Lemma sorted_names_Permutation (s : gset string) : sorted_names s ≡ₚ elements s.
Proof. apply sorted_by_Permutation. Qed.

Lemma sorted_names_StronglySorted (s : gset string) :
  StronglySorted String.le (sorted_names s).
Proof. apply (sorted_by_StronglySorted String.le id). Qed.

Lemma elem_of_sorted_names (s : gset string) p : p ∈ sorted_names s ↔ p ∈ s.
Proof. by rewrite sorted_names_Permutation, elem_of_elements. Qed.

Lemma NoDup_sorted_names (s : gset string) : NoDup (sorted_names s).
Proof. rewrite sorted_names_Permutation. apply NoDup_elements. Qed.

Lemma sorted_names_nil (s : gset string) : sorted_names s = [] ↔ s = ∅.
Proof.
  split.
  - intros H. apply set_eq. intros p. rewrite <-elem_of_sorted_names, H.
    rewrite elem_of_nil. set_solver.
  - intros ->. apply Permutation_nil_r. rewrite sorted_names_Permutation.
    by rewrite elements_empty.
Qed.

(** *** list.index *)

Section index_facts.
Context {A : Type} `{EqDecision A}.
Implicit Types l : list A.

Lemma index_elem_of l x : x ∈ l → ∃ i, index l x = Returned i.
Proof.
  induction l as [|y l IH]; [by intros ?%elem_of_nil|].
  intros Hx. simpl. case_decide as Hy; [by exists 0|].
  apply elem_of_cons in Hx as [->|Hx]; [done|].
  destruct (IH Hx) as [i ->]. by exists (S i).
Qed.

Lemma index_Returned l x i : index l x = Returned i → l !! i = Some x.
Proof.
  revert i. induction l as [|y l IH]; intros i; simpl; [done|].
  case_decide as Hy; [by intros [= <-]; subst|].
  destruct (index l x) as [j|] eqn:E; simpl; [|done].
  intros [= <-]. by apply IH.
Qed.

Lemma index_inj l x y i : index l x = Returned i → index l y = Returned i → x = y.
Proof. intros Hx%index_Returned Hy%index_Returned. congruence. Qed.

End index_facts.

Lemma StronglySorted_impl_elem_of {A} (R1 R2 : relation A) l :
  (∀ x y, x ∈ l → y ∈ l → R1 x y → R2 x y) →
  StronglySorted R1 l → StronglySorted R2 l.
Proof.
  intros H Hl. induction Hl as [|x l Hl IH Hx]; constructor.
  - apply IH. intros y z Hy Hz. apply H; by right.
  - apply Forall_forall. intros y Hy. apply H; [left | by right|].
    rewrite Forall_forall in Hx. by apply Hx.
Qed.

(** ** The order of the miners *)

Section order.
Implicit Types miners : list miner.
Implicit Types nsm : namespace.

Lemma position_index miners m :
  m ∈ miners → index miners m = Returned (position miners m).
Proof. intros [i Hi]%index_elem_of. unfold position. by rewrite Hi. Qed.

Lemma mapM_index miners (ks : list miner) :
  ks ⊆ miners →
  result_mapM (λ m, i ← index miners m; mret (i, m)) ks
  = Returned ((λ m, (position miners m, m)) <$> ks).
Proof.
  induction ks as [|k ks IH]; intros Hks; [done|].
  simpl. rewrite position_index by (apply Hks; left). simpl.
  rewrite IH; [done|]. intros m Hm. apply Hks. by right.
Qed.

Lemma sorted_miners_Returned miners nsm :
  PyDict.keys nsm ⊆ miners →
  sorted_miners miners nsm
  = Returned (sorted_by le fst
                ((λ m, (position miners m, m)) <$> PyDict.keys nsm)).*2.
Proof. intros Hks. unfold sorted_miners. by rewrite mapM_index. Qed.

(** [sorted] never raises here, and what it returns is the keys of the
    namespace in the order of their first registration. *)
Lemma sorted_miners_spec miners nsm :
  PyDict.keys nsm ⊆ miners →
  ∃ order, sorted_miners miners nsm = Returned order ∧
           order ≡ₚ PyDict.keys nsm ∧
           StronglySorted (registered_before miners) order.
Proof.
  intros Hks. rewrite sorted_miners_Returned by done. eexists. split; [done|].
  set (D := (λ m, (position miners m, m)) <$> PyDict.keys nsm).
  assert (HD : D.*2 = PyDict.keys nsm).
  { unfold D. rewrite <-list_fmap_compose. apply list_fmap_id. }
  split.
  - rewrite <-HD. apply fmap_Permutation, sorted_by_Permutation.
  - apply (StronglySorted_fmap _ (λ a b : nat * miner, registered_before miners a.2 b.2));
      [done|].
    eapply StronglySorted_impl_elem_of; [|apply (sorted_by_StronglySorted le fst)].
    intros [i a] [j b]. rewrite !sorted_by_Permutation. unfold D.
    intros (m1 & [= -> ->] & H1)%list_elem_of_fmap (m2 & [= -> ->] & H2)%list_elem_of_fmap.
    simpl. intros Hle. exists (position miners m1), (position miners m2).
    split_and!; [by apply position_index, Hks.. | done].
Qed.

(** The order does not depend on the order in which the namespace lists
    its keys. *)
Lemma sorted_miners_Permutation miners nsm nsm' :
  PyDict.keys nsm ⊆ miners →
  PyDict.keys nsm' ≡ₚ PyDict.keys nsm →
  sorted_miners miners nsm' = sorted_miners miners nsm.
Proof.
  intros Hks Hperm.
  assert (Hks' : PyDict.keys nsm' ⊆ miners).
  { intros m Hm. apply Hks. by rewrite <-Hperm. }
  rewrite !sorted_miners_Returned by done. do 2 f_equal.
  apply (StronglySorted_unique_strong (λ a b : nat * miner, a.1 ≤ b.1)).
  - intros [i a] [j b]. rewrite !sorted_by_Permutation.
    intros (m1 & [= -> ->] & H1)%list_elem_of_fmap (m2 & [= -> ->] & H2)%list_elem_of_fmap.
    simpl. intros. f_equal; [lia|].
    apply (index_inj miners m1 m2 (position miners m1)).
    + by apply position_index, Hks'.
    + replace (position miners m1) with (position miners m2) by lia.
      by apply position_index, Hks.
  - apply (sorted_by_StronglySorted le fst).
  - apply (sorted_by_StronglySorted le fst).
  - rewrite !sorted_by_Permutation. by apply fmap_Permutation.
Qed.

End order.

(** ** Method bodies *)

Section io_facts.
Context {Data : Type}.
Implicit Types self : FlowManager.
Implicit Types h t : list (event Data).

Lemma bind_Returned {A B} (m : io Data A) (f : A → io Data B) self h t1 self1 a :
  m self h = (t1, self1, Returned a) →
  (m ≫= f) self h
  = match f a self1 (h ++ t1) with (t2, self2, r) => (t1 ++ t2, self2, r) end.
Proof. intros H. unfold mbind, io_bind. by rewrite H. Qed.

Lemma bind_Raised {A B} (m : io Data A) (f : A → io Data B) self h t1 self1 e :
  m self h = (t1, self1, Raised e) →
  (m ≫= f) self h = (t1, self1, Raised e).
Proof. intros H. unfold mbind, io_bind. by rewrite H. Qed.

Lemma bind_silent {A B} (m : io Data A) (f : A → io Data B) self h a :
  m self h = ([], self, Returned a) → (m ≫= f) self h = f a self h.
Proof.
  intros H. rewrite (bind_Returned _ _ _ _ _ _ _ H), app_nil_r.
  by destruct (f a self h) as [[??]?].
Qed.

Lemma bind_read {A B} (attr : FlowManager → A) (f : A → io Data B) self h :
  (read attr ≫= f) self h = f (attr self) self h.
Proof. by apply bind_silent. Qed.

Lemma bind_lift_Returned {A B} (a : A) (f : A → io Data B) self h :
  (lift (Returned a) ≫= f) self h = f a self h.
Proof. by apply bind_silent. Qed.

Lemma bind_lift_Raised {A B} e (f : A → io Data B) self h :
  (lift (Raised e) ≫= f) self h = ([], self, Raised e).
Proof. by apply bind_Raised. Qed.

Lemma bind_mret {A B} (a : A) (f : A → io Data B) self h :
  (mret a ≫= f) self h = f a self h.
Proof. by apply bind_silent. Qed.

Lemma bind_emit {B} (ev : event Data) (f : unit → io Data B) self h :
  (emit ev ≫= f) self h
  = match f () self (h ++ [ev]) with (t2, self2, r) => (ev :: t2, self2, r) end.
Proof. by apply bind_Returned. Qed.

Lemma bind_raise {A B} e (f : A → io Data B) self h :
  (raise e ≫= f) self h = ([], self, Raised e).
Proof. by apply bind_Raised. Qed.

End io_facts.

(** ** The property [_name_source_map] *)

Section run_facts.
Context {Data : Type} `{!Collaborators Data}.
Implicit Types self : FlowManager.
Implicit Types h t : list (event Data).
Implicit Types nsm : namespace.

(** The calls that computing the namespace makes: one [contname_iter] for
    each registered miner, in order. *)
Lemma enumerate_spec miners : ∀ self h,
  ∃ t E, enumerate miners self h = (t, self, Returned E) ∧
         E.*1 = miners ∧
         Forall2 (λ ev y, ev = CallContnameIter y.1 y.2) t E.
Proof.
  induction miners as [|m miners IH]; intros self h.
  - exists [], []. by repeat split; constructor.
  - simpl enumerate.
    destruct (IH self (h ++ [CallContnameIter m (contname_iter m h)]))
      as (t & E & HE & Hm & Ht).
    erewrite bind_Returned by reflexivity.
    erewrite bind_Returned by exact HE. simpl.
    exists (CallContnameIter m (contname_iter m h) :: t),
           ((m, contname_iter m h) :: E).
    rewrite app_nil_r. split_and!; [done | by rewrite <-Hm | by constructor].
Qed.

Lemma keys_foldl_assign log : ∀ nsm,
  PyDict.keys (foldl assign nsm log) ⊆ PyDict.keys nsm ++ log.*1.*1.
Proof.
  induction log as [|[[m p] n] log IH]; intros nsm; simpl.
  - by rewrite app_nil_r.
  - etrans; [apply IH|]. intros m0. rewrite !elem_of_app, elem_of_cons.
    intros [Hm0|?]; [|auto].
    apply elem_of_keys_get in Hm0 as [b Hb]. unfold assign in Hb. simpl in Hb.
    rewrite get_register in Hb. case_decide; [by subst; auto|].
    left. apply elem_of_keys_get. eauto.
Qed.

Lemma keys_resolve E nsm : resolve E = Returned nsm → PyDict.keys nsm ⊆ E.*1.
Proof.
  rewrite resolve_Returned. intros [= <-] m Hm.
  apply keys_foldl_assign in Hm. simpl in Hm.
  apply list_elem_of_fmap in Hm as ([m' p] & -> & Hm).
  apply list_elem_of_fmap in Hm as ([[m'' p'] n] & [= -> ->] & Hm).
  apply elem_of_registrations in Hm as [[Hp _]|(_ & Hm & _)].
  - apply (producers_miner E m'' n). rewrite Hp. left.
  - by apply (producers_miner E m'' n).
Qed.

(** The first access computes the namespace from the registered miners
    and stores it; an access that finds a namespace returns it and does
    nothing else. *)
Lemma name_source_map_spec self h :
  match __name_source_map self with
  | Some nsm => _name_source_map self h = ([], self, Returned nsm)
  | None =>
      ∃ t E nsm,
        _name_source_map self h
        = (t, {| _miners := _miners self; _writers := _writers self;
                 __name_source_map := Some nsm |}, Returned nsm) ∧
        E.*1 = _miners self ∧
        Forall2 (λ ev y, ev = CallContnameIter y.1 y.2) t E ∧
        resolve E = Returned nsm
  end.
Proof.
  unfold _name_source_map. rewrite bind_read.
  destruct (__name_source_map self) as [nsm|]; [done|].
  rewrite bind_read.
  destruct (enumerate_spec (_miners self) self h) as (t & E & HE & Hm & Ht).
  erewrite bind_Returned by exact HE.
  pose proof (resolve_Returned E) as Hres. rewrite Hres, bind_lift_Returned.
  exists t, E. eexists. simpl. rewrite !app_nil_r. by split_and!.
Qed.

Lemma cache_ok_init miners writers : cache_ok (__init__ miners writers).
Proof. by intros nsm. Qed.

Lemma name_source_map_cache_ok self h t self' r :
  cache_ok self → _name_source_map self h = (t, self', r) →
  ∃ nsm, r = Returned nsm ∧ __name_source_map self' = Some nsm ∧
         _miners self' = _miners self ∧ _writers self' = _writers self ∧
         cache_ok self'.
Proof.
  intros Hok Hrun. pose proof (name_source_map_spec self h) as H.
  destruct (__name_source_map self) as [nsm|] eqn:Hc.
  - rewrite Hrun in H. injection H as -> -> ->. by exists nsm.
  - destruct H as (t' & E & nsm & H & Hm & _ & Hres). rewrite Hrun in H.
    injection H as -> -> ->. exists nsm. split_and!; [done..|].
    intros nsm' [= <-]. simpl. split.
    + by apply (wf_resolve E).
    + rewrite <-Hm. by apply keys_resolve.
Qed.

(** ** The loops of [run] *)

Lemma finish_None {A} (a : A) : finish None a = Returned a.
Proof. done. Qed.

Lemma elem_of_containers (bucket : list (string * string)) (fs : gset string) p :
  p ∈ containers bucket fs ↔ is_Some (PyDict.get bucket p) ∧ (fs ≠ ∅ → p ∈ fs).
Proof.
  unfold containers. case_decide as Hfs.
  - rewrite elem_of_list_to_set, elem_of_keys_get. tauto.
  - rewrite elem_of_intersection, elem_of_list_to_set, elem_of_keys_get. tauto.
Qed.

Lemma writers_loop_conforms ws p d : ∀ self h,
  ∃ t ab, writers_loop ws p d self h = (t, self, finish ab ()) ∧
          blocks (write_block p d) ws t ab.
Proof.
  induction ws as [|w ws IH]; intros self h.
  - exists [], None. split; [done | constructor].
  - simpl writers_loop. erewrite bind_Returned by reflexivity.
    destruct (write w p d h) as [[]|e] eqn:Hw.
    + rewrite bind_mret.
      destruct (IH self (h ++ [CallWrite w p d (Returned ())])) as (t & ab & -> & Hb).
      exists ([CallWrite w p d (Returned ())] ++ t), ab.
      split; [done|]. apply blocks_cons; [constructor | done].
    + unfold except. destruct (kind e) eqn:Hk.
      * rewrite bind_raise. exists [CallWrite w p d (Raised e)], (Some e).
        split; [done|]. apply blocks_abort, write_abort. by rewrite Hk.
      * rewrite bind_emit.
        destruct (IH self ((h ++ [CallWrite w p d (Raised e)])
                    ++ [PrintWriteFailed (writer_type_name w) (exn_type e) (exn_msg e)]))
          as (t & ab & -> & Hb).
        exists ([CallWrite w p d (Raised e);
                 PrintWriteFailed (writer_type_name w) (exn_type e) (exn_msg e)] ++ t), ab.
        split; [done|]. apply blocks_cons; [by constructor | done].
      * rewrite bind_raise. exists [CallWrite w p d (Raised e)], (Some e).
        split; [done|]. apply blocks_abort, write_abort. by rewrite Hk.
Qed.

Lemma names_loop_conforms m (bucket : list (string * string)) names :
  (∀ p, p ∈ names → is_Some (PyDict.get bucket p)) →
  ∀ (ps : gset string) self h,
  ∃ t ab,
    names_loop m bucket names ps self h
    = (t, self, finish ab (list_to_set names ∪ ps)) ∧
    blocks (name_block (_writers self) m bucket) names t ab.
Proof.
  induction names as [|p names IH]; intros Hnames ps self h.
  - exists [], None. split; [|constructor].
    simpl. by rewrite (left_id_L ∅ (∪)).
  - simpl names_loop. rewrite bind_emit.
    destruct (Hnames p) as [src Hsrc]; [left|]. rewrite Hsrc, bind_lift_Returned.
    erewrite bind_Returned by reflexivity.
    assert (Hnames' : ∀ q, q ∈ names → is_Some (PyDict.get bucket q)).
    { intros q Hq. apply Hnames. by right. }
    assert (Hset : ∀ ab, finish ab (list_to_set names ∪ ({[p]} ∪ ps))
                         = finish ab (list_to_set (p :: names) ∪ ps)).
    { intros ab. f_equal. rewrite list_to_set_cons.
      apply set_eq. intros q. rewrite !elem_of_union. tauto. }
    destruct (get_data m src (h ++ [PrintProcessing p])) as [d|e] eqn:Hg.
    + destruct (writers_loop_conforms (_writers self) p d self
                  ((h ++ [PrintProcessing p]) ++ [CallGetData m src (Returned d)]))
        as (tw & [e|] & Hw & Hb);
        rewrite <-(bind_read _writers (λ writers, writers_loop writers p d)) in Hw.
      * erewrite bind_Raised by exact Hw.
        exists (PrintProcessing p :: CallGetData m src (Returned d) :: tw), (Some e).
        split; [done|]. apply blocks_abort. by constructor.
      * erewrite bind_Returned by exact Hw.
        destruct (IH Hnames' ({[p]} ∪ ps) self
                    (((h ++ [PrintProcessing p]) ++ [CallGetData m src (Returned d)]) ++ tw))
          as (t & ab & -> & Hbs).
        exists ((PrintProcessing p :: CallGetData m src (Returned d) :: tw) ++ t), ab.
        split; [by rewrite Hset|]. apply blocks_cons; [by constructor | done].
    + unfold except. destruct (kind e) eqn:Hk.
      * rewrite bind_raise.
        exists [PrintProcessing p; CallGetData m src (Raised e)], (Some e).
        split; [done|]. apply blocks_abort, fetch_abort; [done|]. by rewrite Hk.
      * rewrite bind_emit.
        destruct (IH Hnames' ({[p]} ∪ ps) self
                    (((h ++ [PrintProcessing p]) ++ [CallGetData m src (Raised e)])
                       ++ [PrintFetchFailed (exn_type e) (exn_msg e)]))
          as (t & ab & -> & Hbs).
        exists ([PrintProcessing p; CallGetData m src (Raised e);
                 PrintFetchFailed (exn_type e) (exn_msg e)] ++ t), ab.
        split; [by rewrite Hset|]. apply blocks_cons; [by constructor | done].
      * rewrite bind_raise.
        exists [PrintProcessing p; CallGetData m src (Raised e)], (Some e).
        split; [done|]. apply blocks_abort, fetch_abort; [done|]. by rewrite Hk.
Qed.

Lemma selected_cons nsm (fs : gset string) m order :
  selected nsm fs (m :: order)
  = containers (default [] (PyDict.get nsm m)) fs ∪ selected nsm fs order.
Proof. done. Qed.

Lemma miners_loop_conforms nsm (fs : gset string) order : ∀ (ps : gset string) self h,
  __name_source_map self = Some nsm →
  (∀ m, m ∈ order → is_Some (PyDict.get nsm m)) →
  ∃ t ab,
    miners_loop order fs ps self h
    = (t, self, finish ab (selected nsm fs order ∪ ps)) ∧
    blocks (miner_block (_writers self) nsm fs) order t ab.
Proof.
  induction order as [|m order IH]; intros ps self h Hc Horder.
  - exists [], None. split; [|constructor].
    unfold selected. simpl. by rewrite (left_id_L ∅ (∪)).
  - simpl miners_loop.
    pose proof (name_source_map_spec self h) as Hn. rewrite Hc in Hn.
    rewrite (bind_silent _ _ _ _ _ Hn).
    destruct (Horder m) as [bucket Hb]; [left|]. rewrite Hb, bind_lift_Returned.
    assert (Horder' : ∀ m', m' ∈ order → is_Some (PyDict.get nsm m')).
    { intros m' Hm'. apply Horder. by right. }
    rewrite selected_cons, Hb. simpl.
    case_decide as Hempty.
    + destruct (IH ps self h Hc Horder') as (t & ab & -> & Hbs).
      exists ([] ++ t), ab. split.
      * simpl. by rewrite Hempty, (left_id_L ∅ (∪)).
      * apply blocks_cons; [by eapply miner_skipped | done].
    + rewrite bind_emit.
      destruct (names_loop_conforms m bucket (sorted_names (containers bucket fs))
                  ltac:(intros p Hp%elem_of_sorted_names%elem_of_containers; tauto)
                  ps self (h ++ [PrintMiner (miner_type_name m)]))
        as (tn & [e|] & Hl & Hbn).
      * erewrite bind_Raised by exact Hl.
        exists (PrintMiner (miner_type_name m) :: tn), (Some e).
        split; [done|]. apply blocks_abort. by eapply miner_visited.
      * erewrite bind_Returned by exact Hl.
        destruct (IH (list_to_set (sorted_names (containers bucket fs)) ∪ ps) self
                    ((h ++ [PrintMiner (miner_type_name m)]) ++ tn) Hc Horder')
          as (t & ab & -> & Hbs).
        exists ((PrintMiner (miner_type_name m) :: tn) ++ t), ab. split.
        -- simpl. do 2 f_equal.
           assert (list_to_set (sorted_names (containers bucket fs))
                   = containers bucket fs) as ->.
           { apply set_eq. intros p.
             by rewrite elem_of_list_to_set, elem_of_sorted_names. }
           apply set_eq. intros q. rewrite !elem_of_union. tauto.
        -- apply blocks_cons; [by eapply miner_visited | done].
Qed.

Lemma print_missing_spec (l : list string) self : ∀ h,
  foldr (λ modified_name k, emit (PrintMissing modified_name) ≫= λ _ : (), k)
    (mret ()) l self h
  = (PrintMissing <$> l, self, Returned ()).
Proof.
  induction l as [|p l IH]; intros h; [done|].
  simpl. by rewrite bind_emit, IH.
Qed.

Lemma report_missing_spec (fs ps : gset string) self h :
  report_missing fs ps self h = (report fs ps, self, Returned ()).
Proof.
  unfold report_missing, report. repeat case_decide; [done..|].
  by rewrite bind_emit, print_missing_spec.
Qed.

(** A malformed filter ends [run] before anything else happens. *)
Lemma run_parse_error filter_string e self h :
  _parse_filter filter_string = Raised e →
  run filter_string self h = ([], self, Raised e).
Proof. intros Hp. unfold run. by rewrite Hp, bind_lift_Raised. Qed.

(** The whole of [run] on a filter that parses: the property is read, the
    miners are put in order, each gets its block, and the report follows
    unless an exception has left the loop. *)
Lemma run_conforms filter_string (fs : gset string) self h :
  cache_ok self →
  _parse_filter filter_string = Returned fs →
  ∃ t0 self' nsm order t1 ab,
    _name_source_map self h = (t0, self', Returned nsm) ∧
    __name_source_map self' = Some nsm ∧
    _miners self' = _miners self ∧ _writers self' = _writers self ∧
    cache_ok self' ∧
    sorted_miners (_miners self) nsm = Returned order ∧
    order ≡ₚ PyDict.keys nsm ∧
    StronglySorted (registered_before (_miners self)) order ∧
    blocks (miner_block (_writers self) nsm fs) order t1 ab ∧
    run filter_string self h
    = (t0 ++ t1 ++ match ab with
                   | None => report fs (selected nsm fs order)
                   | Some _ => []
                   end, self', finish ab ()).
Proof.
  intros Hok Hparse.
  destruct (_name_source_map self h) as [[t0 self'] r] eqn:Hn.
  destruct (name_source_map_cache_ok self h t0 self' r Hok Hn)
    as (nsm & -> & Hc & Hm & Hw & Hok').
  destruct (Hok' nsm Hc) as [Hnd Hsub]. rewrite Hm in Hsub.
  destruct (sorted_miners_spec (_miners self) nsm Hsub) as (order & Hs & Hperm & Hsorted).
  assert (Horder : ∀ m, m ∈ order → is_Some (PyDict.get nsm m)).
  { intros m Hin. apply elem_of_keys_get. by rewrite <-Hperm. }
  destruct (miners_loop_conforms nsm fs order ∅ self' (h ++ t0) Hc Horder)
    as (t1 & ab & Hl & Hb).
  rewrite Hw in Hb. rewrite (right_id_L ∅ (∪)) in Hl.
  exists t0, self', nsm, order, t1, ab. split_and!; [done..|].
  unfold run. rewrite Hparse, bind_lift_Returned, (left_id_L ∅ (∪)).
  erewrite bind_Returned by exact Hn.
  rewrite bind_read, Hm, Hs, bind_lift_Returned.
  destruct ab as [e|]; simpl in Hl.
  - erewrite bind_Raised by exact Hl. by rewrite app_nil_r.
  - erewrite bind_Returned by exact Hl. by rewrite report_missing_spec.
Qed.

(** ** Traces *)

Lemma app_eq_cons_split {X} (t1 t2 a b : list X) x :
  t1 ++ x :: t2 = a ++ b →
  (∃ a2, a = t1 ++ x :: a2 ∧ t2 = a2 ++ b) ∨
  (∃ b1, b = b1 ++ x :: t2 ∧ t1 = a ++ b1).
Proof.
  revert t1. induction a as [|y a IH]; intros t1 H; simpl in *.
  - right. by exists t1.
  - destruct t1 as [|z t1]; simpl in *.
    + injection H as -> ->. left. by exists a.
    + injection H as -> H. destruct (IH _ H) as [(a2 & -> & ->)|(b1 & -> & ->)].
      * left. by exists a2.
      * right. by exists b1.
Qed.

(** A projection of a sequence of blocks: that of the blocks one after the
    other, up to where an exception leaves. *)
Lemma blocks_bind {A X} (B : A → list (event Data) → option exn → Prop)
    (f : event Data → list X) (g : A → list X) xs t ab :
  (∀ x t, B x t None → t ≫= f = g x) →
  (∀ x t e, B x t (Some e) → (t ≫= f) `prefix_of` g x) →
  blocks B xs t ab →
  (t ≫= f) `prefix_of` (xs ≫= g) ∧ (ab = None → t ≫= f = xs ≫= g).
Proof.
  intros Hnone Hsome. induction 1 as [|x xs t1 t2 ab H1 H2 [IHp IHe]|x xs t1 e H1].
  - done.
  - rewrite bind_app, bind_cons, (Hnone _ _ H1). split.
    + by apply prefix_app.
    + intros Hab. by rewrite IHe.
  - split; [|done]. rewrite bind_cons. by apply prefix_app_r, (Hsome _ _ _ H1).
Qed.

(** *** Progress lines *)

Lemma bind_nil_const {A X} (xs : list A) : xs ≫= (λ _, @nil X) = [].
Proof. by induction xs. Qed.

Lemma bind_singleton_fmap {A X} (f : A → X) (xs : list A) :
  xs ≫= (λ x, [f x]) = f <$> xs.
Proof. induction xs; csimpl; by f_equal. Qed.

Lemma progress_writes p d ws t ab :
  blocks (write_block p d) ws t ab → progress t = [].
Proof.
  intros Hb.
  destruct (blocks_bind (write_block p d) progress_of (λ _, []) ws t ab) as [Hp _];
    [by intros w t' [] | by intros w t' e H; inversion H | done |].
  rewrite bind_nil_const in Hp. by apply prefix_nil_inv.
Qed.

Lemma progress_name ws m bucket p t ab :
  name_block ws m bucket p t ab → progress t = [PrintProcessing p].
Proof.
  intros [src e ?? | src e ?? | src d tw ab' ? Hb]; [done..|].
  change (progress (?a :: ?b :: tw)) with (a :: progress tw).
  by rewrite (progress_writes _ _ _ _ _ Hb).
Qed.

Lemma progress_names ws m bucket names t ab :
  blocks (name_block ws m bucket) names t ab →
  progress t `prefix_of` (PrintProcessing <$> names) ∧
  (ab = None → progress t = PrintProcessing <$> names).
Proof.
  intros Hb. rewrite <-bind_singleton_fmap.
  apply (blocks_bind (name_block ws m bucket) progress_of); [| |done].
  - intros p t' H. by apply progress_name in H.
  - intros p t' e H. apply progress_name in H. unfold progress in H. by rewrite H.
Qed.

Lemma progress_miners ws nsm (fs : gset string) order t ab :
  blocks (miner_block ws nsm fs) order t ab →
  progress t `prefix_of` plan nsm fs order ∧
  (ab = None → progress t = plan nsm fs order).
Proof.
  intros Hb. unfold plan.
  apply (blocks_bind (miner_block ws nsm fs) progress_of); [| |done].
  - intros m t' H. inversion H as [bucket Hg Hc | bucket tn ab' Hg Hc Hn]; subst.
    + rewrite Hg. simpl. apply sorted_names_nil in Hc. by rewrite Hc.
    + rewrite Hg. simpl. apply progress_names in Hn as [_ Hn].
      destruct (sorted_names (containers bucket fs)) eqn:Hs.
      { by apply sorted_names_nil in Hs. }
      change ((PrintMiner ?x :: tn) ≫= progress_of) with (PrintMiner x :: progress tn).
      f_equal. by apply Hn.
  - intros m t' e H. inversion H as [|bucket tn ab' Hg Hc Hn]; subst.
    rewrite Hg. simpl. apply progress_names in Hn as [Hn _].
    destruct (sorted_names (containers bucket fs)) eqn:Hs.
    { by apply sorted_names_nil in Hs. }
    change ((PrintMiner ?x :: tn) ≫= progress_of) with (PrintMiner x :: progress tn).
    by apply prefix_cons.
Qed.

(** *** How a trace ends *)

Lemma clean_app t1 t2 : clean (t1 ++ t2) ↔ clean t1 ∧ clean t2.
Proof.
  unfold clean. split.
  - intros H. split; intros ev e Hin; apply H; rewrite elem_of_app; auto.
  - intros [H1 H2] ev e [?|?]%elem_of_app; eauto.
Qed.

Lemma clean_nil : clean (@nil (event Data)).
Proof. by intros ev e ?%elem_of_nil. Qed.

Lemma clean_cons ev t : clean (ev :: t) ↔ (∀ e, raised_by ev = Some e → kind e = ExceptionKind) ∧ clean t.
Proof.
  unfold clean. split.
  - intros H. split; [intros e; apply H; left|]. intros ev' e Hin. apply H. by right.
  - intros [H1 H2] ev' e [->|?]%elem_of_cons; eauto.
Qed.

Lemma ends_app t1 t2 ab : clean t1 → ends t2 ab → ends (t1 ++ t2) ab.
Proof.
  destruct ab as [e|]; simpl.
  - intros H1 (t' & ev & -> & Ht' & Hev & He). exists (t1 ++ t'), ev.
    split_and!; [by rewrite app_assoc | by apply clean_app | done..].
  - intros. by apply clean_app.
Qed.

Lemma blocks_ends {A} (B : A → list (event Data) → option exn → Prop) xs t ab :
  (∀ x t ab, B x t ab → ends t ab) → blocks B xs t ab → ends t ab.
Proof.
  intros HB. induction 1 as [|x xs t1 t2 ab H1 H2 IH|x xs t1 e H1].
  - apply clean_nil.
  - apply ends_app; [|done]. by apply (HB _ _ _ H1).
  - by apply (HB _ _ _ H1).
Qed.

Lemma ends_write p d w t ab : write_block p d w t ab → ends t ab.
Proof.
  intros [|e He|e He]; simpl.
  - apply clean_cons. split; [done | apply clean_nil].
  - apply clean_cons. split; [by intros ? [= <-]|].
    apply clean_cons. split; [done | apply clean_nil].
  - exists [], (CallWrite w p d (Raised e)). split_and!; [done | apply clean_nil | done..].
Qed.

Lemma ends_name ws m bucket p t ab : name_block ws m bucket p t ab → ends t ab.
Proof.
  intros [src e ? He | src e ? He | src d tw ab' ? Hb].
  - apply clean_cons. split; [done|]. apply clean_cons. split; [by intros ? [= <-]|].
    apply clean_cons. split; [done | apply clean_nil].
  - exists [PrintProcessing p], (CallGetData m src (Raised e)).
    split_and!; [done | | done..].
    apply clean_cons. split; [done | apply clean_nil].
  - apply (ends_app [PrintProcessing p; CallGetData m src (Returned d)]).
    + apply clean_cons. split; [done|]. apply clean_cons. split; [done | apply clean_nil].
    + eapply blocks_ends; [|done]. apply ends_write.
Qed.

Lemma ends_miner ws nsm (fs : gset string) m t ab :
  miner_block ws nsm fs m t ab → ends t ab.
Proof.
  intros [bucket ?? | bucket tn ab' ?? Hb].
  - apply clean_nil.
  - apply (ends_app [PrintMiner (miner_type_name m)]).
    + apply clean_cons. split; [done | apply clean_nil].
    + eapply blocks_ends; [|done]. apply ends_name.
Qed.

(** A call that raises something other than an [Exception] is the last
    event, and what it raises leaves the body. *)
Lemma ends_last t ab t1 ev t2 e :
  ends t ab → t = t1 ++ ev :: t2 → raised_by ev = Some e →
  kind e ≠ ExceptionKind → t2 = [] ∧ ab = Some e.
Proof.
  intros Hends -> Hev He. destruct ab as [e0|]; simpl in Hends.
  - destruct Hends as (t' & ev0 & Heq & Hclean & Hev0 & He0).
    apply app_eq_cons_split in Heq as [(a2 & -> & _)|(b1 & Hb1 & _)].
    + destruct He. apply (Hclean ev e); [|done]. rewrite elem_of_app. right. left.
    + destruct b1 as [|? [|??]]; simplify_eq/=. split; [done|]. congruence.
  - destruct He. apply (Hends ev e); [|done]. rewrite elem_of_app. right. left.
Qed.

Lemma ends_clean t ab : ends t ab → clean t → ab = None.
Proof.
  destruct ab as [e|]; [|done]. intros (t' & ev & -> & _ & Hev & He) Hclean.
  destruct He. apply (Hclean ev e); [|done]. rewrite elem_of_app. right. left.
Qed.

(** *** Failures are reported *)

Lemma reported_app t1 t2 : reported t1 → reported t2 → reported (t1 ++ t2).
Proof.
  intros H1 H2 a ev b e Heq Hev He. symmetry in Heq.
  apply app_eq_cons_split in Heq as [(a2 & -> & ->)|(b1 & -> & ->)].
  - destruct (H1 a ev a2 e eq_refl Hev He) as (rep & t3 & Hrep & ->).
    by exists rep, (t3 ++ t2).
  - by apply (H2 b1 ev b e).
Qed.

Lemma reported_nil : reported (@nil (event Data)).
Proof. intros [|??] ????; done. Qed.

Lemma reported_no_raise t :
  Forall (λ ev, raised_by ev = None) t → reported t.
Proof.
  intros Hq a ev b e -> Hev _. rewrite Forall_forall in Hq.
  rewrite Hq in Hev; [done|]. rewrite elem_of_app. right. left.
Qed.

Lemma blocks_reported {A} (B : A → list (event Data) → option exn → Prop) xs t ab :
  (∀ x t ab, B x t ab → reported t) → blocks B xs t ab → reported t.
Proof.
  intros HB. induction 1 as [|x xs t1 t2 ab H1 H2 IH|x xs t1 e H1].
  - apply reported_nil.
  - apply reported_app; [|done]. by apply (HB _ _ _ H1).
  - by apply (HB _ _ _ H1).
Qed.

Lemma reported_write p d w t ab : write_block p d w t ab → reported t.
Proof.
  intros [|e He|e He].
  - apply reported_no_raise. by repeat constructor.
  - intros [|? [|? [|??]]] ev t2 e' Heq Hev He'; simplify_eq/=. eauto.
  - intros [|? [|??]] ev t2 e' Heq Hev He'; simplify_eq/=.
Qed.

Lemma reported_name ws m bucket p t ab : name_block ws m bucket p t ab → reported t.
Proof.
  intros [src e ? He | src e ? He | src d tw ab' ? Hb].
  - intros [|? [|? [|? [|??]]]] ev t2 e' Heq Hev He'; simplify_eq/=. eauto.
  - intros [|? [|? [|??]]] ev t2 e' Heq Hev He'; simplify_eq/=.
  - apply (reported_app [PrintProcessing p; CallGetData m src (Returned d)]).
    + apply reported_no_raise. by repeat constructor.
    + eapply blocks_reported; [|done]. apply reported_write.
Qed.

Lemma reported_miner ws nsm (fs : gset string) m t ab :
  miner_block ws nsm fs m t ab → reported t.
Proof.
  intros [bucket ?? | bucket tn ab' ?? Hb].
  - apply reported_nil.
  - apply (reported_app [PrintMiner (miner_type_name m)]).
    + apply reported_no_raise. by repeat constructor.
    + eapply blocks_reported; [|done]. apply reported_name.
Qed.

(** *** What is fetched and what is delivered *)

Lemma blocks_None_ind {A} (B : A → list (event Data) → option exn → Prop)
    (P : list (event Data) → Prop) xs t :
  P [] → (∀ a b, P a → P b → P (a ++ b)) →
  (∀ x t, B x t None → P t) →
  blocks B xs t None → P t.
Proof.
  intros Hnil Happ HB.
  assert (H : ∀ ab, blocks B xs t ab → ab = None → P t); [|by eauto].
  induction 1 as [|x xs t1 t2 ab H1 H2 IH|x xs t1 e H1]; intros Hab; [done | | done].
  apply Happ; [by apply (HB _ _ H1) | by apply IH].
Qed.

Lemma fetched_from_app cur t1 t2 :
  fetched_from cur (t1 ++ t2)
  = fetched_from cur t1 ++ fetched_from (current_name cur t1) t2.
Proof.
  revert cur. induction t1 as [|ev t1 IH]; intros cur; [done|].
  destruct ev as [| | | ? ? [d|e] | | | | |]; simpl; rewrite ?IH; done.
Qed.

Lemma current_name_app cur t1 t2 :
  current_name cur (t1 ++ t2) = current_name (current_name cur t1) t2.
Proof. apply foldl_app. Qed.

(** The writers do not fetch. *)
Lemma fetched_writes p d ws t ab :
  blocks (write_block p d) ws t ab →
  ∀ cur, fetched_from cur t = [] ∧ current_name cur t = cur.
Proof.
  induction 1 as [|w ws t1 t2 ab H1 H2 IH|w ws t1 e H1]; intros cur.
  - done.
  - rewrite fetched_from_app, current_name_app.
    destruct H1; simpl; by destruct (IH cur).
  - by inversion H1.
Qed.

(** Every writer is handed the pair, whatever the other writers did with
    it, as long as none raised something other than an [Exception]. *)
Lemma deliveries_writes p d ws t ab :
  blocks (write_block p d) ws t ab →
  deliveries t `prefix_of` ((λ w, (w, p, d)) <$> ws) ∧
  (ab = None → deliveries t = (λ w, (w, p, d)) <$> ws).
Proof.
  intros Hb. rewrite <-bind_singleton_fmap.
  apply (blocks_bind (write_block p d) delivery_of); [| |done].
  - by intros w t' [].
  - intros w t' e H. by inversion H.
Qed.

Lemma delivered_all_app ws t1 t2 :
  delivered_all ws t1 → delivered_all ws t2 → delivered_all ws (t1 ++ t2).
Proof.
  intros H1 H2 cur. unfold deliveries.
  rewrite bind_app, fetched_from_app, bind_app.
  f_equal; [apply H1 | apply H2].
Qed.

Lemma delivered_all_name ws m bucket p t :
  name_block ws m bucket p t None → delivered_all ws t.
Proof.
  intros H cur. inversion H as [src e ?? | | src d tw ab' ? Hb]; subst; [done|].
  simpl. destruct (fetched_writes _ _ _ _ _ Hb p) as [-> _].
  destruct (deliveries_writes _ _ _ _ _ Hb) as [_ Hd].
  csimpl. rewrite app_nil_r. by apply Hd.
Qed.

Lemma delivered_all_miner ws nsm (fs : gset string) m t :
  miner_block ws nsm fs m t None → delivered_all ws t.
Proof.
  intros H. inversion H as [bucket ?? | bucket tn ab' ?? Hb]; subst; [done|].
  assert (Hn : delivered_all ws tn).
  { eapply blocks_None_ind; [done | apply delivered_all_app | | exact Hb].
    intros p t'. apply delivered_all_name. }
  intros cur. apply (Hn cur).
Qed.

Lemma delivered_all_miners ws nsm (fs : gset string) order t :
  blocks (miner_block ws nsm fs) order t None → delivered_all ws t.
Proof.
  intros Hb. eapply blocks_None_ind; [done | apply delivered_all_app | | exact Hb].
  intros m t'. apply delivered_all_miner.
Qed.

(** *** Fetches *)

Lemma fetches_writes p d ws t ab :
  blocks (write_block p d) ws t ab → fetches t = [].
Proof.
  intros Hb.
  destruct (blocks_bind (write_block p d) fetch_of (λ _, []) ws t ab) as [Hp _];
    [by intros w t' [] | by intros w t' e H; inversion H | done |].
  rewrite bind_nil_const in Hp. by apply prefix_nil_inv.
Qed.

Lemma fetches_name ws m bucket p t ab :
  name_block ws m bucket p t ab →
  fetches t = [(m, default "" (PyDict.get bucket p))].
Proof.
  intros [src e Hg ? | src e Hg ? | src d tw ab' Hg Hb]; rewrite Hg; [done..|].
  change (fetches (?a :: CallGetData m src ?r :: tw)) with ((m, src) :: fetches tw).
  by rewrite (fetches_writes _ _ _ _ _ Hb).
Qed.

Lemma fetches_names ws m bucket names t ab :
  blocks (name_block ws m bucket) names t ab →
  fetches t `prefix_of` ((λ p, (m, default "" (PyDict.get bucket p))) <$> names) ∧
  (ab = None →
   fetches t = (λ p, (m, default "" (PyDict.get bucket p))) <$> names).
Proof.
  intros Hb. rewrite <-bind_singleton_fmap.
  apply (blocks_bind (name_block ws m bucket) fetch_of); [| |done].
  - intros p t' H. by apply fetches_name in H.
  - intros p t' e H. apply fetches_name in H. unfold fetches in H. by rewrite H.
Qed.

Lemma fetches_miners ws nsm (fs : gset string) order t ab :
  blocks (miner_block ws nsm fs) order t ab →
  fetches t `prefix_of` planned_fetches nsm fs order ∧
  (ab = None → fetches t = planned_fetches nsm fs order).
Proof.
  intros Hb. unfold planned_fetches.
  apply (blocks_bind (miner_block ws nsm fs) fetch_of); [| |done].
  - intros m t' H. inversion H as [bucket Hg Hc | bucket tn ab' Hg Hc Hn]; subst.
    + rewrite Hg. simpl. apply sorted_names_nil in Hc. by rewrite Hc.
    + rewrite Hg. simpl. apply fetches_names in Hn as [_ Hn]. by apply Hn.
  - intros m t' e H. inversion H as [|bucket tn ab' Hg Hc Hn]; subst.
    rewrite Hg. simpl. by apply fetches_names in Hn as [Hn _].
Qed.

(** *** Events outside the loop *)

Lemma quiet_spec t :
  Forall quiet_event t →
  progress t = [] ∧ fetches t = [] ∧ deliveries t = [] ∧
  (∀ cur, fetched_from cur t = [] ∧ current_name cur t = cur) ∧
  clean t ∧ reported t.
Proof.
  intros Hq. split_and!.
  - induction Hq as [|[] t ? _ IH]; done.
  - induction Hq as [|[] t ? _ IH]; done.
  - induction Hq as [|[] t ? _ IH]; done.
  - induction Hq as [|[] t ? _ IH]; done.
  - intros ev e Hin. rewrite Forall_forall in Hq. specialize (Hq ev Hin).
    by destruct ev.
  - apply reported_no_raise. eapply Forall_impl; [done|]. by intros [].
Qed.

Lemma quiet_report (fs ps : gset string) :
  Forall quiet_event (report (Data:=Data) fs ps).
Proof.
  unfold report. repeat case_decide; [constructor..|].
  constructor; [done|]. apply Forall_fmap, Forall_true. done.
Qed.

Lemma quiet_name_source_map self h t self' r :
  _name_source_map self h = (t, self', r) → Forall quiet_event t.
Proof.
  intros Hn. pose proof (name_source_map_spec self h) as H.
  destruct (__name_source_map self).
  - rewrite Hn in H. injection H as -> _ _. constructor.
  - destruct H as (t' & E & nsm & H & _ & Ht & _). rewrite Hn in H.
    injection H as -> _ _. clear -Ht. induction Ht as [|?????]; constructor; by subst.
Qed.

Lemma blocks_Forall {A} (B : A → list (event Data) → option exn → Prop)
    (P : event Data → Prop) xs t ab :
  (∀ x t ab, B x t ab → Forall P t) → blocks B xs t ab → Forall P t.
Proof.
  intros HB. induction 1 as [|x xs t1 t2 ab H1 H2 IH|x xs t1 e H1].
  - constructor.
  - apply Forall_app. split; [by apply (HB _ _ _ H1) | done].
  - by apply (HB _ _ _ H1).
Qed.

(** The loop neither enumerates nor reports missing names. *)
Lemma loop_events ws nsm (fs : gset string) order t ab :
  blocks (miner_block ws nsm fs) order t ab → Forall loop_event t.
Proof.
  apply blocks_Forall. intros m t1 ab1 [bucket ?? | bucket tn ab' ?? Hn].
  { constructor. }
  constructor; [done|]. revert Hn. apply blocks_Forall.
  intros p t2 ab2 [src e ?? | src e ?? | src d tw ab'' ? Hw]; [by repeat constructor..|].
  constructor; [done|]. constructor; [done|]. revert Hw. apply blocks_Forall.
  intros w t3 ab3 []; by repeat constructor.
Qed.

Lemma enumerations_loop t : Forall loop_event t → enumerations t = [].
Proof. induction 1 as [|[] t ? _ IH]; done. Qed.

Lemma enumerations_enumerate t (E : list (miner * list string)) :
  Forall2 (λ ev y, ev = CallContnameIter y.1 y.2) t E → enumerations t = E.*1.
Proof. induction 1 as [|ev y t E -> _ IH]; csimpl; [done | by rewrite <-IH]. Qed.

Lemma enumerations_report (fs ps : gset string) :
  enumerations (report (Data:=Data) fs ps) = [].
Proof.
  unfold report. repeat case_decide; [done..|]. simpl.
  by induction (sorted_names (fs ∖ ps)).
Qed.

Lemma enumerations_app t1 t2 :
  enumerations (t1 ++ t2) = enumerations t1 ++ enumerations t2.
Proof. apply bind_app. Qed.

Lemma elem_of_progress ev t : ev ∈ progress t ↔ ev ∈ t ∧ progress_of ev = [ev].
Proof.
  unfold progress. rewrite list_elem_of_bind. split.
  - intros (ev' & Hin & Hev'). destruct ev'; simpl in Hin;
      try (by apply elem_of_nil in Hin); by apply list_elem_of_singleton in Hin as ->.
  - intros [Hin Hev]. exists ev. rewrite Hev. split; [left | done].
Qed.

Lemma elem_of_selected nsm (fs : gset string) order p :
  p ∈ selected nsm fs order ↔
  ∃ m, m ∈ order ∧ p ∈ containers (default [] (PyDict.get nsm m)) fs.
Proof.
  unfold selected. rewrite elem_of_union_list. split.
  - intros (X & (m & -> & Hm)%list_elem_of_fmap & Hp). eauto.
  - intros (m & Hm & Hp). eexists. split; [|done].
    apply list_elem_of_fmap. eauto.
Qed.

Lemma elem_of_plan nsm (fs : gset string) order p :
  PrintProcessing p ∈ plan nsm fs order ↔ p ∈ selected nsm fs order.
Proof.
  unfold plan. rewrite list_elem_of_bind, elem_of_selected.
  split; intros (m & H1 & H2); exists m.
  - split; [done|]. apply elem_of_sorted_names.
    destruct (sorted_names _) as [|q l]; [by apply elem_of_nil in H1|].
    apply elem_of_cons in H1 as [?|H1]; [done|].
    by apply list_elem_of_fmap in H1 as (p' & [= ->] & ?).
  - split; [|done]. apply elem_of_sorted_names in H2.
    destruct (sorted_names _) as [|q l]; [by apply elem_of_nil in H2|].
    right. apply list_elem_of_fmap. eauto.
Qed.


Lemma elem_of_report (fs ps : gset string) p :
  PrintMissing p ∈ report (Data:=Data) fs ps ↔ p ∈ fs ∧ p ∉ ps.
Proof.
  rewrite <-elem_of_difference. unfold report.
  case_decide as H1; [|case_decide as H2].
  - subst. rewrite elem_of_nil, elem_of_difference, elem_of_empty. tauto.
  - rewrite H2, elem_of_nil, elem_of_empty. tauto.
  - rewrite elem_of_cons, list_elem_of_fmap. split.
    + intros [?|(p' & [= ->] & Hp%elem_of_sorted_names)]; done.
    + intros Hp. right. exists p. split; [done|]. by apply elem_of_sorted_names.
Qed.

Lemma enumeration_name_source_map self h t self' r :
  _name_source_map self h = (t, self', r) → Forall enumeration_event t.
Proof.
  intros Hn. pose proof (name_source_map_spec self h) as H.
  destruct (__name_source_map self).
  - rewrite Hn in H. injection H as -> _ _. constructor.
  - destruct H as (t' & E & nsm & H & _ & Ht & _). rewrite Hn in H.
    injection H as -> _ _. clear -Ht. induction Ht as [|?????]; constructor; by subst.
Qed.

Lemma progress_app t1 t2 : progress (t1 ++ t2) = progress t1 ++ progress t2.
Proof. apply bind_app. Qed.

Lemma fetches_app t1 t2 : fetches (t1 ++ t2) = fetches t1 ++ fetches t2.
Proof. apply bind_app. Qed.

Lemma delivered_all_quiet ws t : Forall quiet_event t → delivered_all ws t.
Proof.
  intros (_ & _ & Hd & Hf & _)%quiet_spec cur.
  rewrite Hd. by destruct (Hf cur) as [-> _].
Qed.

(** ** C8 *)

(** C8. On a new orchestrator the first access to the property calls
    [contname_iter] once for each registered miner, in order, computes the
    namespace from what they yield and stores it. Every later access, also
    when the miners would by then yield something else, returns that same
    namespace, calls nothing and leaves the object as it is; so two accesses
    in a row are one access, and a [run] on the object never enumerates
    again. A first [run] enumerates each miner once. *)
Theorem namespace_computed_once miners writers h :
  ∃ t E nsm self',
    _name_source_map (__init__ miners writers) h = (t, self', Returned nsm) ∧
    E.*1 = miners ∧
    Forall2 (λ ev y, ev = CallContnameIter y.1 y.2) t E ∧
    resolve E = Returned nsm ∧
    __name_source_map self' = Some nsm ∧
    (∀ h', _name_source_map self' h' = ([], self', Returned nsm)) ∧
    (∀ self0 h',
       (_name_source_map ≫= λ _, _name_source_map) self0 h'
       = _name_source_map self0 h') ∧
    (∀ f h' t' self'' r, run f self' h' = (t', self'', r) →
       enumerations t' = [] ∧ self'' = self') ∧
    (∀ f fs h' t' self'' r,
       _parse_filter f = Returned fs →
       run f (__init__ miners writers) h' = (t', self'', r) →
       enumerations t' = miners).
Proof.
  pose proof (name_source_map_spec (__init__ miners writers) h) as H. simpl in H.
  destruct H as (t & E & nsm & Hn & HE & Ht & Hres).
  exists t, E, nsm. eexists. split; [exact Hn|].
  assert (Hok : cache_ok {| _miners := miners; _writers := writers;
                            __name_source_map := Some nsm |}).
  { by destruct (name_source_map_cache_ok _ _ _ _ _ (cache_ok_init miners writers) Hn)
      as (? & _ & _ & _ & _ & ?). }
  split_and!; [done..| | | |].
  - intros h'. apply (name_source_map_spec
      {| _miners := miners; _writers := writers; __name_source_map := Some nsm |} h').
  - intros self0 h'. pose proof (name_source_map_spec self0 h') as H0.
    destruct (__name_source_map self0) as [nsm0|] eqn:Hc.
    + by rewrite (bind_silent _ _ _ _ _ H0).
    + destruct H0 as (t0 & E0 & nsm0 & H0 & _). rewrite H0.
      erewrite bind_Returned by exact H0.
      pose proof (name_source_map_spec
        {| _miners := _miners self0; _writers := _writers self0;
           __name_source_map := Some nsm0 |} (h' ++ t0)) as H1.
      simpl in H1. rewrite H1. by rewrite app_nil_r.
  - intros f h' t' self'' r Hrun. destruct (_parse_filter f) as [fs|e] eqn:Hp.
    + destruct (run_conforms f fs _ h' Hok Hp)
        as (t0 & self1 & nsm1 & order & t1 & ab & Hn1 & _ & _ & _ & _ & _ & _ & _ & Hb & Hr).
      pose proof (name_source_map_spec
        {| _miners := miners; _writers := writers; __name_source_map := Some nsm |} h') as H1.
      simpl in H1. rewrite Hn1 in H1. injection H1 as -> -> ->.
      rewrite Hrun in Hr. injection Hr as -> -> ->. split; [|done].
      rewrite !enumerations_app. rewrite (enumerations_loop t1) by by eapply loop_events.
      destruct ab; [done|]. apply enumerations_report.
    + rewrite (run_parse_error f e) in Hrun by done. by injection Hrun as <- <- <-.
  - intros f fs h' t' self'' r Hp Hrun.
    destruct (run_conforms f fs _ h' (cache_ok_init miners writers) Hp)
      as (t0 & self1 & nsm1 & order & t1 & ab & Hn1 & _ & _ & _ & _ & _ & _ & _ & Hb & Hr).
    rewrite Hrun in Hr. injection Hr as -> -> ->.
    pose proof (name_source_map_spec (__init__ miners writers) h') as H1. simpl in H1.
    destruct H1 as (t0' & E' & nsm' & Hn' & HE' & Ht' & _). rewrite Hn1 in Hn'.
    injection Hn' as -> -> ->.
    rewrite !enumerations_app, (enumerations_enumerate _ _ Ht'), HE'.
    rewrite (enumerations_loop t1) by by eapply loop_events.
    destruct ab; simpl; rewrite ?enumerations_report, ?app_nil_r; done.
Qed.

(** ** C6 *)

(** C6. On a filter that parses, [run] reads the namespace, puts its keys
    in the order of their first registration, whatever the order in which
    the namespace lists them, and after that the trace is one block for each
    miner in that order. The names of a miner are the public names of its
    bucket, those of them that are in the filter set when that set is not
    empty; a miner without names has an empty block, and the block of
    another is its header followed by its names in sorted order. The header
    and progress lines of the run are those of the plan, up to where an
    exception leaves the loop. *)
Theorem run_visits_in_registration_order filter_string (fs : gset string) self h :
  cache_ok self →
  _parse_filter filter_string = Returned fs →
  ∃ t0 self' nsm order t1 t2 ab,
    _name_source_map self h = (t0, self', Returned nsm) ∧
    run filter_string self h = (t0 ++ t1 ++ t2, self', finish ab ()) ∧
    sorted_miners (_miners self) nsm = Returned order ∧
    order ≡ₚ PyDict.keys nsm ∧ NoDup order ∧
    StronglySorted (registered_before (_miners self)) order ∧
    (∀ nsm', PyDict.keys nsm' ≡ₚ PyDict.keys nsm →
             sorted_miners (_miners self) nsm' = Returned order) ∧
    Forall enumeration_event t0 ∧
    blocks (miner_block (_writers self) nsm fs) order t1 ab ∧
    t2 = match ab with
         | None => report fs (selected nsm fs order)
         | Some _ => []
         end ∧
    progress (t0 ++ t1 ++ t2) `prefix_of` plan nsm fs order ∧
    (ab = None → progress (t0 ++ t1 ++ t2) = plan nsm fs order) ∧
    (∀ bucket p, p ∈ containers bucket fs ↔
                 is_Some (PyDict.get bucket p) ∧ (fs ≠ ∅ → p ∈ fs)) ∧
    (∀ s : gset string,
       StronglySorted String.le (sorted_names s) ∧ NoDup (sorted_names s) ∧
       ∀ p, p ∈ sorted_names s ↔ p ∈ s).
Proof.
  intros Hok Hparse.
  destruct (run_conforms filter_string fs self h Hok Hparse)
    as (t0 & self' & nsm & order & t1 & ab & Hn & Hc & Hm & Hw & Hok' & Hs & Hperm
          & Hsorted & Hb & Hr).
  destruct (Hok' nsm Hc) as [Hnd Hsub]. rewrite Hm in Hsub.
  exists t0, self', nsm, order, t1. eexists. exists ab.
  split_and!; [done | exact Hr | done | done | by rewrite Hperm | done | | | done | done | | | |].
  - intros nsm' Hperm'. by rewrite (sorted_miners_Permutation _ nsm nsm').
  - by eapply enumeration_name_source_map.
  - rewrite !progress_app.
    assert (progress t0 = []) as ->.
    { apply quiet_spec. eapply quiet_name_source_map. exact Hn. }
    assert (progress (match ab with
                      | None => report fs (selected nsm fs order)
                      | Some _ => []
                      end) = []) as ->.
    { destruct ab; [done|]. apply quiet_spec, quiet_report. }
    rewrite app_nil_r. simpl. by apply progress_miners in Hb as [? _].
  - intros ->. rewrite !progress_app.
    assert (progress t0 = []) as ->.
    { apply quiet_spec. eapply quiet_name_source_map. exact Hn. }
    assert (progress (report (Data:=Data) fs (selected nsm fs order)) = []) as ->.
    { apply quiet_spec, quiet_report. }
    rewrite app_nil_r. simpl. apply progress_miners in Hb as [_ Hb]. by apply Hb.
  - intros bucket p. apply elem_of_containers.
  - intros s. split_and!.
    + apply sorted_names_StronglySorted.
    + apply NoDup_sorted_names.
    + apply elem_of_sorted_names.
Qed.

(** *** Fetches come after the progress line *)






(** [run] leaves the object with a cache that is in order. *)
Lemma run_cache_ok filter_string self h t self' r :
  cache_ok self → run filter_string self h = (t, self', r) → cache_ok self'.
Proof.
  intros Hok Hrun. destruct (_parse_filter filter_string) as [fs|e] eqn:Hp.
  - destruct (run_conforms filter_string fs self h Hok Hp)
      as (t0 & self1 & nsm & order & t1 & ab & _ & _ & _ & _ & Hok' & _ & _ & _ & _ & Hr).
    rewrite Hrun in Hr. by injection Hr as _ -> _.
  - rewrite (run_parse_error _ e) in Hrun by done. by injection Hrun as _ <- _.
Qed.

(** *** The shape of the trace of a run *)

Lemma run_shape filter_string (fs : gset string) self h t self' r :
  cache_ok self →
  _parse_filter filter_string = Returned fs →
  run filter_string self h = (t, self', r) →
  ∃ t0 nsm order t1 ab,
    t = t0 ++ t1 ++ match ab with
                    | None => report fs (selected nsm fs order)
                    | Some _ => []
                    end ∧
    r = finish ab () ∧
    Forall enumeration_event t0 ∧
    blocks (miner_block (_writers self) nsm fs) order t1 ab ∧
    __name_source_map self' = Some nsm ∧
    sorted_miners (_miners self) nsm = Returned order.
Proof.
  intros Hok Hparse Hrun.
  destruct (run_conforms filter_string fs self h Hok Hparse)
    as (t0 & self1 & nsm & order & t1 & ab & Hn & Hc & _ & _ & _ & Hs & _ & _ & Hb & Hr).
  rewrite Hrun in Hr. injection Hr as -> -> ->.
  exists t0, nsm, order, t1, ab. split_and!; [done.. | | done | done | done].
  by eapply enumeration_name_source_map.
Qed.

Lemma enumeration_quiet t : Forall enumeration_event t → Forall quiet_event t.
Proof. intros H. eapply Forall_impl; [exact H|]. by intros []. Qed.



Lemma finish_Returned {A} ab (a b : A) : finish ab a = Returned b → ab = None.
Proof. by destruct ab. Qed.

Lemma finish_Raised {A} ab (a : A) e : finish ab a = Raised e → ab = Some e.
Proof. destruct ab; [by intros [= ->] | done]. Qed.

(** ** C2 *)

(** C2, amended. An error is here an exception of kind [ExceptionKind]:
    its class derives from [Exception] and not from [KeyboardInterrupt]. In
    a run on a filter that parses: every error that a fetch or a write
    raises is followed at once by the line that reports it. When nothing
    but errors is raised, [run] returns, every planned name of every miner
    has its progress line and its fetch, and every pair of a name and the
    data fetched for it is handed to every writer in turn, whatever the
    other writers did with it. Whatever else a fetch or a write raises, an
    exception whose class derives from [KeyboardInterrupt] (also one that
    derives from [Exception] as well) or from neither of the two, is the
    last event of the run and leaves [run]; and what leaves [run] was
    raised by its last event, a fetch or a write, and is not an error. For
    the loop over the writers alone: when nothing but errors is raised,
    each writer is handed the pair once, in order. *)
Theorem run_isolates_failures filter_string (fs : gset string) self h t self' r :
  cache_ok self →
  _parse_filter filter_string = Returned fs →
  run filter_string self h = (t, self', r) →
  (∀ t1 ev t2 e, t = t1 ++ ev :: t2 → raised_by ev = Some e →
     kind e = ExceptionKind →
     ∃ rep t3, failure_report ev = Some rep ∧ t2 = rep :: t3) ∧
  ((∀ ev e, ev ∈ t → raised_by ev = Some e → kind e = ExceptionKind) →
     r = Returned () ∧
     ∃ nsm order,
       __name_source_map self' = Some nsm ∧
       sorted_miners (_miners self) nsm = Returned order ∧
       progress t = plan nsm fs order ∧
       fetches t = planned_fetches nsm fs order ∧
       ∀ cur, deliveries t
              = fetched_from cur t ≫= λ pd, (λ w, (w, pd.1, pd.2)) <$> _writers self) ∧
  (∀ t1 ev t2 e, t = t1 ++ ev :: t2 → raised_by ev = Some e →
     kind e ≠ ExceptionKind → t2 = [] ∧ r = Raised e) ∧
  (∀ e, r = Raised e →
     ∃ t1 ev, t = t1 ++ [ev] ∧ raised_by ev = Some e ∧ kind e ≠ ExceptionKind) ∧
  (∀ ws p d self0 h0 tw self1 rw,
     writers_loop ws p d self0 h0 = (tw, self1, rw) →
     (∀ ev e, ev ∈ tw → raised_by ev = Some e → kind e = ExceptionKind) →
     rw = Returned () ∧ deliveries tw = (λ w, (w, p, d)) <$> ws).
Proof.
  intros Hok Hparse Hrun.
  destruct (run_shape _ _ _ _ _ _ _ Hok Hparse Hrun)
    as (t0 & nsm & order & t1 & ab & -> & -> & Ht0 & Hb & Hc & Hs).
  set (t2 := match ab with
             | None => report fs (selected nsm fs order)
             | Some _ => []
             end).
  assert (Hq0 : Forall quiet_event t0) by by apply enumeration_quiet.
  assert (Hq2 : Forall quiet_event t2).
  { unfold t2. destruct ab; [constructor | apply quiet_report]. }
  destruct (quiet_spec t0 Hq0) as (Hp0 & Hf0 & Hd0 & Hx0 & Hc0 & Hr0).
  destruct (quiet_spec t2 Hq2) as (Hp2 & Hf2 & Hd2 & Hx2 & Hc2 & Hr2).
  assert (Hends : ends (t0 ++ t1 ++ t2) ab).
  { apply ends_app; [done|].
    assert (He1 : ends t1 ab) by (eapply blocks_ends; [apply ends_miner | done]).
    unfold t2. destruct ab as [e|]; [by rewrite app_nil_r|].
    apply clean_app. by split. }
  split_and!.
  - apply reported_app; [done|]. apply reported_app; [|done].
    eapply blocks_reported; [apply reported_miner | done].
  - intros Hclean. assert (ab = None) as -> by by eapply ends_clean.
    split; [done|]. exists nsm, order. split_and!; [done..| | |].
    + rewrite !progress_app, Hp0, Hp2, app_nil_r. simpl.
      apply progress_miners in Hb as [_ Hb]. by apply Hb.
    + rewrite !fetches_app, Hf0, Hf2, app_nil_r. simpl.
      apply fetches_miners in Hb as [_ Hb]. by apply Hb.
    + apply delivered_all_app; [by apply delivered_all_quiet|].
      apply delivered_all_app; [|by apply delivered_all_quiet].
      by eapply delivered_all_miners.
  - intros a ev b e Heq Hev He.
    by destruct (ends_last _ _ _ _ _ _ Hends Heq Hev He) as [-> ->].
  - intros e ->%finish_Raised. destruct Hends as (t' & ev & Heq & _ & Hev & He).
    by exists t', ev.
  - intros ws p d self0 h0 tw self1 rw Hw Hclean.
    destruct (writers_loop_conforms ws p d self0 h0) as (tw' & abw & Hw' & Hbw).
    rewrite Hw in Hw'. injection Hw' as -> -> ->.
    assert (abw = None) as ->.
    { eapply ends_clean; [|exact Hclean]. eapply blocks_ends; [apply ends_write | done]. }
    split; [done|]. apply deliveries_writes in Hbw as [_ Hbw]. by apply Hbw.
Qed.

(** ** C7 *)


End run_facts.

(** *** The claims about [run] on concrete miners and writers *)

Lemma namespace_computed_once_example :
  ∃ t self' nsm,
    @_name_source_map string items_sample (__init__ [Miner 0; Miner 1] []) []
    = (t, self', Returned nsm) ∧
    t = [CallContnameIter (Miner 0) ["items"; "blueprints"];
         CallContnameIter (Miner 1) ["items"; "types"]] ∧
    @_name_source_map string items_sample self' t = ([], self', Returned nsm).
Proof. by eexists _, _, _. Qed.

Lemma clean_Forall {Data} (t : list (event Data)) :
  Forall (λ ev, match raised_by ev with
                | Some e => kind e = ExceptionKind
                | None => True
                end) t →
  clean t.
Proof.
  rewrite Forall_forall. intros H ev e Hin Hev. specialize (H ev Hin).
  by rewrite Hev in H.
Qed.

(** C2 as stated fails: the fetch of [blueprints] raises a
    [FilterParseError], which is neither a [KeyboardInterrupt] nor an
    [Exception]; it is not caught, and [run] ends there, before the other
    name of the miner and before the other miner. *)
Lemma run_isolates_failures_counterexample :
  kind (FilterParseError "boom") ≠ KeyboardInterruptKind ∧
  @run string escaping_sample "" (__init__ [Miner 0; Miner 1] [Writer 0]) []
  = ([CallContnameIter (Miner 0) ["items"; "blueprints"];
      CallContnameIter (Miner 1) ["items"; "types"];
      PrintMiner "MinerA"; PrintProcessing "blueprints";
      CallGetData (Miner 0) "blueprints" (Raised (FilterParseError "boom"))],
     {| _miners := [Miner 0; Miner 1]; _writers := [Writer 0];
        __name_source_map :=
          Some [(Miner 0, [("items_MinerA", "items"); ("blueprints", "blueprints")]);
                (Miner 1, [("items_MinerB", "items"); ("types", "types")])] |},
     Raised (FilterParseError "boom")).
Proof. split; [done|]. vm_compute. reflexivity. Qed.

Lemma run_isolates_failures_witness :
  cache_ok (__init__ [Miner 0; Miner 1] [Writer 0; Writer 1]) ∧
  _parse_filter "" = Returned ∅ ∧
  (@run string faulty_sample ""
     (__init__ [Miner 0; Miner 1] [Writer 0; Writer 1]) []).2 = Returned () ∧
  @fetches string
    (@run string faulty_sample ""
       (__init__ [Miner 0; Miner 1] [Writer 0; Writer 1]) []).1.1
  = [(Miner 0, "blueprints"); (Miner 0, "items"); (Miner 1, "items"); (Miner 1, "types")].
Proof.
  assert (Hok : cache_ok (__init__ [Miner 0; Miner 1] [Writer 0; Writer 1]))
    by apply cache_ok_init.
  assert (Hparse : _parse_filter "" = Returned ∅) by reflexivity.
  split; [exact Hok|]. split; [exact Hparse|].
  destruct (@run string faulty_sample ""
              (__init__ [Miner 0; Miner 1] [Writer 0; Writer 1]) [])
    as [[t self'] r] eqn:Hrun.
  destruct (@run_isolates_failures string faulty_sample "" ∅ _ [] t self' r
              Hok Hparse Hrun) as (_ & Hclean & _ & _ & _).
  destruct Hclean as (Hr & nsm & order & Hc & Hs & _ & Hf & _).
  { apply clean_Forall. vm_compute in Hrun. injection Hrun as <- _ _.
    repeat constructor. }
  split; [exact Hr|]. simpl. rewrite Hf.
  vm_compute in Hrun. injection Hrun as _ <- _.
  simpl in Hc. injection Hc as <-. vm_compute in Hs. injection Hs as <-.
  reflexivity.
Defined.

Lemma run_visits_in_registration_order_witness :
  cache_ok (__init__ [Miner 1; Miner 0] [Writer 0]) ∧
  _parse_filter "types, items_MinerA" = Returned {[ "types"; "items_MinerA" ]} ∧
  ∃ nsm order,
    (@_name_source_map string items_sample (__init__ [Miner 1; Miner 0] [Writer 0]) []).2
    = Returned nsm ∧
    @sorted_miners [Miner 1; Miner 0] nsm = Returned order ∧
    NoDup order ∧
    StronglySorted (registered_before [Miner 1; Miner 0]) order.
Proof.
  assert (Hok : cache_ok (__init__ [Miner 1; Miner 0] [Writer 0]))
    by apply cache_ok_init.
  assert (Hparse : _parse_filter "types, items_MinerA"
                   = Returned {[ "types"; "items_MinerA" ]}) by (vm_compute; reflexivity).
  split; [exact Hok|]. split; [exact Hparse|].
  destruct (@run_visits_in_registration_order string items_sample _ _ _ [] Hok Hparse)
    as (t0 & self' & nsm & order & t1 & t2 & ab & Hn & _ & Hs & _ & Hnd & Hsorted & _).
  exists nsm, order. by rewrite Hn.
Defined.


(** The trace of the run of the last witness: the fetch of [types] fails,
    and [types] is not reported as unavailable; [foo] is. *)
Example run_reports_missing_example :
  (@run string faulty_sample "types,foo"
     (__init__ [Miner 0; Miner 1] [Writer 1]) []).1.1
  = [CallContnameIter (Miner 0) ["items"; "blueprints"];
     CallContnameIter (Miner 1) ["items"; "types"];
     PrintMiner "MinerB"; PrintProcessing "types";
     CallGetData (Miner 1) "types" (Raised (Exn ExceptionKind "IOError" "boom"));
     PrintFetchFailed "IOError" "boom";
     PrintMissingHeader; PrintMissing "foo"].
Proof. vm_compute. reflexivity. Qed.

(** The namespace of the two miners of [items_sample]. *)
Example resolve_items :
  @resolve string items_sample items_miners
  = Returned [(Miner 0, [("items_MinerA", "items"); ("blueprints", "blueprints")]);
              (Miner 1, [("items_MinerB", "items"); ("types", "types")])].
Proof. reflexivity. Qed.

(** A writer is interrupted: nothing happens after its call, [run] raises
    [KeyboardInterrupt], and the namespace stays on the object. *)
Example run_interrupted :
  @run string interrupted_sample "" (__init__ [Miner 0; Miner 1] [Writer 0; Writer 1]) []
  = ([CallContnameIter (Miner 0) ["items"; "blueprints"];
      CallContnameIter (Miner 1) ["items"; "types"];
      PrintMiner "MinerA"; PrintProcessing "blueprints";
      CallGetData (Miner 0) "blueprints" (Returned "blueprints");
      CallWrite (Writer 0) "blueprints" "blueprints" (Returned ());
      CallWrite (Writer 1) "blueprints" "blueprints" (Returned ());
      PrintProcessing "items_MinerA";
      CallGetData (Miner 0) "items" (Returned "items");
      CallWrite (Writer 0) "items_MinerA" "items" (Raised KeyboardInterrupt)],
     {| _miners := [Miner 0; Miner 1]; _writers := [Writer 0; Writer 1];
        __name_source_map :=
          Some [(Miner 0, [("items_MinerA", "items"); ("blueprints", "blueprints")]);
                (Miner 1, [("items_MinerB", "items"); ("types", "types")])] |},
     Raised KeyboardInterrupt).
Proof. vm_compute. reflexivity. Qed.

(** * Further properties *)

(** ** Strings *)

Section strings_more.
Implicit Types s t l r : string.

Lemma all_space_app l r : all_space (l +:+ r) = all_space l && all_space r.
Proof. induction l as [|c l IH]; simpl; [done|]. by rewrite IH, andb_assoc. Qed.

Lemma lstrip_all_space l : all_space l = true → lstrip l = "".
Proof.
  induction l as [|c l IH]; simpl; [done|].
  intros [Hc Hl]%andb_prop. rewrite Hc. auto.
Qed.

Lemma rstrip_all_space r : all_space r = true → rstrip r = "".
Proof.
  induction r as [|c r IH]; simpl; [done|].
  intros [Hc Hr]%andb_prop. rewrite IH, Hc by done. done.
Qed.

Lemma lstrip_app_space l s : all_space l = true → lstrip (l +:+ s) = lstrip s.
Proof.
  induction l as [|c l IH]; simpl; [done|].
  intros [Hc Hl]%andb_prop. rewrite Hc. auto.
Qed.

Lemma rstrip_app_space s r : all_space r = true → rstrip (s +:+ r) = rstrip s.
Proof.
  intros Hr. induction s as [|c s IH]; simpl.
  - by apply rstrip_all_space.
  - by rewrite IH.
Qed.

Lemma lstrip_app s r :
  lstrip (s +:+ r) = if decide (lstrip s = "") then lstrip r else lstrip s +:+ r.
Proof.
  induction s as [|c s IH]; simpl; [done|].
  destruct (isspace c); [done|]. by simpl.
Qed.

Lemma strip_padding l s r :
  all_space l = true → all_space r = true → strip (l +:+ s +:+ r) = strip s.
Proof.
  intros Hl Hr. unfold strip. rewrite lstrip_app_space, lstrip_app by done.
  case_decide as E.
  - by rewrite E, (lstrip_all_space r).
  - by apply rstrip_app_space.
Qed.

Lemma lstrip_id s : (∀ c t, s = String c t → isspace c = false) → lstrip s = s.
Proof. destruct s as [|c s]; simpl; [done|]. intros H. by rewrite (H c s). Qed.

Lemma rstrip_id s : (∀ t c, s = t +:+ String c "" → isspace c = false) → rstrip s = s.
Proof.
  induction s as [|c s IH]; simpl; [done|]. intros H.
  rewrite IH.
  - destruct s; [|done]. by rewrite (H "" c).
  - intros t c' ->. by apply (H (String c t) c').
Qed.

Lemma strip_trimmed s : trimmed s → strip s = s.
Proof. intros [H1 H2]. unfold strip. by rewrite lstrip_id, rstrip_id. Qed.

End strings_more.

(** ** The filter parser *)

Section parser_more.
Implicit Types s t l r : string.

Lemma isspace_plain c :
  isspace c = true → c ≠ "("%char ∧ c ≠ ")"%char ∧ c ≠ ","%char.
Proof. intros H. split_and!; intros ->; discriminate. Qed.

Lemma all_space_plain l :
  all_space l = true → ∀ d, depth l = 0%Z ∧ outside_commas d l = 0.
Proof.
  induction l as [|c l IH]; simpl; [done|].
  intros [Hc Hl]%andb_prop d. destruct (isspace_plain c Hc) as (H1 & H2 & H3).
  rewrite delta_other by done. rewrite decide_False by (intros [??]; done).
  destruct (IH Hl (d + 0)%Z) as [-> ->]. done.
Qed.

Lemma outside_commas_app a b : ∀ d,
  outside_commas d (a +:+ b)
  = outside_commas d a + outside_commas (d + depth a) b.
Proof.
  induction a as [|c a IH]; intros d; simpl.
  - by rewrite Z.add_0_r.
  - rewrite IH. replace (d + delta c + depth a)%Z with (d + (delta c + depth a))%Z by lia.
    lia.
Qed.

(** The first entry is a prefix of the string, the others occur in it. *)
Lemma split_entries_occur s : ∀ d,
  ∃ e es, split_entries d s = e :: es ∧ (∃ post, s = e +:+ post) ∧
          ∀ e', e' ∈ es → ∃ pre post, s = pre +:+ e' +:+ post.
Proof.
  induction s as [|c s IH]; intros d; simpl.
  - exists "", []. split_and!; [done|by exists ""|]. by intros e' ?%elem_of_nil.
  - case_decide as E.
    + destruct (IH d) as (e & es & -> & [post ->] & Hes).
      exists "", (e :: es). split_and!; [done|by eexists|].
      intros e' [->|He']%elem_of_cons.
      * exists (String c ""), post. done.
      * destruct (Hes _ He') as (pre & post' & Heq).
        exists (String c pre), post'. simpl. by rewrite <- Heq.
    + destruct (IH (d + delta c)%Z) as (e & es & -> & [post ->] & Hes). simpl.
      exists (String c e), es. split_and!; [done|by exists post|].
      intros e' He'. destruct (Hes _ He') as (pre & post' & Heq).
      exists (String c pre), post'. simpl. by rewrite <- Heq.
Qed.

Lemma elem_of_split_entries_occur s d e :
  e ∈ split_entries d s → ∃ pre post, s = pre +:+ e +:+ post.
Proof.
  destruct (split_entries_occur s d) as (e0 & es & -> & [post ->] & Hes).
  intros [->|He]%elem_of_cons; [by exists "", post | auto].
Qed.

(** In a string that stays within depth 0..1 and ends at depth 0, every
    entry after the first is well formed, and the first one is when the
    string starts at depth 0. *)
Lemma split_entries_nested s : ∀ d,
  (∀ pre post, s = pre +:+ post → (0 ≤ d + depth pre ≤ 1)%Z) →
  (d + depth s = 0)%Z →
  ∃ e es, split_entries d s = e :: es ∧
          (∀ pre post, e = pre +:+ post → (0 ≤ d + depth pre ≤ 1)%Z) ∧
          (d + depth e = 0)%Z ∧ Forall well_formed es.
Proof.
  induction s as [|c s IH]; intros d Hpre Hd; simpl in *.
  - exists "", []. split_and!; [done| |done|done].
    intros pre post E. symmetry in E. apply sapp_nil_inv in E as [-> _].
    apply (Hpre "" "" eq_refl).
  - assert (H0 : (0 ≤ d ≤ 1)%Z).
    { specialize (Hpre "" (String c s) eq_refl). simpl in Hpre. lia. }
    case_decide as E.
    + destruct E as [-> ->]. change (delta ",") with 0%Z in *.
      destruct (IH 0%Z) as (e & es & -> & He & Hde & Hes); [|lia|].
      { intros pre post ->. specialize (Hpre (String "," pre) post eq_refl).
        simpl in Hpre. change (delta ",") with 0%Z in Hpre. lia. }
      exists "", (e :: es). split_and!; [done| |done|].
      * intros pre post E. symmetry in E. apply sapp_nil_inv in E as [-> _]. done.
      * constructor; [|done]. split; [|lia].
        intros pre post E. specialize (He _ _ E). lia.
    + destruct (IH (d + delta c)%Z) as (e & es & -> & He & Hde & Hes); [|lia|].
      { intros pre post ->. specialize (Hpre (String c pre) post eq_refl).
        simpl in Hpre. lia. }
      simpl. exists (String c e), es. split_and!; [done| |simpl; lia|done].
      intros [|c' pre] post E'; simpl in *; [lia|].
      injection E' as -> E'. specialize (He _ _ E'). lia.
Qed.

Lemma split_entries_well_formed s :
  well_formed s → Forall well_formed (split_entries 0 s).
Proof.
  intros [Hwn Hd].
  destruct (split_entries_nested s 0) as (e & es & -> & He & Hde & Hes); [|lia|].
  { intros pre post E. specialize (Hwn _ _ E). lia. }
  constructor; [|done]. split; [|lia].
  intros pre post E. specialize (He _ _ E). lia.
Qed.

(** Stripping keeps an entry well formed and free of commas at depth 0. *)
Lemma well_formed_strip e :
  well_formed e → outside_commas 0 e = 0 →
  well_formed (strip e) ∧ outside_commas 0 (strip e) = 0.
Proof.
  intros [Hwn Hd] Hc. destruct (strip_spec e) as (l & r & He & Hl & Hr & _).
  revert He. generalize (strip e). intros x ->.
  destruct (all_space_plain l Hl 0%Z) as [Hdl Hcl].
  destruct (all_space_plain r Hr 0%Z) as [Hdr _].
  rewrite !depth_app in Hd. rewrite !outside_commas_app, Hdl in Hc.
  change (0 + 0)%Z with 0%Z in Hc.
  split; [split|]; [|lia|lia].
  intros pre post ->.
  specialize (Hwn (l +:+ pre) (post +:+ r)). rewrite depth_app, Hdl in Hwn.
  apply Hwn. by rewrite !sapp_assoc.
Qed.

Lemma parse_filter_Returned s ns :
  _parse_filter s = Returned ns →
  well_formed s ∧ ns = foldl NameSet.add ∅ (split_entries 0 s).
Proof.
  intros H. pose proof (parse_filter_cases s) as Hc.
  destruct (first_error 0 0 s) as [[i c]|] eqn:E; [congruence|].
  destruct Hc as [[_ Hc]|[Hd Hc]]; [congruence|].
  split; [|congruence]. split; [|done]. by apply well_nested_first_error.
Qed.

Lemma foldl_add_union (l : list string) (ns : gset string) :
  foldl NameSet.add ns l = ns ∪ foldl NameSet.add ∅ l.
Proof.
  apply set_eq. intros x. rewrite elem_of_union, !elem_of_foldl_add.
  rewrite elem_of_empty. tauto.
Qed.

End parser_more.

Section parser_properties.
Implicit Types s t l r : string.

(** A name that [_parse_filter] returns is what [strip] leaves of an entry,
    and is neither empty nor padded nor cut by a comma. *)
Lemma parsed_name s ns x :
  _parse_filter s = Returned ns → x ∈ ns →
  x ≠ "" ∧ trimmed x ∧ well_formed x ∧ outside_commas 0 x = 0 ∧
  ∃ e, e ∈ split_entries 0 s ∧ x = strip e.
Proof.
  intros [Hwf ->]%parse_filter_Returned Hx.
  apply elem_of_foldl_add in Hx as [Hx|[Hne (e & He & ->)]]; [by apply elem_of_empty in Hx|].
  destruct (strip_spec e) as (l & r & Heq & _ & _ & Ht).
  assert (Hewf : well_formed e).
  { apply split_entries_well_formed in Hwf. rewrite Forall_forall in Hwf. auto. }
  assert (Hec : outside_commas 0 e = 0).
  { destruct (split_entries_no_comma s 0) as (e0 & es & Hs & H0 & Hes).
    rewrite Hs in He. apply elem_of_cons in He as [->|He]; [done|].
    rewrite Forall_forall in Hes. auto. }
  destruct (well_formed_strip e Hewf Hec) as [? ?].
  split_and!; [done..|]. by exists e.
Qed.

(** X1. Every name that [_parse_filter] returns is non-empty, has no white
    space at either end, occurs in the filter string, has balanced
    parentheses and no comma outside them. *)
Theorem parse_filter_names s ns x :
  _parse_filter s = Returned ns → x ∈ ns →
  x ≠ "" ∧ trimmed x ∧ (∃ pre post, s = pre +:+ x +:+ post) ∧
  well_formed x ∧ outside_commas 0 x = 0.
Proof.
  intros Hp Hx.
  destruct (parsed_name s ns x Hp Hx) as (Hne & Ht & Hwf & Hc & e & He & ->).
  split_and!; [done..| |done|done].
  destruct (strip_spec e) as (l & r & Heq & _).
  destruct (elem_of_split_entries_occur _ _ _ He) as (pre & post & ->).
  exists (pre +:+ l), (r +:+ post). rewrite Heq at 1. by rewrite !sapp_assoc.
Qed.

(** X2. A comma between two filters that parse gives the union of their
    names; so neither the order nor the repetition of entries matters. *)
Theorem parse_filter_comma a b na nb :
  _parse_filter a = Returned na → _parse_filter b = Returned nb →
  _parse_filter (a +:+ "," +:+ b) = Returned (na ∪ nb) ∧
  _parse_filter (b +:+ "," +:+ a) = _parse_filter (a +:+ "," +:+ b) ∧
  _parse_filter (a +:+ "," +:+ a) = Returned na.
Proof.
  intros [Ha ->]%parse_filter_Returned [Hb ->]%parse_filter_Returned.
  assert (Hcomma : ∀ u v, well_formed u → well_formed v →
            _parse_filter (u +:+ "," +:+ v)
            = Returned (foldl NameSet.add ∅ (split_entries 0 u)
                        ∪ foldl NameSet.add ∅ (split_entries 0 v))).
  { intros u v Hu Hv. rewrite well_formed_parse.
    - change ("," +:+ v) with (String "," v).
      rewrite split_entries_comma, foldl_app.
      + by rewrite foldl_add_union.
      + destruct Hu as [_ ->]. done.
      + intros pre post E. destruct Hu as [Hu _]. specialize (Hu _ _ E). lia.
    - apply well_formed_app; [done|]. apply (well_formed_app ","); [|done].
      apply well_formed_comma. }
  rewrite !Hcomma by done. split_and!; [done| |].
  - f_equal. apply set_eq. intros x. rewrite !elem_of_union. tauto.
  - f_equal. apply set_eq. intros x. rewrite !elem_of_union. tauto.
Qed.

Lemma first_error_app s t : ∀ d p x,
  first_error d p s = Some x → first_error d p (s +:+ t) = Some x.
Proof.
  induction s as [|c s IH]; intros d p x; simpl; [done|].
  case_decide; [apply IH | done].
Qed.

(** X3. An unexpected character is reported whatever follows it. *)
Theorem parse_filter_error_persists a t c i :
  _parse_filter a = Raised (FilterParseError (unexpected_msg c i)) →
  _parse_filter (a +:+ t) = Raised (FilterParseError (unexpected_msg c i)).
Proof.
  intros H. pose proof (parse_filter_cases a) as Ha.
  pose proof (parse_filter_cases (a +:+ t)) as Hat.
  destruct (first_error 0 0 a) as [[i' c']|] eqn:E.
  - rewrite (first_error_app _ _ _ _ _ E) in Hat. congruence.
  - destruct Ha as [[_ Ha]|[_ Ha]]; rewrite Ha in H; [|done].
    exfalso. revert H. unfold unexpected_msg, not_closed_msg, FilterParseError.
    simpl. discriminate.
Qed.

Lemma split_entries_single x : ∀ d, outside_commas d x = 0 → split_entries d x = [x].
Proof.
  induction x as [|c x IH]; intros d; simpl; [done|].
  case_decide as E; [lia|]. intros H. by rewrite IH by lia.
Qed.

Lemma split_entries_concat (l : list string) :
  l ≠ [] → Forall (λ x, well_formed x ∧ outside_commas 0 x = 0) l →
  well_formed (String.concat "," l) ∧ split_entries 0 (String.concat "," l) = l.
Proof.
  induction l as [|x l IH]; [done|]. intros _ Hl.
  apply Forall_cons in Hl as [[Hx Hc] Hl]. destruct l as [|y l].
  - simpl. split; [done|]. by apply split_entries_single.
  - destruct IH as [IH1 IH2]; [done..|].
    change (String.concat "," (x :: y :: l))
      with (x +:+ "," +:+ String.concat "," (y :: l)).
    split.
    + apply well_formed_app; [done|]. apply (well_formed_app ","); [|done].
      apply well_formed_comma.
    + change ("," +:+ String.concat "," (y :: l))
        with (String "," (String.concat "," (y :: l))).
      rewrite split_entries_comma, IH2, split_entries_single by
        (try done; try (destruct Hx as [_ ->]; done);
         intros pre post E; destruct Hx as [Hx _]; specialize (Hx _ _ E); lia).
      done.
Qed.

(** X4. The names that [_parse_filter] returns, joined by commas, parse to
    the same set. *)
Theorem parse_filter_round_trip s ns :
  _parse_filter s = Returned ns →
  _parse_filter (String.concat "," (sorted_names ns)) = Returned ns.
Proof.
  intros H. destruct (decide (sorted_names ns = [])) as [E|E].
  - rewrite E. apply sorted_names_nil in E as ->. done.
  - assert (Hl : Forall (λ x, well_formed x ∧ outside_commas 0 x = 0) (sorted_names ns)).
    { apply Forall_forall. intros x Hx%elem_of_sorted_names.
      destruct (parsed_name _ _ _ H Hx) as (_ & _ & ? & ? & _). done. }
    destruct (split_entries_concat _ E Hl) as [Hwf Hs].
    rewrite well_formed_parse, Hs by done. f_equal.
    apply set_eq. intros x. rewrite elem_of_foldl_add, elem_of_empty. split.
    + intros [[]|[_ (e & He%elem_of_sorted_names & ->)]].
      destruct (parsed_name _ _ _ H He) as (_ & Ht & _).
      by rewrite strip_trimmed.
    + intros Hx. destruct (parsed_name _ _ _ H Hx) as (Hne & Ht & _).
      right. split; [done|]. exists x. rewrite elem_of_sorted_names.
      by rewrite strip_trimmed.
Qed.

(** X5. White space around a name does not matter to [NameSet.add], and
    adding a name again, however padded, changes nothing. *)
Theorem NameSet_add_padding (self : gset string) l name r :
  all_space l = true → all_space r = true →
  NameSet.add self (l +:+ name +:+ r) = NameSet.add self name ∧
  NameSet.add (NameSet.add self name) (l +:+ name +:+ r) = NameSet.add self name.
Proof.
  intros Hl Hr.
  assert (H : ∀ ns : gset string, NameSet.add ns (l +:+ name +:+ r) = NameSet.add ns name).
  { intros ns. unfold NameSet.add. by rewrite strip_padding. }
  split; [done|]. rewrite H. apply set_eq. intros x.
  rewrite !elem_of_NameSet_add. tauto.
Qed.

End parser_properties.

Section blank_filter.
Implicit Types s t l r : string.

Lemma occurs_cons (P : ascii → Prop) c s :
  (∀ pre c' post, String c s = pre +:+ String c' post → P c') ↔
  P c ∧ ∀ pre c' post, s = pre +:+ String c' post → P c'.
Proof.
  split.
  - intros H. split; [by apply (H "" c s)|].
    intros pre c' post ->. by apply (H (String c pre) c' post).
  - intros [Hc Hs] [|c0 pre] c' post E; simpl in E; injection E as -> E; [done|].
    by apply (Hs pre c' post).
Qed.

Lemma occurs_app (P : ascii → Prop) a b :
  (∀ pre c post, a +:+ b = pre +:+ String c post → P c) ↔
  (∀ pre c post, a = pre +:+ String c post → P c) ∧
  (∀ pre c post, b = pre +:+ String c post → P c).
Proof.
  induction a as [|c a IH]; simpl.
  - split; [intros H; split; [|done] | by intros [_ H]].
    by intros [|??] ???.
  - rewrite !occurs_cons, IH. tauto.
Qed.

Lemma all_space_occurs s :
  all_space s = true ↔ ∀ pre c post, s = pre +:+ String c post → isspace c = true.
Proof.
  induction s as [|c s IH]; simpl.
  - split; [|done]. by intros _ [|??] ???.
  - rewrite occurs_cons, <- IH, andb_true_iff. done.
Qed.

Lemma strip_nil s : strip s = "" ↔ all_space s = true.
Proof.
  split.
  - intros E. destruct (strip_spec s) as (l & r & Hs & Hl & Hr & _).
    rewrite E in Hs. rewrite Hs. simpl. by rewrite all_space_app, Hl, Hr.
  - intros H. unfold strip. by rewrite lstrip_all_space.
Qed.

(** Without parentheses every comma cuts: an entry is free of commas. *)
Lemma blank_entries s :
  (∀ pre c post, s = pre +:+ String c post → isspace c = true ∨ c = ","%char) →
  depth s = 0%Z ∧ Forall (λ e, all_space e = true) (split_entries 0 s).
Proof.
  induction s as [|c s IH]; simpl.
  - intros _. split; [done|]. by constructor.
  - rewrite occurs_cons. intros [Hc Hs]. destruct (IH Hs) as [Hd Hl].
    case_decide as E.
    + destruct E as [-> _]. split; [by rewrite Hd|]. by constructor.
    + destruct Hc as [Hc| ->]; [|by destruct E].
      destruct (isspace_plain c Hc) as (? & ? & ?).
      rewrite delta_other by done. change (0 + 0)%Z with 0%Z. split; [lia|].
      destruct (split_entries 0 s) as [|e es]; simpl.
      * constructor; [simpl; by rewrite Hc|done].
      * apply Forall_cons in Hl as [He Hes]. constructor; [|done].
        simpl. by rewrite Hc, He.
Qed.

Lemma blank_concat (l : list string) :
  Forall (λ e, all_space e = true) l →
  ∀ pre c post, String.concat "," l = pre +:+ String c post →
    isspace c = true ∨ c = ","%char.
Proof.
  induction l as [|e l IH]; intros Hl.
  - by intros [|??] ???.
  - apply Forall_cons in Hl as [He Hl]. destruct l as [|e' l].
    + simpl. intros pre c post E. left. by apply (proj1 (all_space_occurs e) He pre c post).
    + change (String.concat "," (e :: e' :: l))
        with (e +:+ String "," (String.concat "," (e' :: l))).
      apply occurs_app. split.
      * intros pre c post E. left. by apply (proj1 (all_space_occurs e) He pre c post).
      * apply occurs_cons. split; [by right|]. by apply IH.
Qed.

(** X6. [_parse_filter] returns the empty set, which [run] takes for no
    filter at all, exactly on the strings made of white space and commas. *)
Theorem parse_filter_blank s :
  _parse_filter s = Returned ∅ ↔
  ∀ pre c post, s = pre +:+ String c post → isspace c = true ∨ c = ","%char.
Proof.
  split.
  - intros H. pose proof H as [Hwf Hns]%parse_filter_Returned.
    rewrite <- (concat_split_entries s 0). apply blank_concat, Forall_forall.
    intros e He. apply strip_nil. destruct (decide (strip e = "")) as [|Hne]; [done|].
    assert (Hin : strip e ∈ (∅ : gset string)).
    { rewrite Hns. apply elem_of_foldl_add. right. split; [done|]. by exists e. }
    by apply elem_of_empty in Hin.
  - intros H. destruct (blank_entries s H) as [Hd Hl].
    rewrite well_formed_parse.
    + f_equal. apply set_eq. intros x. rewrite elem_of_foldl_add, elem_of_empty.
      split; [|done]. intros [[]|[Hne (e & He & ->)]].
      rewrite Forall_forall in Hl. apply Hne, strip_nil. auto.
    + split; [|done]. intros pre post ->. apply occurs_app in H as [H _].
      destruct (blank_entries pre H) as [-> _]. lia.
Qed.

End blank_filter.

Lemma parse_filter_comma_witness :
  _parse_filter "x(1,2)" = Returned {[ "x(1,2)" ]} ∧
  _parse_filter " y " = Returned {[ "y" ]} ∧
  _parse_filter "x(1,2), y " = Returned ({[ "x(1,2)" ]} ∪ {[ "y" ]}).
Proof.
  assert (Ha : _parse_filter "x(1,2)" = Returned {[ "x(1,2)" ]}) by (by vm_compute).
  assert (Hb : _parse_filter " y " = Returned {[ "y" ]}) by (by vm_compute).
  split_and!; [done..|]. exact (proj1 (parse_filter_comma _ _ _ _ Ha Hb)).
Defined.

Lemma parse_filter_names_witness :
  _parse_filter " a(x , y) ,b" = Returned {[ "a(x , y)"; "b" ]} ∧
  "a(x , y)" ∈ ({[ "a(x , y)"; "b" ]} : gset string) ∧
  well_formed "a(x , y)" ∧ outside_commas 0 "a(x , y)" = 0.
Proof.
  assert (Hp : _parse_filter " a(x , y) ,b" = Returned {[ "a(x , y)"; "b" ]})
    by (by vm_compute).
  assert (Hx : "a(x , y)" ∈ ({[ "a(x , y)"; "b" ]} : gset string)).
  { apply elem_of_union. left. by apply elem_of_singleton. }
  split_and!; [done..| |]; apply (parse_filter_names _ _ _ Hp Hx).
Defined.

Lemma parse_filter_error_persists_witness :
  _parse_filter "a)b" = Raised (FilterParseError (unexpected_msg ")" 1)) ∧
  _parse_filter "a)b(c" = Raised (FilterParseError (unexpected_msg ")" 1)).
Proof.
  assert (H : _parse_filter "a)b" = Raised (FilterParseError (unexpected_msg ")" 1)))
    by (by vm_compute).
  split; [done|]. exact (parse_filter_error_persists "a)b" "(c" _ _ H).
Defined.

Lemma parse_filter_round_trip_witness :
  _parse_filter " b ,a(1,2),, b" = Returned {[ "a(1,2)"; "b" ]} ∧
  _parse_filter (String.concat "," (sorted_names {[ "a(1,2)"; "b" ]}))
  = Returned {[ "a(1,2)"; "b" ]}.
Proof.
  assert (H : _parse_filter " b ,a(1,2),, b" = Returned {[ "a(1,2)"; "b" ]})
    by (by vm_compute).
  split; [done|]. exact (parse_filter_round_trip _ _ H).
Defined.

Lemma NameSet_add_padding_witness :
  all_space " " = true ∧ all_space "  " = true ∧
  NameSet.add ∅ (" " +:+ "a b" +:+ "  ") = NameSet.add ∅ "a b".
Proof.
  split_and!; [done..|].
  exact (proj1 (NameSet_add_padding ∅ " " "a b" "  " eq_refl eq_refl)).
Defined.

(** ** The resolver *)

Section resolver_properties.
Context {Data : Type} `{!Collaborators Data}.
Implicit Types E : list (miner * list string).
Implicit Types nsm : namespace.

Lemma setitem_nonempty {K V} `{EqDecision K} (d : list (K * V)) k v :
  PyDict.setitem d k v ≠ [].
Proof. destruct d as [|[??]?]; simpl; [done|]. by case_decide. Qed.

Lemma buckets_foldl_assign log : ∀ nsm,
  (∀ m b, PyDict.get nsm m = Some b → b ≠ []) →
  ∀ m b, PyDict.get (foldl assign nsm log) m = Some b → b ≠ [].
Proof.
  induction log as [|[[m' p] n] log IH]; intros nsm Hn; simpl; [done|].
  apply IH. intros m b. unfold assign. simpl. rewrite get_register.
  case_decide; [|apply Hn]. intros [= <-]. apply setitem_nonempty.
Qed.

Lemma registered_producer E m p n : registered E m p n → m ∈ producers E n.
Proof. intros [[-> _]|(_ & ? & _)]; [left|done]. Qed.

Lemma producer_registered E m n :
  m ∈ producers E n → ∃ p, registered E m p n.
Proof.
  intros Hm. destruct (producers E n) as [|m0 [|m1 l]] eqn:Hp.
  - by apply elem_of_nil in Hm.
  - apply list_elem_of_singleton in Hm as ->. exists n. left. by rewrite Hp.
  - exists (modified n m). right. rewrite Hp. split_and!; [simpl; lia|done..].
Qed.

(** X7. A miner has a bucket exactly when it yields at least one name, and
    no bucket is empty. *)
Theorem namespace_keys E nsm :
  resolve E = Returned nsm →
  (∀ m, m ∈ PyDict.keys nsm ↔ ∃ names x, (m, names) ∈ E ∧ x ∈ names) ∧
  (∀ m b, PyDict.get nsm m = Some b → b ≠ []).
Proof.
  intros Hres.
  assert (Hne : ∀ m b, PyDict.get nsm m = Some b → b ≠ []).
  { rewrite resolve_Returned in Hres. injection Hres as <-.
    apply buckets_foldl_assign. done. }
  split; [|done]. intros m. split.
  - intros [b Hb]%elem_of_keys_get. pose proof (Hne _ _ Hb) as Hbne.
    destruct b as [|[p n] b]; [done|].
    assert (Hl : lookup2 nsm m p = Some n).
    { unfold lookup2. rewrite Hb. simpl. by rewrite decide_True. }
    apply (lookup2_resolve_sound E) in Hl; [|done].
    apply registered_producer, elem_of_producers in Hl as (names & ? & ?).
    by exists names, n.
  - intros (names & x & HE & Hx).
    assert (Hm : m ∈ producers E x) by (apply elem_of_producers; eauto).
    destruct (producer_registered _ _ _ Hm) as [p Hr].
    destruct (lookup2_resolve_complete E nsm m p x Hres Hr) as (n' & Hl & _).
    apply elem_of_keys_get. unfold lookup2 in Hl.
    destruct (PyDict.get nsm m); [done|]. done.
Qed.

Lemma filter_absent (ys : list (miner * string)) x :
  x ∉ ys.*2 → filter (λ y, y.2 = x) ys = [].
Proof.
  induction ys as [|y ys IH]; [done|]. rewrite fmap_cons, not_elem_of_cons.
  intros [Hy Hys]. rewrite filter_cons_False by done. auto.
Qed.

Lemma producers_NoDup E x : NoDup (yields E).*2 → length (producers E x) ≤ 1.
Proof.
  unfold producers. rewrite length_fmap. generalize (yields E). intros ys.
  induction ys as [|y ys IH]; [simpl; lia|]. rewrite fmap_cons, NoDup_cons.
  intros [Hy Hys]. destruct (decide (y.2 = x)) as [<-|Hne].
  - rewrite filter_cons_True, filter_absent by done. simpl. lia.
  - rewrite filter_cons_False by done. auto.
Qed.

(** X8. When no name is yielded twice, by one miner or by two, every name is
    public under itself in the bucket of the miner that yields it, and the
    namespace has no other entries. *)
Theorem resolver_identity E :
  NoDup (yields E).*2 →
  ∃ nsm, resolve E = Returned nsm ∧
    ∀ m p n, lookup2 nsm m p = Some n ↔
             p = n ∧ ∃ names, (m, names) ∈ E ∧ n ∈ names.
Proof.
  intros Hnd. eexists. split; [apply resolve_Returned|].
  pose proof (resolve_Returned E) as Hres.
  set (nsm := foldl assign [] (name_miner_map E ≫= registrations_of)) in *.
  assert (Hone : ∀ m p n, registered E m p n → p = n).
  { intros m p n [[_ ->]|(Hlen & _)]; [done|].
    pose proof (producers_NoDup E n Hnd). lia. }
  intros m p n. split.
  - intros Hl%(lookup2_resolve_sound E); [|done]. split; [by eapply Hone|].
    by apply elem_of_producers, registered_producer with p.
  - intros [-> Hm%elem_of_producers].
    destruct (producer_registered _ _ _ Hm) as [p Hr].
    pose proof (Hone _ _ _ Hr) as ->.
    destruct (lookup2_resolve_complete E nsm m n n Hres Hr) as (n' & -> & Hr').
    f_equal. symmetry. by eapply Hone.
Qed.

Lemma lookup2_resolve_iff E nsm m p n :
  no_recollision E → resolve E = Returned nsm →
  lookup2 nsm m p = Some n ↔ registered E m p n.
Proof.
  intros Hnr Hres. split; [by apply lookup2_resolve_sound|].
  intros Hr. destruct (lookup2_resolve_complete E nsm m p n Hres Hr) as (n' & -> & Hr').
  f_equal. by eapply registered_unique.
Qed.

Lemma producers_Permutation E E' x :
  yields E' ≡ₚ yields E → producers E' x ≡ₚ producers E x.
Proof. intros HP. unfold producers. by rewrite HP. Qed.

Lemma registered_Permutation E E' m p n :
  yields E' ≡ₚ yields E → registered E' m p n → registered E m p n.
Proof.
  intros HP. pose proof (producers_Permutation E E' n HP) as Hn.
  intros [[Hp ->]|(Hlen & Hm & ->)].
  - left. split; [|done]. rewrite Hp in Hn. symmetry in Hn.
    by apply Permutation_singleton_r in Hn.
  - right. rewrite <- Hn. done.
Qed.

(** X9. Without recollision, the entries of the namespace do not depend on
    the order in which the miners are registered or yield their names. *)
Theorem resolver_order_independent E E' nsm nsm' :
  no_recollision E → yields E' ≡ₚ yields E →
  resolve E = Returned nsm → resolve E' = Returned nsm' →
  ∀ m p, lookup2 nsm' m p = lookup2 nsm m p.
Proof.
  intros Hnr HP Hres Hres' m p.
  assert (Hnr' : no_recollision E').
  { intros x m' Hlen Hm. pose proof (producers_Permutation E E' x HP) as Hx.
    rewrite Hx in Hlen, Hm. specialize (Hnr x m' Hlen Hm).
    pose proof (producers_Permutation E E' (modified x m') HP) as Hmx.
    rewrite Hnr in Hmx. by apply Permutation_nil_r in Hmx. }
  destruct (lookup2 nsm m p) as [n|] eqn:Hl.
  - apply lookup2_resolve_iff with E'; [done..|].
    apply lookup2_resolve_iff with (E:=E) in Hl; [|done..].
    apply registered_Permutation with E; [by symmetry|done].
  - destruct (lookup2 nsm' m p) as [n|] eqn:Hl'; [|done].
    apply lookup2_resolve_iff with (E:=E') in Hl'; [|done..].
    apply (registered_Permutation E E') in Hl'; [|done].
    apply lookup2_resolve_iff with (nsm:=nsm) in Hl'; [|done..]. congruence.
Qed.

End resolver_properties.

Lemma namespace_keys_witness :
  @resolve string (sample (λ _, "M") (λ _, []))
    [(Miner 0, ["a"]); (Miner 1, []); (Miner 2, ["a"; "b"])]
  = Returned [(Miner 0, [("a_M", "a")]); (Miner 2, [("a_M", "a"); ("b", "b")])] ∧
  Miner 1 ∉ @PyDict.keys miner (list (string * string))
              [(Miner 0, [("a_M", "a")]); (Miner 2, [("a_M", "a"); ("b", "b")])].
Proof.
  assert (H : @resolve string (sample (λ _, "M") (λ _, []))
                [(Miner 0, ["a"]); (Miner 1, []); (Miner 2, ["a"; "b"])]
              = Returned [(Miner 0, [("a_M", "a")]); (Miner 2, [("a_M", "a"); ("b", "b")])])
    by (by vm_compute).
  split; [done|].
  rewrite (proj1 (namespace_keys _ _ H) (Miner 1)).
  intros (names & x & HE & Hx).
  apply elem_of_cons in HE as [[=]|HE].
  apply elem_of_cons in HE as [[= ->]|HE]; [by apply elem_of_nil in Hx|].
  apply elem_of_cons in HE as [[=]|HE]. by apply elem_of_nil in HE.
Defined.

Lemma resolver_identity_witness :
  NoDup (yields [(Miner 0, ["a"; "b"]); (Miner 1, ["c"])]).*2 ∧
  ∃ nsm, @resolve string items_sample [(Miner 0, ["a"; "b"]); (Miner 1, ["c"])]
         = Returned nsm ∧
         lookup2 nsm (Miner 1) "c" = Some "c".
Proof.
  assert (H : NoDup (yields [(Miner 0, ["a"; "b"]); (Miner 1, ["c"])]).*2).
  { apply (bool_decide_unpack _). by vm_compute. }
  split; [done|].
  destruct (@resolver_identity string items_sample _ H) as (nsm & Hres & Hl).
  exists nsm. split; [done|]. apply Hl. split; [done|].
  exists ["c"]. split; [right; left | left].
Defined.

Lemma resolver_order_independent_witness :
  @no_recollision string items_sample items_miners ∧
  yields [(Miner 1, ["types"; "items"]); (Miner 0, ["blueprints"; "items"])]
    ≡ₚ yields items_miners ∧
  ∀ nsm nsm',
    @resolve string items_sample items_miners = Returned nsm →
    @resolve string items_sample
      [(Miner 1, ["types"; "items"]); (Miner 0, ["blueprints"; "items"])]
    = Returned nsm' →
    lookup2 nsm' (Miner 0) "items_MinerA" = lookup2 nsm (Miner 0) "items_MinerA".
Proof.
  assert (H : @no_recollision string items_sample items_miners).
  { by apply no_recollisionb_correct. }
  assert (HP : yields [(Miner 1, ["types"; "items"]); (Miner 0, ["blueprints"; "items"])]
                 ≡ₚ yields items_miners).
  { change (reverse (yields items_miners) ≡ₚ yields items_miners).
    apply reverse_Permutation. }
  split_and!; [done..|]. intros nsm nsm' Hres Hres'.
  apply (@resolver_order_independent string items_sample _ _ _ _ H HP Hres Hres').
Defined.

(** ** run *)

Section run_properties.
Context {Data : Type} `{!Collaborators Data}.
Implicit Types self : FlowManager.
Implicit Types h t : list (event Data).
Implicit Types nsm : namespace.

Lemma cache_ok_None self : __name_source_map self = None → cache_ok self.
Proof. intros H nsm. by rewrite H. Qed.

(** What every fetch of the loop asks for is bound in the bucket of the
    miner that is asked. *)
Lemma fetches_bound ws nsm (fs : gset string) order t ab :
  blocks (miner_block ws nsm fs) order t ab →
  Forall (λ ev, ∀ m src res, ev = CallGetData m src res →
                ∃ p, lookup2 nsm m p = Some src) t.
Proof.
  apply blocks_Forall. intros m t1 ab1 [bucket ?? | bucket tn ab' Hb ? Hn].
  { constructor. }
  constructor; [done|]. revert Hn. apply blocks_Forall.
  assert (Hl : ∀ p src, PyDict.get bucket p = Some src → lookup2 nsm m p = Some src).
  { intros p src Hp. unfold lookup2. by rewrite Hb. }
  intros p t2 ab2 [src e Hp ? | src e Hp ? | src d tw ab'' Hp Hw].
  - repeat constructor; try done. intros ??? [= <- <- <-]. eauto.
  - repeat constructor; try done. intros ??? [= <- <- <-]. eauto.
  - constructor; [done|]. constructor; [intros ??? [= <- <- <-]; eauto|].
    revert Hw. apply blocks_Forall. intros w t3 ab3 []; by repeat constructor.
Qed.

Lemma enumeration_elem_of t (E : list (miner * list string)) m names :
  Forall2 (λ ev y, ev = CallContnameIter y.1 y.2) t E →
  (m, names) ∈ E → CallContnameIter m names ∈ t.
Proof.
  induction 1 as [|ev y t E -> _ IH]; [by intros ?%elem_of_nil|].
  intros [<-|?]%elem_of_cons; [left | right; auto].
Qed.

Lemma report_quiet_elem_of (fs ps : gset string) ev :
  ev ∈ report (Data:=Data) fs ps → quiet_event ev.
Proof. intros H. pose proof (quiet_report (Data:=Data) fs ps) as Hq. rewrite Forall_forall in Hq. auto. Qed.

Lemma tail_quiet nsm (fs : gset string) order (ab : option exn) ev :
  ev ∈ match ab with
       | None => report (Data:=Data) fs (selected nsm fs order)
       | Some _ => []
       end → quiet_event ev.
Proof. destruct ab; [by intros ?%elem_of_nil | apply report_quiet_elem_of]. Qed.

(** X10. On an object that has no namespace yet, [run] asks a miner only
    for names that this miner has yielded, earlier in the same run. *)
Theorem run_fetches_enumerated filter_string self h t self' r m src res :
  __name_source_map self = None →
  run filter_string self h = (t, self', r) →
  CallGetData m src res ∈ t →
  m ∈ _miners self ∧
  ∃ t1 names t2, t = t1 ++ CallContnameIter m names :: t2 ∧ src ∈ names ∧
                 CallGetData m src res ∈ t2.
Proof.
  intros Hnone Hrun Hin.
  destruct (_parse_filter filter_string) as [fs|e] eqn:Hp; cycle 1.
  { rewrite (run_parse_error _ e) in Hrun by done. injection Hrun as <- _ _.
    by apply elem_of_nil in Hin. }
  destruct (run_conforms filter_string fs self h (cache_ok_None _ Hnone) Hp)
    as (t0 & self1 & nsm & order & t1 & ab & Hn & _ & _ & _ & _ & _ & _ & _ & Hb & Hr).
  rewrite Hrun in Hr. injection Hr as -> -> ->.
  pose proof (name_source_map_spec self h) as Hspec. rewrite Hnone in Hspec.
  destruct Hspec as (t0' & E & nsm' & Hn' & HE & Henum & Hres).
  rewrite Hn in Hn'. injection Hn' as <- _ <-.
  apply elem_of_app in Hin as [Hin|Hin].
  { apply (enumeration_name_source_map _ _ _ _ _) in Hn.
    rewrite Forall_forall in Hn. by apply Hn in Hin. }
  apply elem_of_app in Hin as [Hin|Hin]; [|by apply tail_quiet in Hin].
  pose proof (fetches_bound _ _ _ _ _ _ Hb) as Hf. rewrite Forall_forall in Hf.
  destruct (Hf _ Hin m src res eq_refl) as [p Hl].
  apply (lookup2_resolve_sound E) in Hl; [|done].
  assert (Hm : m ∈ producers E src).
  { destruct Hl as [[-> _]|(_ & ? & _)]; [left|done]. }
  pose proof Hm as (names & HmE & Hsrc)%elem_of_producers.
  split. { rewrite <- HE. apply list_elem_of_fmap. by exists (m, names). }
  apply (enumeration_elem_of _ _ _ _ Henum) in HmE.
  apply list_elem_of_split in HmE as (ta & tb & ->).
  exists ta, names, (tb ++ t1 ++
    match ab with None => report fs (selected nsm fs order) | Some _ => [] end).
  split_and!; [by rewrite <- app_assoc | done |].
  apply elem_of_app. right. apply elem_of_app. by left.
Qed.

Lemma blocks_elem_of {A} (B : A → list (event Data) → option exn → Prop) xs t ab ev :
  blocks B xs t ab → ev ∈ t →
  ∃ x ta tb tc ab', x ∈ xs ∧ t = ta ++ tb ++ tc ∧ B x tb ab' ∧ ev ∈ tb.
Proof.
  induction 1 as [|x xs t1 t2 ab H1 H2 IH|x xs t1 e H1].
  - by intros ?%elem_of_nil.
  - intros [Hin|Hin]%elem_of_app.
    + exists x, [], t1, t2, None. split_and!; [left|done..].
    + destruct (IH Hin) as (x' & ta & tb & tc & ab' & Hx & -> & HB & Hev).
      exists x', (t1 ++ ta), tb, tc, ab'.
      split_and!; [by right|by rewrite <- app_assoc|done..].
  - intros Hin. exists x, [], t1, [], (Some e).
    split_and!; [left|by rewrite app_nil_r|done..].
Qed.

(** Where a write of the loop is: after the fetch of the same public name
    that returned the data it hands over, with no fetch in between. *)
Lemma writes_located ws nsm (fs : gset string) order t ab w p d res :
  blocks (miner_block ws nsm fs) order t ab →
  CallWrite w p d res ∈ t →
  w ∈ ws ∧
  ∃ m src t1 t2 t3,
    lookup2 nsm m p = Some src ∧
    t = t1 ++ PrintProcessing p :: CallGetData m src (Returned d) :: t2
           ++ CallWrite w p d res :: t3 ∧
    fetches t2 = [].
Proof.
  intros Hb Hin.
  destruct (blocks_elem_of _ _ _ _ _ Hb Hin)
    as (m & ta & tb & tc & ab1 & _ & -> & Hm & Hin1).
  destruct Hm as [bucket ?? | bucket tn ab' Hbucket _ Hn]; [by apply elem_of_nil in Hin1|].
  apply elem_of_cons in Hin1 as [|Hin1]; [done|].
  destruct (blocks_elem_of _ _ _ _ _ Hn Hin1)
    as (p' & na & nb & nc & ab2 & _ & -> & Hp & Hin2).
  destruct Hp as [src e Hp ? | src e Hp ? | src d' tw ab'' Hp Hw].
  { repeat (apply elem_of_cons in Hin2 as [|Hin2]; [done|]). by apply elem_of_nil in Hin2. }
  { repeat (apply elem_of_cons in Hin2 as [|Hin2]; [done|]). by apply elem_of_nil in Hin2. }
  do 2 (apply elem_of_cons in Hin2 as [|Hin2]; [done|]).
  destruct (blocks_elem_of _ _ _ _ _ Hw Hin2)
    as (w' & wa & wb & wc & ab3 & Hw' & -> & Hwb & Hin3).
  pose proof (fetches_writes _ _ _ _ _ Hw) as Hfw.
  rewrite fetches_app in Hfw. apply app_eq_nil in Hfw as [Hfa _].
  assert (Hl : lookup2 nsm m p' = Some src).
  { unfold lookup2. by rewrite Hbucket. }
  assert (∃ wb', wb = CallWrite w p d res :: wb' ∧ w = w' ∧ p = p' ∧ d = d')
    as (wb' & -> & -> & -> & ->).
  { destruct Hwb as [|e ?|e ?].
    - apply list_elem_of_singleton in Hin3 as [= -> -> -> ->]. by eexists.
    - apply elem_of_cons in Hin3 as [[= -> -> -> ->]|Hin3]; [by eexists|].
      by apply list_elem_of_singleton in Hin3.
    - apply list_elem_of_singleton in Hin3 as [= -> -> -> ->]. by eexists. }
  split; [done|].
  exists m, src, (ta ++ PrintMiner (miner_type_name m) :: na), wa,
    (wb' ++ wc ++ nc ++ tc).
  split_and!; [done| |done].
  by repeat (rewrite <- ?app_assoc; simpl).
Qed.

(** X11. A writer that [run] calls is a registered one, and what it is
    handed is a public name with the data that the latest fetch returned, a
    fetch of the native name of that public name from a miner that has it. *)
Theorem run_writes_fetched filter_string self h t self' r w p d res :
  cache_ok self →
  run filter_string self h = (t, self', r) →
  CallWrite w p d res ∈ t →
  w ∈ _writers self ∧
  ∃ nsm m src t1 t2 t3,
    __name_source_map self' = Some nsm ∧ lookup2 nsm m p = Some src ∧
    t = t1 ++ PrintProcessing p :: CallGetData m src (Returned d) :: t2
           ++ CallWrite w p d res :: t3 ∧
    fetches t2 = [].
Proof.
  intros Hok Hrun Hin.
  destruct (_parse_filter filter_string) as [fs|e] eqn:Hp; cycle 1.
  { rewrite (run_parse_error _ e) in Hrun by done. injection Hrun as <- _ _.
    by apply elem_of_nil in Hin. }
  destruct (run_conforms filter_string fs self h Hok Hp)
    as (t0 & self1 & nsm & order & t1 & ab & Hn & Hc & _ & _ & _ & _ & _ & _ & Hb & Hr).
  rewrite Hrun in Hr. injection Hr as -> -> ->.
  apply elem_of_app in Hin as [Hin|Hin].
  { apply (enumeration_name_source_map _ _ _ _ _) in Hn.
    rewrite Forall_forall in Hn. by apply Hn in Hin. }
  apply elem_of_app in Hin as [Hin|Hin]; [|by apply tail_quiet in Hin].
  destruct (writes_located _ _ _ _ _ _ _ _ _ _ Hb Hin)
    as (Hw & m & src & ta & tb & tc & Hl & -> & Hf).
  split; [done|].
  exists nsm, m, src, (t0 ++ ta), tb,
    (tc ++ match ab with None => report fs (selected nsm fs order) | Some _ => [] end).
  split_and!; [done..| |done].
  by repeat (rewrite <- ?app_assoc; simpl).
Qed.

Lemma parse_filter_Raised s e :
  _parse_filter s = Raised e →
  kind e = BaseExceptionKind ∧ exn_type e = "FilterParseError".
Proof.
  intros H. pose proof (parse_filter_cases s) as Hc.
  destruct (first_error 0 0 s) as [[i c]|].
  - rewrite Hc in H. by injection H as <-.
  - destruct Hc as [[_ Hc]|[_ Hc]]; rewrite Hc in H; [|done]. by injection H as <-.
Qed.

(** X12. A filter string that does not parse makes [run] raise the parser's
    [FilterParseError], which no [except Exception] catches, before it
    prints or calls anything and without touching the object; and this is
    the only way for [run] to raise with an empty trace. *)
Theorem run_rejects_bad_filter filter_string e self h :
  cache_ok self →
  (_parse_filter filter_string = Raised e ↔
   ∃ self', run filter_string self h = ([], self', Raised e)) ∧
  (_parse_filter filter_string = Raised e →
   run filter_string self h = ([], self, Raised e) ∧
   kind e = BaseExceptionKind ∧ exn_type e = "FilterParseError").
Proof.
  intros Hok. split; [split|].
  - intros Hp. exists self. by apply run_parse_error.
  - intros [self' Hrun].
    destruct (_parse_filter filter_string) as [fs|e'] eqn:Hp.
    + destruct (run_shape _ _ _ _ _ _ _ Hok Hp Hrun)
        as (t0 & nsm & order & t1 & ab & Ht & Hr & _ & Hb & _).
      symmetry in Hr. apply finish_Raised in Hr as ->.
      apply blocks_ends in Hb; [|apply ends_miner].
      destruct Hb as (t' & ev & -> & _). symmetry in Ht.
      apply app_eq_nil in Ht as [_ Ht]. apply app_eq_nil in Ht as [Ht _].
      by apply app_eq_nil in Ht as [_ ?].
    + rewrite (run_parse_error _ e') in Hrun by done. by injection Hrun as _ ->.
  - intros Hp. split; [by apply run_parse_error | by eapply parse_filter_Raised].
Qed.

Lemma selected_public nsm (fs : gset string) order p :
  order ≡ₚ PyDict.keys nsm →
  p ∈ selected nsm fs order ↔ (∃ m, public_name nsm m p) ∧ (fs ≠ ∅ → p ∈ fs).
Proof.
  intros Hperm. rewrite elem_of_selected. split.
  - intros (m & Hm & [Hp Hfs]%elem_of_containers). split; [|done].
    exists m. unfold public_name, lookup2.
    destruct (PyDict.get nsm m) as [b|]; simpl in *; [done|]. by destruct Hp.
  - intros [[m Hm] Hfs]. exists m. unfold public_name, lookup2 in Hm.
    destruct (PyDict.get nsm m) as [b|] eqn:Hb; simpl in Hm; [|by destruct Hm].
    split.
    + rewrite Hperm. apply elem_of_keys_get. by rewrite Hb.
    + by apply elem_of_containers.
Qed.

(** X13. The names that a run processes are public names, and requested ones
    when there is a filter. A run that returns has processed every such
    name, and has reported as missing exactly the requested names that are
    public names of no miner. *)
Theorem run_processes_public filter_string (fs : gset string) self h t self' r :
  cache_ok self →
  _parse_filter filter_string = Returned fs →
  run filter_string self h = (t, self', r) →
  ∃ nsm, __name_source_map self' = Some nsm ∧
    (∀ p, PrintProcessing p ∈ t →
          (∃ m, public_name nsm m p) ∧ (fs ≠ ∅ → p ∈ fs)) ∧
    (r = Returned () →
       (∀ p, PrintProcessing p ∈ t ↔
             (∃ m, public_name nsm m p) ∧ (fs ≠ ∅ → p ∈ fs)) ∧
       (∀ p, PrintMissing p ∈ t ↔ p ∈ fs ∧ ¬ ∃ m, public_name nsm m p)).
Proof.
  intros Hok Hp Hrun.
  destruct (run_conforms filter_string fs self h Hok Hp)
    as (t0 & self1 & nsm & order & t1 & ab & Hn & Hc & _ & _ & _ & _ & Hperm & _ & Hb & Hr).
  rewrite Hrun in Hr. injection Hr as -> -> ->.
  exists nsm. split; [done|].
  pose proof (enumeration_name_source_map _ _ _ _ _ Hn) as H0.
  rewrite Forall_forall in H0.
  pose proof (loop_events _ _ _ _ _ _ Hb) as H1. rewrite Forall_forall in H1.
  destruct (progress_miners _ _ _ _ _ _ Hb) as [[k Hpre] Hall].
  assert (Hin : ∀ p, PrintProcessing p ∈ t1 → p ∈ selected nsm fs order).
  { intros p Hin. apply elem_of_plan. rewrite Hpre. apply elem_of_app. left.
    by apply elem_of_progress. }
  assert (Hloop : ∀ ev, loop_event ev →
            ev ∈ t0 ++ t1 ++ match ab with
                             | None => report fs (selected nsm fs order)
                             | Some _ => []
                             end → ev ∈ t1).
  { intros ev Hev [Hin'|[Hin'|Hin']%elem_of_app]%elem_of_app; [|done|].
    - apply H0 in Hin'. by destruct ev.
    - apply tail_quiet in Hin'. by destruct ev. }
  split.
  - intros p Hin'%Hloop; [|done]. by apply (selected_public nsm fs order p Hperm), Hin.
  - intros Hret. apply finish_Returned in Hret as ->. split.
    + intros p. rewrite <- (selected_public nsm fs order p Hperm). split.
      * intros Hin'%Hloop; [|done]. auto.
      * intros Hs%elem_of_plan. rewrite <- Hall in Hs by done.
        apply elem_of_progress in Hs as [Hs _].
        apply elem_of_app. right. apply elem_of_app. by left.
    + intros p. rewrite !elem_of_app, elem_of_report.
      rewrite (selected_public nsm fs order p Hperm). split.
      * intros [Hin'|[Hin'|[Hfs Hns]]]; [by apply H0 in Hin'|by apply H1 in Hin'|].
        split; [done|]. intros Hpub. apply Hns. split; [done|]. done.
      * intros [Hfs Hns]. right. right. split; [done|]. intros [Hpub _]. done.
Qed.

Lemma blocks_silent {A} (B : A → list (event Data) → option exn → Prop) xs t ab :
  (∀ x t ab, B x t ab → t = [] ∧ ab = None) →
  blocks B xs t ab → t = [] ∧ ab = None.
Proof.
  intros HB. induction 1 as [|x xs t1 t2 ab H1 H2 [-> ->]|x xs t1 e H1].
  - done.
  - by destruct (HB _ _ _ H1) as [-> _].
  - by destruct (HB _ _ _ H1) as [_ ?].
Qed.

(** X14. When none of the requested names is a public name, [run] asks no
    miner for data and prints no header of a miner: it returns after the
    report, which lists every requested name in sorted order. *)
Theorem run_nothing_available filter_string (fs : gset string) self h t self' r :
  cache_ok self →
  _parse_filter filter_string = Returned fs → fs ≠ ∅ →
  run filter_string self h = (t, self', r) →
  (∀ nsm m p, __name_source_map self' = Some nsm → p ∈ fs → ¬ public_name nsm m p) →
  r = Returned () ∧
  ∃ t0, Forall enumeration_event t0 ∧
        t = t0 ++ PrintMissingHeader :: (PrintMissing <$> sorted_names fs).
Proof.
  intros Hok Hp Hne Hrun Hnone.
  destruct (run_conforms filter_string fs self h Hok Hp)
    as (t0 & self1 & nsm & order & t1 & ab & Hn & Hc & _ & _ & _ & _ & Hperm & _ & Hb & Hr).
  rewrite Hrun in Hr. injection Hr as -> -> ->.
  assert (Hsel : selected nsm fs order = ∅).
  { apply set_eq. intros p. rewrite elem_of_empty, (selected_public _ _ _ _ Hperm).
    split; [|done]. intros [[m Hm] Hfs]. by apply (Hnone nsm m p Hc); auto. }
  apply blocks_silent in Hb as [-> ->].
  - split; [done|]. exists t0. split; [by eapply enumeration_name_source_map|].
    simpl. rewrite Hsel. unfold report.
    rewrite decide_False by done. rewrite difference_empty_L.
    by rewrite decide_False.
  - intros m tm abm [bucket ?? | bucket tn ab' Hbucket Hcont _]; [done|].
    exfalso. apply Hcont. apply set_eq. intros p. rewrite elem_of_empty.
    split; [|done]. intros [Hget Hfs]%elem_of_containers.
    apply (Hnone nsm m p Hc); [auto|]. unfold public_name, lookup2.
    by rewrite Hbucket.
Qed.

End run_properties.

Lemma run_fetches_enumerated_witness :
  @run string items_sample "types" (__init__ [Miner 0; Miner 1] [Writer 0]) []
  = ([CallContnameIter (Miner 0) ["items"; "blueprints"];
     CallContnameIter (Miner 1) ["items"; "types"];
     PrintMiner "MinerB"; PrintProcessing "types";
     CallGetData (Miner 1) "types" (Returned "types");
     CallWrite (Writer 0) "types" "types" (Returned ())],
     {| _miners := [Miner 0; Miner 1]; _writers := [Writer 0];
       __name_source_map :=
         Some [(Miner 0, [("items_MinerA", "items"); ("blueprints", "blueprints")]);
               (Miner 1, [("items_MinerB", "items"); ("types", "types")])] |},
     Returned ()) ∧
  Miner 1 ∈ [Miner 0; Miner 1] ∧
  ∃ t1 names t2,
    [CallContnameIter (Miner 0) ["items"; "blueprints"];
     CallContnameIter (Miner 1) ["items"; "types"];
     PrintMiner "MinerB"; PrintProcessing "types";
     CallGetData (Miner 1) "types" (Returned "types");
     CallWrite (Writer 0) "types" "types" (Returned ())]
    = t1 ++ CallContnameIter (Miner 1) names :: t2 ∧
    "types" ∈ names ∧
    CallGetData (Miner 1) "types" (Returned "types") ∈ t2.
Proof.
  assert (Hrun :
    @run string items_sample "types" (__init__ [Miner 0; Miner 1] [Writer 0]) []
    = ([CallContnameIter (Miner 0) ["items"; "blueprints"];
     CallContnameIter (Miner 1) ["items"; "types"];
     PrintMiner "MinerB"; PrintProcessing "types";
     CallGetData (Miner 1) "types" (Returned "types");
     CallWrite (Writer 0) "types" "types" (Returned ())],
       {| _miners := [Miner 0; Miner 1]; _writers := [Writer 0];
       __name_source_map :=
         Some [(Miner 0, [("items_MinerA", "items"); ("blueprints", "blueprints")]);
               (Miner 1, [("items_MinerB", "items"); ("types", "types")])] |},
       Returned ())) by (vm_compute; reflexivity).
  split; [exact Hrun|].
  apply (@run_fetches_enumerated string items_sample "types"
           (__init__ [Miner 0; Miner 1] [Writer 0]) [] _ _ _
           (Miner 1) "types" (Returned "types") eq_refl Hrun).
  do 4 right. left.
Defined.

Lemma run_writes_fetched_witness :
  cache_ok (__init__ [Miner 0; Miner 1] [Writer 0]) ∧
  @run string items_sample "types" (__init__ [Miner 0; Miner 1] [Writer 0]) []
  = ([CallContnameIter (Miner 0) ["items"; "blueprints"];
     CallContnameIter (Miner 1) ["items"; "types"];
     PrintMiner "MinerB"; PrintProcessing "types";
     CallGetData (Miner 1) "types" (Returned "types");
     CallWrite (Writer 0) "types" "types" (Returned ())],
     {| _miners := [Miner 0; Miner 1]; _writers := [Writer 0];
       __name_source_map :=
         Some [(Miner 0, [("items_MinerA", "items"); ("blueprints", "blueprints")]);
               (Miner 1, [("items_MinerB", "items"); ("types", "types")])] |},
     Returned ()) ∧
  Writer 0 ∈ [Writer 0] ∧
  ∃ nsm m src t1 t2 t3,
    Some [(Miner 0, [("items_MinerA", "items"); ("blueprints", "blueprints")]);
          (Miner 1, [("items_MinerB", "items"); ("types", "types")])] = Some nsm ∧
    lookup2 nsm m "types" = Some src ∧
    [CallContnameIter (Miner 0) ["items"; "blueprints"];
     CallContnameIter (Miner 1) ["items"; "types"];
     PrintMiner "MinerB"; PrintProcessing "types";
     CallGetData (Miner 1) "types" (Returned "types");
     CallWrite (Writer 0) "types" "types" (Returned ())]
    = t1 ++ PrintProcessing "types" :: CallGetData m src (Returned "types") :: t2
         ++ CallWrite (Writer 0) "types" "types" (Returned ()) :: t3 ∧
    fetches t2 = [].
Proof.
  assert (Hrun :
    @run string items_sample "types" (__init__ [Miner 0; Miner 1] [Writer 0]) []
    = ([CallContnameIter (Miner 0) ["items"; "blueprints"];
     CallContnameIter (Miner 1) ["items"; "types"];
     PrintMiner "MinerB"; PrintProcessing "types";
     CallGetData (Miner 1) "types" (Returned "types");
     CallWrite (Writer 0) "types" "types" (Returned ())],
       {| _miners := [Miner 0; Miner 1]; _writers := [Writer 0];
       __name_source_map :=
         Some [(Miner 0, [("items_MinerA", "items"); ("blueprints", "blueprints")]);
               (Miner 1, [("items_MinerB", "items"); ("types", "types")])] |},
       Returned ())) by (vm_compute; reflexivity).
  split_and!; [apply cache_ok_init | exact Hrun | |];
    apply (@run_writes_fetched string items_sample "types"
             (__init__ [Miner 0; Miner 1] [Writer 0]) [] _ _ _
             (Writer 0) "types" "types" (Returned ()) (cache_ok_init _ _) Hrun);
    do 5 right; left.
Defined.

Lemma run_rejects_bad_filter_witness :
  cache_ok (__init__ [Miner 0; Miner 1] [Writer 0]) ∧
  _parse_filter "items(" = Raised (FilterParseError not_closed_msg) ∧
  @run string items_sample "items(" (__init__ [Miner 0; Miner 1] [Writer 0]) []
  = ([], __init__ [Miner 0; Miner 1] [Writer 0],
     Raised (FilterParseError not_closed_msg)).
Proof.
  split_and!; [apply cache_ok_init | by vm_compute |].
  apply (@run_rejects_bad_filter string items_sample "items(" _
           (__init__ [Miner 0; Miner 1] [Writer 0]) [] (cache_ok_init _ _)).
  by vm_compute.
Defined.

Lemma run_processes_public_witness :
  cache_ok (__init__ [Miner 0; Miner 1] [Writer 0]) ∧
  _parse_filter "types,items" = Returned {[ "types"; "items" ]} ∧
  @run string items_sample "types,items" (__init__ [Miner 0; Miner 1] [Writer 0]) []
  = ([CallContnameIter (Miner 0) ["items"; "blueprints"];
      CallContnameIter (Miner 1) ["items"; "types"];
      PrintMiner "MinerB"; PrintProcessing "types";
      CallGetData (Miner 1) "types" (Returned "types");
      CallWrite (Writer 0) "types" "types" (Returned ());
      PrintMissingHeader; PrintMissing "items"],
     {| _miners := [Miner 0; Miner 1]; _writers := [Writer 0];
        __name_source_map :=
          Some [(Miner 0, [("items_MinerA", "items"); ("blueprints", "blueprints")]);
                (Miner 1, [("items_MinerB", "items"); ("types", "types")])] |},
     Returned ()) ∧
  ¬ ∃ m, public_name
           [(Miner 0, [("items_MinerA", "items"); ("blueprints", "blueprints")]);
            (Miner 1, [("items_MinerB", "items"); ("types", "types")])] m "items".
Proof.
  assert (Hp : _parse_filter "types,items" = Returned {[ "types"; "items" ]})
    by (by vm_compute).
  assert (Hrun :
    @run string items_sample "types,items" (__init__ [Miner 0; Miner 1] [Writer 0]) []
    = ([CallContnameIter (Miner 0) ["items"; "blueprints"];
        CallContnameIter (Miner 1) ["items"; "types"];
        PrintMiner "MinerB"; PrintProcessing "types";
        CallGetData (Miner 1) "types" (Returned "types");
        CallWrite (Writer 0) "types" "types" (Returned ());
        PrintMissingHeader; PrintMissing "items"],
       {| _miners := [Miner 0; Miner 1]; _writers := [Writer 0];
          __name_source_map :=
            Some [(Miner 0, [("items_MinerA", "items"); ("blueprints", "blueprints")]);
                  (Miner 1, [("items_MinerB", "items"); ("types", "types")])] |},
       Returned ())) by (vm_compute; reflexivity).
  split_and!; [apply cache_ok_init | exact Hp | exact Hrun |].
  destruct (@run_processes_public string items_sample "types,items" _
              (__init__ [Miner 0; Miner 1] [Writer 0]) [] _ _ _
              (cache_ok_init _ _) Hp Hrun) as (nsm & [= <-] & _ & Hret).
  apply (Hret eq_refl). do 7 right. left.
Defined.

Lemma run_nothing_available_witness :
  cache_ok (__init__ [Miner 0] [Writer 0]) ∧
  _parse_filter "foo" = Returned {[ "foo" ]} ∧
  ∃ t0,
    @run string items_sample "foo" (__init__ [Miner 0] [Writer 0]) []
    = (t0 ++ PrintMissingHeader :: (PrintMissing <$> sorted_names {[ "foo" ]}),
       {| _miners := [Miner 0]; _writers := [Writer 0];
          __name_source_map :=
            Some [(Miner 0, [("items", "items"); ("blueprints", "blueprints")])] |},
       Returned ()).
Proof.
  assert (Hp : _parse_filter "foo" = Returned {[ "foo" ]}) by (by vm_compute).
  assert (Hrun :
    @run string items_sample "foo" (__init__ [Miner 0] [Writer 0]) []
    = ([CallContnameIter (Miner 0) ["items"; "blueprints"];
        PrintMissingHeader; PrintMissing "foo"],
       {| _miners := [Miner 0]; _writers := [Writer 0];
          __name_source_map :=
            Some [(Miner 0, [("items", "items"); ("blueprints", "blueprints")])] |},
       Returned ())) by (vm_compute; reflexivity).
  split_and!; [apply cache_ok_init | exact Hp |].
  destruct (@run_nothing_available string items_sample _ _ _ _ _ _ _
              (cache_ok_init _ _) Hp (non_empty_singleton_L _) Hrun)
    as (_ & t0 & _ & Ht).
  - intros nsm m p [= <-] ->%elem_of_singleton [x Hx].
    destruct m as [[|n]]; vm_compute in Hx; discriminate.
  - exists t0. rewrite Hrun, Ht. done.
Defined.

Section run_once.
Context {Data : Type} `{!Collaborators Data}.
Implicit Types self : FlowManager.
Implicit Types h t : list (event Data).
Implicit Types nsm : namespace.

(** In a bucket of the namespace that [resolve] computes, two public names
    never stand for one native name. *)
Lemma bucket_native_inj E nsm m p1 p2 n :
  resolve E = Returned nsm →
  lookup2 nsm m p1 = Some n → lookup2 nsm m p2 = Some n → p1 = p2.
Proof.
  intros Hres H1%(lookup2_resolve_sound E) H2%(lookup2_resolve_sound E); [|done..].
  destruct H1 as [[Hp1 ->]|(Hl1 & _ & ->)], H2 as [[Hp2 ->]|(Hl2 & _ & ->)]; try done.
  - rewrite Hp1 in Hl2. simpl in Hl2. lia.
  - rewrite Hp2 in Hl1. simpl in Hl1. lia.
Qed.

Lemma get_elem_of {K V} `{EqDecision K} (d : list (K * V)) k v :
  PyDict.get d k = Some v → (k, v) ∈ d.
Proof.
  induction d as [|[k' v'] d IH]; simpl; [done|].
  case_decide as E; [intros [= ->]; subst; left | right; auto].
Qed.

Lemma NoDup_prefix {X} (l k : list X) : l `prefix_of` k → NoDup k → NoDup l.
Proof. intros [k' ->] Hk. by apply NoDup_app in Hk as [? _]. Qed.

Lemma quiet_tail nsm (fs : gset string) order (ab : option exn) :
  Forall quiet_event match ab with
                     | None => report (Data:=Data) fs (selected nsm fs order)
                     | Some _ => []
                     end.
Proof. destruct ab; [constructor | apply quiet_report]. Qed.

(** X15. On an object that has no namespace yet, [run] asks no miner twice
    for the same container. *)
Theorem run_fetches_once filter_string self h t self' r :
  __name_source_map self = None →
  run filter_string self h = (t, self', r) →
  NoDup (fetches t).
Proof.
  intros Hnone Hrun.
  destruct (_parse_filter filter_string) as [fs|e] eqn:Hp; cycle 1.
  { rewrite (run_parse_error _ e) in Hrun by done. injection Hrun as <- _ _.
    constructor. }
  assert (Hok : cache_ok self) by (intros nsm; by rewrite Hnone).
  destruct (run_conforms filter_string fs self h Hok Hp)
    as (t0 & self1 & nsm & order & t1 & ab & Hn & Hc & _ & _ & Hok' & _ & Hperm & _ & Hb & Hr).
  rewrite Hrun in Hr. injection Hr as -> -> ->.
  pose proof (name_source_map_spec self h) as Hspec. rewrite Hnone in Hspec.
  destruct Hspec as (t0' & E & nsm' & Hn' & _ & _ & Hres).
  rewrite Hn in Hn'. injection Hn' as <- _ <-.
  rewrite !fetches_app.
  destruct (quiet_spec t0) as (_ & -> & _).
  { by eapply enumeration_quiet, enumeration_name_source_map. }
  destruct (quiet_spec _ (quiet_tail nsm fs order ab)) as (_ & -> & _).
  rewrite app_nil_r. simpl.
  apply NoDup_prefix with (planned_fetches nsm fs order).
  { by eapply fetches_miners. }
  destruct (Hok' nsm Hc) as [Hnd _]. rewrite <- Hperm in Hnd.
  apply NoDup_bind; [| |done].
  - intros m1 m2 y _ _ (p1 & -> & _)%list_elem_of_fmap (p2 & [= ->] & _)%list_elem_of_fmap.
    done.
  - intros m Hm. apply NoDup_fmap_2_strong; [|apply NoDup_sorted_names].
    intros p1 p2 [[n1 H1] _]%elem_of_sorted_names%elem_of_containers
      [[n2 H2] _]%elem_of_sorted_names%elem_of_containers [= Heq].
    rewrite H1, H2 in Heq. simpl in Heq. subst n2.
    destruct (PyDict.get nsm m) as [b|] eqn:Hbk; simpl in *; [|done].
    apply (bucket_native_inj E nsm m p1 p2 n1 Hres); unfold lookup2; by rewrite Hbk.
Qed.

Lemma processed_names_progress t : processed_names (progress t) = processed_names t.
Proof.
  unfold processed_names, progress.
  induction t as [|ev t IH]; [done|]. rewrite !bind_cons, bind_app, IH.
  f_equal. destruct ev; simpl; by rewrite ?app_nil_r.
Qed.

Lemma processed_names_plan nsm (fs : gset string) order :
  processed_names (plan (Data:=Data) nsm fs order)
  = order ≫= λ m, sorted_names (containers (default [] (PyDict.get nsm m)) fs).
Proof.
  unfold processed_names, plan.
  induction order as [|m order IH]; [done|]. rewrite !bind_cons, bind_app, IH.
  f_equal. destruct (sorted_names _) as [|p names]; [done|].
  rewrite bind_cons. simpl. f_equal.
  induction names as [|q names IHn]; simpl; [done | by f_equal].
Qed.

(** X16. When no public name is in the buckets of two miners, a run
    processes no public name twice. *)
Theorem run_processes_once filter_string self h t self' r :
  cache_ok self →
  run filter_string self h = (t, self', r) →
  (∀ nsm m1 m2 p, __name_source_map self' = Some nsm →
     public_name nsm m1 p → public_name nsm m2 p → m1 = m2) →
  NoDup (processed_names t).
Proof.
  intros Hok Hrun Huniq.
  destruct (_parse_filter filter_string) as [fs|e] eqn:Hp; cycle 1.
  { rewrite (run_parse_error _ e) in Hrun by done. injection Hrun as <- _ _.
    constructor. }
  destruct (run_conforms filter_string fs self h Hok Hp)
    as (t0 & self1 & nsm & order & t1 & ab & Hn & Hc & _ & _ & Hok' & _ & Hperm & _ & Hb & Hr).
  rewrite Hrun in Hr. injection Hr as -> -> ->.
  rewrite <- processed_names_progress, !progress_app.
  destruct (quiet_spec t0) as (-> & _).
  { by eapply enumeration_quiet, enumeration_name_source_map. }
  destruct (quiet_spec _ (quiet_tail nsm fs order ab)) as (-> & _).
  rewrite app_nil_r. simpl.
  destruct (progress_miners _ _ _ _ _ _ Hb) as [[k Hpre] _].
  apply NoDup_prefix with (processed_names (plan nsm fs order)).
  { exists (processed_names k). rewrite Hpre. unfold processed_names. by rewrite bind_app. }
  rewrite processed_names_plan.
  destruct (Hok' nsm Hc) as [Hnd _]. rewrite <- Hperm in Hnd.
  assert (Hpub : ∀ m p, p ∈ sorted_names (containers (default [] (PyDict.get nsm m)) fs)
                        → public_name nsm m p).
  { intros m p [Hget _]%elem_of_sorted_names%elem_of_containers.
    unfold public_name, lookup2.
    destruct (PyDict.get nsm m); simpl in *; [done|by destruct Hget]. }
  apply NoDup_bind; [| |done].
  - intros m1 m2 p _ _ H1%Hpub H2%Hpub. by apply (Huniq nsm m1 m2 p).
  - intros m _. apply NoDup_sorted_names.
Qed.

End run_once.

Lemma run_fetches_once_witness :
  @run string items_sample "" (__init__ [Miner 0; Miner 1] []) []
  = ([CallContnameIter (Miner 0) ["items"; "blueprints"];
      CallContnameIter (Miner 1) ["items"; "types"];
      PrintMiner "MinerA";
      PrintProcessing "blueprints";
      CallGetData (Miner 0) "blueprints" (Returned "blueprints");
      PrintProcessing "items_MinerA";
      CallGetData (Miner 0) "items" (Returned "items");
      PrintMiner "MinerB";
      PrintProcessing "items_MinerB";
      CallGetData (Miner 1) "items" (Returned "items");
      PrintProcessing "types";
      CallGetData (Miner 1) "types" (Returned "types")],
     {| _miners := [Miner 0; Miner 1]; _writers := [];
        __name_source_map :=
          Some [(Miner 0, [("items_MinerA", "items"); ("blueprints", "blueprints")]);
                (Miner 1, [("items_MinerB", "items"); ("types", "types")])] |},
     Returned ()) ∧
  NoDup [(Miner 0, "blueprints"); (Miner 0, "items");
         (Miner 1, "items"); (Miner 1, "types")].
Proof.
  assert (Hrun :
    @run string items_sample "" (__init__ [Miner 0; Miner 1] []) []
    = ([CallContnameIter (Miner 0) ["items"; "blueprints"];
        CallContnameIter (Miner 1) ["items"; "types"];
        PrintMiner "MinerA";
        PrintProcessing "blueprints";
        CallGetData (Miner 0) "blueprints" (Returned "blueprints");
        PrintProcessing "items_MinerA";
        CallGetData (Miner 0) "items" (Returned "items");
        PrintMiner "MinerB";
        PrintProcessing "items_MinerB";
        CallGetData (Miner 1) "items" (Returned "items");
        PrintProcessing "types";
        CallGetData (Miner 1) "types" (Returned "types")],
       {| _miners := [Miner 0; Miner 1]; _writers := [];
          __name_source_map :=
            Some [(Miner 0, [("items_MinerA", "items"); ("blueprints", "blueprints")]);
                  (Miner 1, [("items_MinerB", "items"); ("types", "types")])] |},
       Returned ())) by (vm_compute; reflexivity).
  split; [exact Hrun|].
  exact (@run_fetches_once string items_sample ""
           (__init__ [Miner 0; Miner 1] []) [] _ _ _ eq_refl Hrun).
Defined.

Lemma run_processes_once_witness :
  cache_ok (__init__ [Miner 0; Miner 1] []) ∧
  @run string items_sample "" (__init__ [Miner 0; Miner 1] []) []
  = ([CallContnameIter (Miner 0) ["items"; "blueprints"];
      CallContnameIter (Miner 1) ["items"; "types"];
      PrintMiner "MinerA";
      PrintProcessing "blueprints";
      CallGetData (Miner 0) "blueprints" (Returned "blueprints");
      PrintProcessing "items_MinerA";
      CallGetData (Miner 0) "items" (Returned "items");
      PrintMiner "MinerB";
      PrintProcessing "items_MinerB";
      CallGetData (Miner 1) "items" (Returned "items");
      PrintProcessing "types";
      CallGetData (Miner 1) "types" (Returned "types")],
     {| _miners := [Miner 0; Miner 1]; _writers := [];
        __name_source_map :=
          Some [(Miner 0, [("items_MinerA", "items"); ("blueprints", "blueprints")]);
                (Miner 1, [("items_MinerB", "items"); ("types", "types")])] |},
     Returned ()) ∧
  NoDup ["blueprints"; "items_MinerA"; "items_MinerB"; "types"].
Proof.
  assert (Hrun :
    @run string items_sample "" (__init__ [Miner 0; Miner 1] []) []
    = ([CallContnameIter (Miner 0) ["items"; "blueprints"];
        CallContnameIter (Miner 1) ["items"; "types"];
        PrintMiner "MinerA";
        PrintProcessing "blueprints";
        CallGetData (Miner 0) "blueprints" (Returned "blueprints");
        PrintProcessing "items_MinerA";
        CallGetData (Miner 0) "items" (Returned "items");
        PrintMiner "MinerB";
        PrintProcessing "items_MinerB";
        CallGetData (Miner 1) "items" (Returned "items");
        PrintProcessing "types";
        CallGetData (Miner 1) "types" (Returned "types")],
       {| _miners := [Miner 0; Miner 1]; _writers := [];
          __name_source_map :=
            Some [(Miner 0, [("items_MinerA", "items"); ("blueprints", "blueprints")]);
                  (Miner 1, [("items_MinerB", "items"); ("types", "types")])] |},
       Returned ())) by (vm_compute; reflexivity).
  split_and!; [apply cache_ok_init | exact Hrun |].
  apply (@run_processes_once string items_sample ""
           (__init__ [Miner 0; Miner 1] []) [] _ _ _ (cache_ok_init _ _) Hrun).
  intros nsm m1 m2 p Hc. simpl in Hc. injection Hc as <-. intros [n1 H1] [n2 H2].
  unfold lookup2 in H1, H2.
  apply bind_Some in H1 as (b1 & Hb1%get_elem_of & Hp1%get_elem_of).
  apply bind_Some in H2 as (b2 & Hb2%get_elem_of & Hp2%get_elem_of).
  apply elem_of_cons in Hb1 as [[= -> ->]|Hb1];
    [|apply list_elem_of_singleton in Hb1 as [= -> ->]];
    (apply elem_of_cons in Hb2 as [[= -> ->]|Hb2];
       [|apply list_elem_of_singleton in Hb2 as [= -> ->]]);
    [reflexivity| | |reflexivity]; exfalso;
    (apply elem_of_cons in Hp1 as [[= -> _]|Hp1];
       [|apply list_elem_of_singleton in Hp1 as [= -> _]]);
    apply elem_of_cons in Hp2 as [[=]|Hp2];
    apply list_elem_of_singleton in Hp2 as [=].
Defined.
